(** * Verification of the Kaggle dataset importer ([kaggle_import.py])

    A shallow embedding of [kaggle_import.py]: the find-or-create searcher
    built by [db_atomic_search], its memoised instances [get_attack_id],
    [get_target_id], [get_place_id], [get_missile_id], the date parser
    [get_datetime] and the batch driver [import_dataset].

    Python [str] values that carry data are lists of characters (code
    points below 256); SQL identifiers and keyword-argument names are
    [string]s.  The PostgreSQL connection is a pair of table states (the
    committed one and the one seen inside the open transaction), the
    program is written in a state-and-exception monad over it. *)

From Stdlib Require Import String Ascii.
From Stdlib Require Import List ZArith Lia Bool Arith PeanoNat.
Import ListNotations.

Local Open Scope list_scope.
Local Open Scope nat_scope.

(** ** Python strings *)

Definition str := list ascii.

Definition txt (s : string) : str := list_ascii_of_string s.

Module PyStr.

(** [s.startswith(p)] *)
Fixpoint starts_with (p s : str) : bool :=
  match p, s with
  | [], _ => true
  | _ :: _, [] => false
  | a :: p', b :: s' => Ascii.eqb a b && starts_with p' s'
  end.

(** [s.find(sep)]: index of the first occurrence, [None] for -1. *)
Fixpoint find (sep s : str) : option nat :=
  if starts_with sep s then Some 0
  else match s with
       | [] => None
       | _ :: s' => option_map S (find sep s')
       end.

(** [c in s] for a one-character [c]. *)
Definition contains (c : ascii) (s : str) : bool :=
  existsb (Ascii.eqb c) s.

(** The loop of [s.split(sep)] for a non-empty [sep]: search the next
    occurrence, cut the piece before it, go on behind it; the last piece
    is what remains.  Every round removes at least [length sep]
    characters, so [length s] rounds are enough. *)
Fixpoint split_from (fuel : nat) (sep s : str) : list str :=
  match find sep s with
  | None => [s]
  | Some j =>
      firstn j s ::
      match fuel with
      | 0 => []
      | S fuel' => split_from fuel' sep (skipn (j + length sep) s)
      end
  end.

Definition split (s sep : str) : list str := split_from (length s) sep s.


(** [sep] occurs somewhere in [s]. *)
Definition occurs (sep s : str) : Prop :=
  exists pre post, s = pre ++ sep ++ post.

End PyStr.

(** ** [datetime] values and [datetime.strptime] *)

Record datetime := mkDatetime {
  year : nat; month : nat; day : nat; hour : nat; minute : nat
}.

(** [datetime.strptime] for the two formats [get_datetime] uses, after
    CPython's [_strptime]: the format becomes a regular expression (the
    pattern of each directive, a blank of the format as [\s+]), [re.match]
    takes the first way the expression matches a prefix of the text, text
    left over is an error, and the fields must make a date that the
    [date] constructor accepts. *)
Module Strptime.

Definition code (c : ascii) : nat := nat_of_ascii c.

Definition in_range (lo hi c : ascii) : bool :=
  (code lo <=? code c) && (code c <=? code hi).

(** value of a decimal digit character *)
Definition digit_val (c : ascii) : nat := code c - 48.

(** [\s] on code points below 256 *)
Definition is_space (c : ascii) : bool :=
  existsb (Nat.eqb (code c)) [9; 10; 11; 12; 13; 28; 29; 30; 31; 32; 133; 160].

(** A backtracking matcher: all the ways to match a prefix of the input,
    in the order in which the regular expression engine tries them. *)
Definition parser (A : Type) := str -> list (A * str).

Definition p_ret {A} (a : A) : parser A := fun s => [(a, s)].

Definition p_bind {A B} (p : parser A) (f : A -> parser B) : parser B :=
  fun s => flat_map (fun ar => f (fst ar) (snd ar)) (p s).

Definition p_alt {A} (p q : parser A) : parser A := fun s => p s ++ q s.

(** one character of a class, giving its digit value *)
Definition p_class (lo hi : ascii) : parser nat :=
  fun s => match s with
           | c :: r => if in_range lo hi c then [(digit_val c, r)] else []
           | [] => []
           end.

(** a literal character *)
Definition p_lit (l : ascii) : parser unit :=
  fun s => match s with
           | c :: r => if Ascii.eqb c l then [(tt, r)] else []
           | [] => []
           end.

(** two characters: [a] in the first class, [b] in the second *)
Definition p_two (lo1 hi1 lo2 hi2 : ascii) : parser nat :=
  p_bind (p_class lo1 hi1) (fun a =>
  p_bind (p_class lo2 hi2) (fun b => p_ret (10 * a + b))).

(** [\s*] and [\s+], greedy: the longest run first *)
Fixpoint p_spaces_star (s : str) : list (unit * str) :=
  match s with
  | c :: r => if is_space c then p_spaces_star r ++ [(tt, s)] else [(tt, s)]
  | [] => [(tt, [])]
  end.

Definition p_spaces_plus : parser unit :=
  fun s => match s with
           | c :: r => if is_space c then p_spaces_star r else []
           | [] => []
           end.

(** [%Y]: [\d\d\d\d] *)
Definition p_Y : parser nat :=
  p_bind (p_class "0" "9") (fun a =>
  p_bind (p_class "0" "9") (fun b =>
  p_bind (p_class "0" "9") (fun c =>
  p_bind (p_class "0" "9") (fun d =>
  p_ret (1000 * a + 100 * b + 10 * c + d))))).

(** [%m]: [1[0-2]|0[1-9]|[1-9]] *)
Definition p_m : parser nat :=
  p_alt (p_two "1" "1" "0" "2")
 (p_alt (p_two "0" "0" "1" "9")
        (p_class "1" "9")).

(** [%d]: [3[0-1]|[1-2]\d|0[1-9]|[1-9]| [1-9]] *)
Definition p_d : parser nat :=
  p_alt (p_two "3" "3" "0" "1")
 (p_alt (p_two "1" "2" "0" "9")
 (p_alt (p_two "0" "0" "1" "9")
 (p_alt (p_class "1" "9")
        (p_bind (p_lit " ") (fun _ => p_class "1" "9"))))).

(** [%H]: [2[0-3]|[0-1]\d|\d] *)
Definition p_H : parser nat :=
  p_alt (p_two "2" "2" "0" "3")
 (p_alt (p_two "0" "1" "0" "9")
        (p_class "0" "9")).

(** [%M]: [[0-5]\d|\d] *)
Definition p_M : parser nat :=
  p_alt (p_two "0" "5" "0" "9") (p_class "0" "9").

(** the pattern of ['%Y-%m-%d'] *)
Definition p_date : parser (nat * nat * nat) :=
  p_bind p_Y (fun y =>
  p_bind (p_lit "-") (fun _ =>
  p_bind p_m (fun m =>
  p_bind (p_lit "-") (fun _ =>
  p_bind p_d (fun d => p_ret (y, m, d)))))).

(** the pattern of ['%Y-%m-%d %H:%M'] (a blank of the format is [\s+]) *)
Definition p_datetime : parser (nat * nat * nat * nat * nat) :=
  p_bind p_date (fun ymd =>
  p_bind p_spaces_plus (fun _ =>
  p_bind p_H (fun h =>
  p_bind (p_lit ":") (fun _ =>
  p_bind p_M (fun mi => p_ret (ymd, h, mi)))))).

Definition is_leap (y : nat) : bool :=
  (y mod 4 =? 0) && (negb (y mod 100 =? 0) || (y mod 400 =? 0)).

Definition days_in_month (y m : nat) : nat :=
  match m with
  | 2 => if is_leap y then 29 else 28
  | 4 | 6 | 9 | 11 => 30
  | _ => 31
  end.

(** what the [date(year, month, day)] constructor accepts *)
Definition valid_date (y m d : nat) : bool :=
  (1 <=? y) && (y <=? 9999) && (1 <=? m) && (m <=? 12) &&
  (1 <=? d) && (d <=? days_in_month y m).

(** [re.match]: the first way the pattern matches a prefix *)
Definition re_match {A} (p : parser A) (s : str) : option (A * str) :=
  hd_error (p s).

(** [datetime.strptime(s, '%Y-%m-%d')]; [None] stands for [ValueError]
    (no match, unconverted data remains, or a date out of range) *)
Definition strptime_date (s : str) : option datetime :=
  match re_match p_date s with
  | Some ((y, m, d), []) =>
      if valid_date y m d then Some (mkDatetime y m d 0 0) else None
  | _ => None
  end.

(** [datetime.strptime(s, '%Y-%m-%d %H:%M')] *)
Definition strptime_datetime (s : str) : option datetime :=
  match re_match p_datetime s with
  | Some ((y, m, d, h, mi), []) =>
      if valid_date y m d then Some (mkDatetime y m d h mi) else None
  | _ => None
  end.

End Strptime.

(** ** Exceptions *)

Inductive exn := ValueError | KeyError | DatabaseError.

Inductive result (A : Type) :=
| Ok (a : A)
| Raise (e : exn).
Arguments Ok {A} a.
Arguments Raise {A} e.

(** ** [get_datetime] *)

Definition get_datetime (raw_str : str) : result datetime :=
  match (if PyStr.contains ":" raw_str
         then Strptime.strptime_datetime raw_str
         else Strptime.strptime_date raw_str) with
  | Some dt => Ok dt
  | None => Raise ValueError
  end.

(** ** SQL values, rows and tables *)

Inductive value :=
| VNull
| VInt (z : Z)
| VText (s : str)
| VTime (d : datetime).

Definition datetime_eq_dec (a b : datetime) : {a = b} + {a <> b}.
Proof. decide equality; apply Nat.eq_dec. Defined.

Definition str_eq_dec (a b : str) : {a = b} + {a <> b} :=
  list_eq_dec ascii_dec a b.

Definition value_eq_dec (a b : value) : {a = b} + {a <> b}.
Proof.
  decide equality;
    [apply Z.eq_dec | apply str_eq_dec | apply datetime_eq_dec].
Defined.

(** SQL [a = b]: never true when a side is NULL. *)
Definition sql_eq (a b : value) : bool :=
  match a, b with
  | VNull, _ | _, VNull => false
  | _, _ => if value_eq_dec a b then true else false
  end.

(** A Python [dict] with string keys, in insertion order: the keyword
    arguments of a call, the parameters of a statement, a table row
    (column name to value). *)
Definition params := list (string * value).
Definition row := params.

Definition params_eq_dec (a b : params) : {a = b} + {a <> b}.
Proof.
  apply list_eq_dec. intros x y. decide equality.
  - apply value_eq_dec.
  - apply string_dec.
Defined.

Fixpoint lookup {V : Type} (k : string) (l : list (string * V)) : option V :=
  match l with
  | [] => None
  | (k', v) :: l' => if String.eqb k k' then Some v else lookup k l'
  end.

(** value of column [c] in row [r], NULL when the row does not set it *)
Definition row_get (c : string) (r : row) : value :=
  match lookup c r with
  | Some v => v
  | None => VNull
  end.

(** [c1 = v1 AND c2 = v2 AND ...] *)
Definition row_matches (conds : params) (r : row) : bool :=
  forallb (fun cv => sql_eq (row_get (fst cv) r) (snd cv)) conds.

Definition database := string -> list row.

Definition upd {V : Type} (t : string) (v : V) (f : string -> V) : string -> V :=
  fun t' => if String.eqb t' t then v else f t'.

(** ** The program state *)

Inductive kind := Attack | Target | Place | Missile.

Definition kind_eqb (a b : kind) : bool :=
  match a, b with
  | Attack, Attack | Target, Target | Place, Place | Missile, Missile => true
  | _, _ => false
  end.

(** A source record ([csv.DictReader] row): the eight fields the importer
    reads, each a text. *)
Record record := mkRecord {
  time_start : str;
  time_end : str;
  source : str;
  launched : str;
  destroyed : str;
  launch_place : str;
  target : str;
  model : str
}.

(** What the run does, in the order it does it.  [EvResolved] marks the
    return of a memoised searcher; the other events are the statements sent
    over the connection and the report printed after a block. *)
Inductive event :=
| EvResolved (k : kind) (vals : params) (pk : value)
| EvSelect (tbl : string) (conds : params)
| EvInsert (tbl : string) (r : row)
| EvRejected (tbl : string) (r : row)
| EvCommit
| EvRollback
| EvPrint (i_block n_rows : nat).

Record world := mkWorld {
  (** rows visible after the last commit *)
  committed : database;
  (** rows seen by the connection inside its open transaction *)
  current : database;
  (** the storage layer's checks on an insert: table, its rows, new row *)
  accepts : string -> list row -> row -> bool;
  (** the serial sequence behind each generated key; not transactional *)
  sequences : string -> Z;
  (** the [lru_cache] of each memoised searcher, most recently used first *)
  caches : kind -> list (params * value);
  (** the unread rest of [data_iter] *)
  data_iter : list record;
  log : list event
}.

Definition with_committed (x : database) (w : world) : world :=
  mkWorld x (current w) (accepts w) (sequences w) (caches w) (data_iter w) (log w).
Definition with_current (x : database) (w : world) : world :=
  mkWorld (committed w) x (accepts w) (sequences w) (caches w) (data_iter w) (log w).
Definition with_sequences (x : string -> Z) (w : world) : world :=
  mkWorld (committed w) (current w) (accepts w) x (caches w) (data_iter w) (log w).
Definition with_caches (x : kind -> list (params * value)) (w : world) : world :=
  mkWorld (committed w) (current w) (accepts w) (sequences w) x (data_iter w) (log w).
Definition with_data_iter (x : list record) (w : world) : world :=
  mkWorld (committed w) (current w) (accepts w) (sequences w) (caches w) x (log w).
Definition with_log (x : list event) (w : world) : world :=
  mkWorld (committed w) (current w) (accepts w) (sequences w) (caches w) (data_iter w) x.

(** ** State and exceptions *)

Definition M (A : Type) := world -> result A * world.

Definition ret {A} (a : A) : M A := fun w => (Ok a, w).

Definition raise {A} (e : exn) : M A := fun w => (Raise e, w).

Definition bind {A B} (m : M A) (f : A -> M B) : M B :=
  fun w => match m w with
           | (Ok a, w1) => f a w1
           | (Raise e, w1) => (Raise e, w1)
           end.

Definition lift {A} (r : result A) : M A := fun w => (r, w).

Declare Scope py_scope.
Delimit Scope py_scope with py.
Notation "x <- m ;; k" := (bind m (fun x => k))
  (at level 61, m at next level, right associativity) : py_scope.
Notation "m ;;; k" := (bind m (fun _ => k))
  (at level 61, right associativity) : py_scope.
Local Open Scope py_scope.

Definition emit (ev : event) : M unit :=
  fun w => (Ok tt, with_log (log w ++ [ev]) w).

(** ** Statements on the connection *)

(** [SELECT pk_col FROM tbl WHERE conds LIMIT 1] and [fetchone()]: the key
    column of the first row that satisfies the conditions. *)
Definition select_pk (tbl pk_col : string) (conds : params) : M (option value) :=
  emit (EvSelect tbl conds) ;;;
  fun w => (Ok (option_map (row_get pk_col)
                  (List.find (row_matches conds) (current w tbl))), w).

(** The storage layer takes the row or raises. *)
Definition store (tbl : string) (r : row) : M unit :=
  fun w =>
    if accepts w tbl (current w tbl) r
    then emit (EvInsert tbl r)
           (with_current (upd tbl (current w tbl ++ [r]) (current w)) w)
    else (emit (EvRejected tbl r) ;;; raise DatabaseError) w.

(** next value of the serial sequence of [tbl] *)
Definition nextval (tbl : string) : M Z :=
  fun w => (Ok (sequences w tbl),
            with_sequences (upd tbl (sequences w tbl + 1)%Z (sequences w)) w).

(** [INSERT INTO tbl (cols) VALUES (vals) RETURNING pk_col] and
    [fetchone()[0]] *)
Definition insert_returning (tbl : string) (cols : params) (pk_col : string)
  : M value :=
  key <- nextval tbl ;;
  store tbl ((pk_col, VInt key) :: cols) ;;;
  ret (VInt key).

(** [INSERT INTO tbl (cols) VALUES (vals)] *)
Definition insert (tbl : string) (cols : params) : M unit := store tbl cols.

(** ** [db_atomic_search] *)

Record searcher := mkSearcher {
  table : string;
  pk_col : string;
  kw_cols : list (string * string)
}.

(** The parameters of both statements: for each [(col_kw, col_name)] of
    [kw_cols] the column [col_name] with the value passed as [col_kw];
    a keyword that was not passed is a [KeyError] of [execute]. *)
Fixpoint bind_placeholders (kw_cols : list (string * string)) (vals : params)
  : option params :=
  match kw_cols with
  | [] => Some []
  | (col_kw, col_name) :: rest =>
      match lookup col_kw vals, bind_placeholders rest vals with
      | Some v, Some ps => Some ((col_name, v) :: ps)
      | _, _ => None
      end
  end.

Definition db_searcher (sp : searcher) (vals : params) : M value :=
  match bind_placeholders (kw_cols sp) vals with
  | None => raise KeyError
  | Some conds =>
      pk_row <- select_pk (table sp) (pk_col sp) conds ;;
      match pk_row with
      | Some pk => ret pk
      | None => insert_returning (table sp) conds (pk_col sp)
      end
  end.

(** ** [functools.lru_cache]

    The cache of one decorated function, as the list of its entries from
    the most recently used to the least recently used.  The key of a call
    is the tuple of its keyword arguments in the order of the call (the
    connection is the same object through a run).  A call that raises
    stores nothing.  The wrapped searcher never calls itself, so the key
    of a miss is still absent when its result is stored. *)

Fixpoint cache_get (key : params) (c : list (params * value)) : option value :=
  match c with
  | [] => None
  | (k, v) :: c' => if params_eq_dec key k then Some v else cache_get key c'
  end.

Fixpoint cache_remove (key : params) (c : list (params * value))
  : list (params * value) :=
  match c with
  | [] => []
  | (k, v) :: c' =>
      if params_eq_dec key k then cache_remove key c'
      else (k, v) :: cache_remove key c'
  end.

(** A miss stores the result as the most recent entry; a full cache first
    drops its oldest entry. *)
Definition cache_put (maxsize : nat) (key : params) (v : value)
    (c : list (params * value)) : list (params * value) :=
  if maxsize <=? length c then (key, v) :: removelast c else (key, v) :: c.

(** A hit makes the entry the most recent one. *)
Definition cache_touch (key : params) (v : value) (c : list (params * value))
  : list (params * value) :=
  (key, v) :: cache_remove key c.

Definition maxsize (k : kind) : nat :=
  match k with
  | Attack => 1
  | Target | Place | Missile => 500
  end.

Definition set_cache (k : kind) (c : list (params * value)) : M unit :=
  fun w => (Ok tt,
            with_caches (fun k' => if kind_eqb k' k then c else caches w k') w).

Definition lru_cache (k : kind) (f : params -> M value) (vals : params)
  : M value :=
  fun w =>
    match cache_get vals (caches w k) with
    | Some v => (set_cache k (cache_touch vals v (caches w k)) ;;; ret v) w
    | None =>
        (v <- f vals ;;
         (fun w1 => set_cache k (cache_put (maxsize k) vals v (caches w1 k)) w1) ;;;
         ret v) w
    end.

(** ** The memoised searchers *)

Definition searcher_of (k : kind) : searcher :=
  match k with
  | Attack =>
      mkSearcher "attacks" "attack_id"
        [("start_datetime", "start_datetime");
         ("end_datetime", "end_datetime");
         ("info_source", "info_source")]%string
  | Target =>
      mkSearcher "potential_targets" "target_id"
        [("general_name", "general_name")]%string
  | Place =>
      mkSearcher "launch_places" "place_id"
        [("general_name", "general_name")]%string
  | Missile =>
      mkSearcher "missiles" "missile_id"
        [("model_name", "model_name")]%string
  end.

Definition resolve (k : kind) (vals : params) : M value :=
  pk <- lru_cache k (db_searcher (searcher_of k)) vals ;;
  emit (EvResolved k vals pk) ;;;
  ret pk.

Definition attack_key (start_datetime end_datetime : datetime)
    (info_source : str) : params :=
  [("start_datetime", VTime start_datetime);
   ("end_datetime", VTime end_datetime);
   ("info_source", VText info_source)]%string.

(** the keyword arguments of [get_target_id] and [get_place_id]
    ([general_name]) and of [get_missile_id] ([model_name]) *)
Definition name_key (k : kind) (name : str) : params :=
  match k with
  | Missile => [("model_name"%string, VText name)]
  | _ => [("general_name"%string, VText name)]
  end.

Definition get_attack_id (start_datetime end_datetime : datetime)
    (info_source : str) : M value :=
  resolve Attack (attack_key start_datetime end_datetime info_source).

Definition get_target_id (general_name : str) : M value :=
  resolve Target (name_key Target general_name).

Definition get_place_id (general_name : str) : M value :=
  resolve Place (name_key Place general_name).

Definition get_missile_id (model_name : str) : M value :=
  resolve Missile (name_key Missile model_name).

(** ** [import_dataset] *)

Fixpoint for_each {A} (l : list A) (body : A -> M unit) : M unit :=
  match l with
  | [] => ret tt
  | x :: l' => body x ;;; for_each l' body
  end.

Definition sep_and : str := txt " and ".

Definition group_cols (attack_id : value) (data_row : record) : params :=
  [("attack_id", attack_id);
   ("units_launched", VText (launched data_row));
   ("units_destroyed", VText (destroyed data_row))]%string.

(** the body of the [for data_row in ...] loop, before [n_rows += 1] *)
Definition process_row (src_url_prefix : str) (data_row : record) : M unit :=
  start_datetime <- lift (get_datetime (time_start data_row)) ;;
  end_datetime <- lift (get_datetime (time_end data_row)) ;;
  attack_id <- get_attack_id start_datetime end_datetime
                 (src_url_prefix ++ source data_row) ;;
  group_id <- insert_returning "attack_groups"
                (group_cols attack_id data_row) "group_id" ;;
  for_each (PyStr.split (launch_place data_row) sep_and) (fun place_name =>
    place_id <- get_place_id place_name ;;
    insert "group_launch_places"
      [("group_id", group_id); ("place_id", place_id)]%string) ;;;
  for_each (PyStr.split (target data_row) sep_and) (fun target_name =>
    target_id <- get_target_id target_name ;;
    insert "group_targets"
      [("group_id", group_id); ("target_id", target_id)]%string) ;;;
  for_each (PyStr.split (model data_row) sep_and) (fun missile_model =>
    missile_id <- get_missile_id missile_model ;;
    insert "group_missiles"
      [("group_id", group_id); ("missile_id", missile_id)]%string).

(** [next(data_iter, None)] *)
Definition next_row : M (option record) :=
  fun w => match data_iter w with
           | [] => (Ok None, w)
           | r :: rest => (Ok (Some r), with_data_iter rest w)
           end.

(** [islice(data_iter, block_size)]: the number of rows the slice may still
    take from [data_iter]; a negative stop is a [ValueError]. *)
Definition islice (block_size : Z) : M nat :=
  if (block_size <? 0)%Z then raise ValueError else ret (Z.to_nat block_size).

(** [next(data_block, None)] *)
Definition islice_next (data_block : nat) : M (option record * nat) :=
  match data_block with
  | 0 => ret (None, 0)
  | S n => r <- next_row ;; ret (r, n)
  end.

(** the [for] loop once [data_block_row_0] is done: the rows of [data_block] *)
Fixpoint for_data_block (src_url_prefix : str) (data_block : nat) (n_rows : nat)
  : M nat :=
  match data_block with
  | 0 => ret n_rows
  | S n =>
      r <- next_row ;;
      match r with
      | None => ret n_rows
      | Some data_row =>
          process_row src_url_prefix data_row ;;;
          for_data_block src_url_prefix n (S n_rows)
      end
  end.

(** [for data_row in chain((data_block_row_0,), data_block)] *)
Definition for_block (src_url_prefix : str) (data_block_row_0 : record)
    (data_block : nat) : M nat :=
  process_row src_url_prefix data_block_row_0 ;;;
  for_data_block src_url_prefix data_block 1.

Definition commit : M unit :=
  fun w => emit EvCommit (with_committed (current w) w).

Definition rollback : M unit :=
  fun w => emit EvRollback (with_current (committed w) w).

(** [with db_conn:] commits when the body ends, rolls back when it raises. *)
Definition with_conn {A} (body : M A) : M A :=
  fun w => match body w with
           | (Ok a, w1) => (commit ;;; ret a) w1
           | (Raise e, w1) => (rollback ;;; raise e) w1
           end.

(** One round of [while True]: [false] for [break]. *)
Definition import_block (block_size : Z) (src_url_prefix : str) (i_block : nat)
  : M bool :=
  data_block <- islice block_size ;;
  first <- islice_next data_block ;;
  match fst first with
  | None => ret false
  | Some data_block_row_0 =>
      n_rows <- with_conn (for_block src_url_prefix data_block_row_0 (snd first)) ;;
      emit (EvPrint i_block n_rows) ;;;
      ret true
  end.

(** The [while True] loop; [None] when [fuel] rounds did not reach [break]. *)
Fixpoint import_loop (fuel : nat) (block_size : Z) (src_url_prefix : str)
    (i_block : nat) (w : world) : option (result unit * world) :=
  match fuel with
  | 0 => None
  | S fuel' =>
      match import_block block_size src_url_prefix i_block w with
      | (Raise e, w1) => Some (Raise e, w1)
      | (Ok false, w1) => Some (Ok tt, w1)
      | (Ok true, w1) =>
          import_loop fuel' block_size src_url_prefix (S i_block) w1
      end
  end.

(** [import_dataset(db_conn, data_rows, block_size=..., src_url_prefix=...)]
    on the connection and caches of [w]. *)
Definition import_dataset (data_rows : list record) (block_size : Z)
    (src_url_prefix : str) (w : world) : option (result unit * world) :=
  import_loop (S (length data_rows)) block_size src_url_prefix 0
    (with_data_iter data_rows w).

(** A connection to empty tables, nothing cached, nothing logged. *)
Definition empty_world : world :=
  mkWorld (fun _ => []) (fun _ => []) (fun _ _ _ => true) (fun _ => 1%Z)
          (fun _ => []) [] [].

Definition rec1 : record :=
  mkRecord (txt "2022-03-01") (txt "2022-03-01 14:30") (txt "src1")
           (txt "3") (txt "2") (txt "Crimea and Kherson Oblast")
           (txt "south") (txt "Kalibr").

Definition rec2 : record :=
  mkRecord (txt "2022-03-02") (txt "2022-03-02") (txt "src2")
           (txt "5") (txt "5") (txt "Crimea")
           (txt "") (txt "Shahed-136/131 and Kalibr").

Definition rec_bad : record :=
  mkRecord (txt "01.03.2022") (txt "2022-03-02") (txt "src3")
           (txt "5") (txt "5") (txt "Crimea")
           (txt "east") (txt "Kalibr").

(** ** The texts [strptime] accepts, stated on the text itself *)

Module DateFormat.
Import Strptime.

Definition digit (c : ascii) : Prop := in_range "0" "9" c = true.

(** four decimal digits *)
Inductive year_text : str -> nat -> Prop :=
| year_digits a b c d :
    digit a -> digit b -> digit c -> digit d ->
    year_text [a; b; c; d]
      (1000 * digit_val a + 100 * digit_val b + 10 * digit_val c + digit_val d).

(** A number between [lo] and [hi] written with two digits, or with one
    digit, or (where [blank] allows it) with a blank and one digit. *)
Inductive field_text (lo hi : nat) (blank : bool) : str -> nat -> Prop :=
| field_two a b :
    digit a -> digit b ->
    lo <= 10 * digit_val a + digit_val b <= hi ->
    field_text lo hi blank [a; b] (10 * digit_val a + digit_val b)
| field_one a :
    digit a -> lo <= digit_val a ->
    field_text lo hi blank [a] (digit_val a)
| field_blank a :
    blank = true -> digit a -> 1 <= digit_val a ->
    field_text lo hi blank [" "%char; a] (digit_val a).

(** one or more white-space characters *)
Definition white (ws : str) : Prop :=
  ws <> [] /\ Forall (fun c => is_space c = true) ws.

(** year [-] month [-] day *)
Definition date_text (s : str) (y m d : nat) : Prop :=
  exists ty tm td,
    s = ty ++ "-"%char :: tm ++ "-"%char :: td /\
    year_text ty y /\ field_text 1 12 false tm m /\ field_text 1 31 true td d.

(** date, white space, hour [:] minute *)
Definition datetime_text (s : str) (y m d h mi : nat) : Prop :=
  exists sd ws th tmi,
    s = sd ++ ws ++ th ++ ":"%char :: tmi /\
    date_text sd y m d /\ white ws /\
    field_text 0 23 false th h /\ field_text 0 59 false tmi mi.

(** The strict reading of [YYYY-MM-DD] and [YYYY-MM-DD HH:MM]: every
    field zero-padded to its full width, one blank in between. *)
Definition strict_date (s : str) : Prop :=
  exists y1 y2 y3 y4 m1 m2 d1 d2,
    s = [y1; y2; y3; y4; "-"; m1; m2; "-"; d1; d2]%char /\
    Forall digit [y1; y2; y3; y4; m1; m2; d1; d2].

Definition strict_datetime (s : str) : Prop :=
  exists sd h1 h2 n1 n2,
    s = sd ++ [" "; h1; h2; ":"; n1; n2]%char /\
    strict_date sd /\ Forall digit [h1; h2; n1; n2].

(** what [get_datetime] accepts, and the value it gives *)
Definition accepted (s : str) (dt : datetime) : Prop :=
  (PyStr.contains ":" s = false /\
   date_text s (year dt) (month dt) (day dt) /\
   valid_date (year dt) (month dt) (day dt) = true /\
   hour dt = 0 /\ minute dt = 0)
  \/
  (PyStr.contains ":" s = true /\
   datetime_text s (year dt) (month dt) (day dt) (hour dt) (minute dt) /\
   valid_date (year dt) (month dt) (day dt) = true).

(** [x] is the first element of [l] *)
Definition heads {A} (x : A) (l : list A) : Prop := exists tl, l = x :: tl.

(** the text does not go on with a decimal digit *)
Definition no_digit (rest : str) : Prop :=
  match rest with
  | [] => True
  | c :: _ => in_range "0" "9" c = false
  end.

(** the text does not go on with white space *)
Definition no_space (rest : str) : Prop :=
  match rest with
  | [] => True
  | c :: _ => is_space c = false
  end.

End DateFormat.


(** ** Reading the log *)

(** the rows the statements of [seg] added to table [t] *)
Definition inserted (t : string) (seg : list event) : list row :=
  flat_map (fun ev => match ev with
                      | EvInsert t' r => if String.eqb t' t then [r] else []
                      | _ => []
                      end) seg.

(** an event that adds no row *)
Definition inserted_none (ev : event) : Prop :=
  forall t, inserted t [ev] = [].

(** an event inside a transaction: not a commit, a rollback or a report *)
Definition inner (ev : event) : Prop :=
  match ev with
  | EvCommit | EvRollback | EvPrint _ _ => False
  | _ => True
  end.

(** From [w] to [w'] inside one transaction, with [seg] the events between. *)
Record step (w w' : world) (seg : list event) : Prop := mkStep {
  step_committed : committed w' = committed w;
  step_accepts : accepts w' = accepts w;
  step_log : log w' = log w ++ seg;
  step_current : forall t, current w' t = current w t ++ inserted t seg;
  step_inner : Forall inner seg
}.

(** [m] runs inside the transaction and leaves the input iterator alone. *)
Definition txn {A} (m : M A) : Prop :=
  forall w res w', m w = (res, w') ->
    data_iter w' = data_iter w /\ exists seg, step w w' seg.

(** [m] keeps the state property [I], also when it raises. *)
Definition preserves {A} (I : world -> Prop) (m : M A) : Prop :=
  forall w res w', I w -> m w = (res, w') -> I w'.


(** the block reports in a stretch of the log: block number and row count *)
Definition reports (l : list event) : list (nat * nat) :=
  flat_map (fun ev => match ev with EvPrint i n => [(i, n)] | _ => [] end) l.


(** the log of committed blocks: each block's events, its commit, its report *)
Fixpoint closed (i_block : nat) (blocks : list (list event * nat)) : list event :=
  match blocks with
  | [] => []
  | (seg, n_rows) :: rest =>
      seg ++ [EvCommit; EvPrint i_block n_rows] ++ closed (S i_block) rest
  end.

(** ** The outcomes of a search *)

Definition logged (seg : list event) (w : world) : world :=
  with_log (log w ++ seg) w.

Definition cached (k : kind) (c : list (params * value)) (w : world) : world :=
  with_caches (fun k' => if kind_eqb k' k then c else caches w k') w.

Definition stored (tbl : string) (r : row) (w : world) : world :=
  with_current (upd tbl (current w tbl ++ [r]) (current w)) w.

Definition bumped (tbl : string) (w : world) : world :=
  with_sequences (upd tbl (sequences w tbl + 1)%Z (sequences w)) w.

(** the row an insert with a generated key adds *)
Definition new_row (tbl pk : string) (cols : params) (w : world) : row :=
  (pk, VInt (sequences w tbl)) :: cols.

(** The four ways [db_searcher] ends. *)
Inductive searched (sp : searcher) (vals : params) (w : world)
  : result value -> world -> Prop :=
| searched_key_error :
    bind_placeholders (kw_cols sp) vals = None ->
    searched sp vals w (Raise KeyError) w
| searched_found conds r :
    bind_placeholders (kw_cols sp) vals = Some conds ->
    List.find (row_matches conds) (current w (table sp)) = Some r ->
    searched sp vals w (Ok (row_get (pk_col sp) r))
      (logged [EvSelect (table sp) conds] w)
| searched_inserted conds :
    bind_placeholders (kw_cols sp) vals = Some conds ->
    List.find (row_matches conds) (current w (table sp)) = None ->
    accepts w (table sp) (current w (table sp))
      (new_row (table sp) (pk_col sp) conds w) = true ->
    searched sp vals w (Ok (VInt (sequences w (table sp))))
      (logged [EvInsert (table sp) (new_row (table sp) (pk_col sp) conds w)]
         (stored (table sp) (new_row (table sp) (pk_col sp) conds w)
            (bumped (table sp) (logged [EvSelect (table sp) conds] w))))
| searched_rejected conds :
    bind_placeholders (kw_cols sp) vals = Some conds ->
    List.find (row_matches conds) (current w (table sp)) = None ->
    accepts w (table sp) (current w (table sp))
      (new_row (table sp) (pk_col sp) conds w) = false ->
    searched sp vals w (Raise DatabaseError)
      (logged [EvRejected (table sp) (new_row (table sp) (pk_col sp) conds w)]
         (bumped (table sp) (logged [EvSelect (table sp) conds] w))).

(** The ways a memoised searcher ends: a hit, a miss that is searched and
    stored, a miss whose search raises (nothing is stored then). *)
Inductive resolved (k : kind) (vals : params) (w : world)
  : result value -> world -> Prop :=
| resolved_hit v :
    cache_get vals (caches w k) = Some v ->
    resolved k vals w (Ok v)
      (logged [EvResolved k vals v]
         (cached k (cache_touch vals v (caches w k)) w))
| resolved_miss v w1 :
    cache_get vals (caches w k) = None ->
    searched (searcher_of k) vals w (Ok v) w1 ->
    resolved k vals w (Ok v)
      (logged [EvResolved k vals v]
         (cached k (cache_put (maxsize k) vals v (caches w1 k)) w1))
| resolved_raise e w1 :
    cache_get vals (caches w k) = None ->
    searched (searcher_of k) vals w (Raise e) w1 ->
    resolved k vals w (Raise e) w1.

(** every listed column of [r] holds the given value *)
Definition columns_equal (conds : params) (r : row) : Prop :=
  forall c v, In (c, v) conds -> row_get c r = v.

(** ** What holds during a run *)

(** the keys the importer passes to its searchers *)
Inductive well_keyed : kind -> params -> Prop :=
| wk_attack s e src : well_keyed Attack (attack_key s e src)
| wk_target n : well_keyed Target (name_key Target n)
| wk_place n : well_keyed Place (name_key Place n)
| wk_missile n : well_keyed Missile (name_key Missile n).

(** what a search for the key finds in the tables [db] *)
Definition lookup_pk (k : kind) (vals : params) (db : database) : option value :=
  match bind_placeholders (kw_cols (searcher_of k)) vals with
  | Some conds =>
      option_map (row_get (pk_col (searcher_of k)))
        (List.find (row_matches conds) (db (table (searcher_of k))))
  | None => None
  end.

(** the insert of a row with the key [vals] into the table of kind [k] *)
Definition inserts_key (k : kind) (vals : params) (ev : event) : bool :=
  match ev, bind_placeholders (kw_cols (searcher_of k)) vals with
  | EvInsert t r, Some conds =>
      String.eqb t (table (searcher_of k)) && row_matches conds r
  | _, _ => false
  end.

(** how many rows with the key the events inserted *)
Definition inserts_for (k : kind) (vals : params) (l : list event) : nat :=
  length (filter (inserts_key k vals) l).

(** no cache is over its capacity *)
Definition sizes_ok (w : world) : Prop :=
  forall k, length (caches w k) <= maxsize k.

(** every table of [db'] is the table of [db] with rows added *)
Definition grows (db db' : database) : Prop :=
  forall t, exists added, db' t = db t ++ added.

(** The caches and the log agree with the tables the connection sees: a
    cached or returned key is the one a search finds now, an inserted row
    is there, and no key was inserted twice. *)
Record run_inv (w : world) : Prop := mkRunInv {
  inv_cache : forall k vals v,
    In (vals, v) (caches w k) ->
    well_keyed k vals /\ lookup_pk k vals (current w) = Some v;
  inv_resolved : forall k vals v,
    In (EvResolved k vals v) (log w) ->
    well_keyed k vals /\ lookup_pk k vals (current w) = Some v;
  inv_inserted : forall tbl r,
    In (EvInsert tbl r) (log w) -> In r (current w tbl);
  inv_once : forall k vals,
    well_keyed k vals -> inserts_for k vals (log w) <= 1
}.

(** What the log alone shows of it. *)
Definition consistent_log (l : list event) : Prop :=
  (forall k vals v1 v2,
     In (EvResolved k vals v1) l -> In (EvResolved k vals v2) l -> v1 = v2) /\
  (forall k vals v, In (EvResolved k vals v) l -> well_keyed k vals) /\
  (forall k vals, well_keyed k vals -> inserts_for k vals l <= 1).

(** a table that no searcher reads *)
Definition fact_table (tbl : string) : Prop :=
  forall k, table (searcher_of k) <> tbl.

(** ** The multi-valued fields of a record *)

Inductive multi := MPlaces | MTargets | MMissiles.

Definition multi_kind (f : multi) : kind :=
  match f with MPlaces => Place | MTargets => Target | MMissiles => Missile end.

Definition multi_field (f : multi) (r : record) : str :=
  match f with
  | MPlaces => launch_place r
  | MTargets => target r
  | MMissiles => model r
  end.

Definition multi_table (f : multi) : string :=
  match f with
  | MPlaces => "group_launch_places"
  | MTargets => "group_targets"
  | MMissiles => "group_missiles"
  end.

Definition multi_id (f : multi) : string :=
  match f with
  | MPlaces => "place_id"
  | MTargets => "target_id"
  | MMissiles => "missile_id"
  end.

(** the association row of group [gid] with the entity [id] *)
Definition assoc_row (f : multi) (gid id : value) : row :=
  [("group_id"%string, gid); (multi_id f, id)].

(** one of the three [for name in field.split(' and ')] loops *)
Definition assoc_loop (f : multi) (gid : value) (names : list str) : M unit :=
  for_each names (fun name =>
    bind (resolve (multi_kind f) (name_key (multi_kind f) name)) (fun id =>
    insert (multi_table f) (assoc_row f gid id))).

(** the names of the field resolve, in the tables [db], to the keys [ids] *)
Definition names_resolved (f : multi) (db : database) (names : list str)
    (ids : list value) : Prop :=
  Forall2 (fun name id =>
             lookup_pk (multi_kind f) (name_key (multi_kind f) name) db = Some id)
          names ids.

(** ** The order of the operations *)

(** The operations of the importer that the log shows: a period resolved,
    a fact-group row inserted, a name resolved, an association row
    inserted.  The statements a searcher sends to its own table belong to
    the resolution and are not operations of their own. *)
Inductive op :=
| OpPeriod (key : params)
| OpGroup (units_launched units_destroyed : value)
| OpName (k : kind) (key : params)
| OpAssoc (tbl : string).

Definition is_assoc_table (t : string) : bool :=
  existsb (String.eqb t) ["group_launch_places"; "group_targets"; "group_missiles"]%string.

Definition resolve_op (k : kind) (vals : params) : op :=
  match k with
  | Attack => OpPeriod vals
  | _ => OpName k vals
  end.

Definition op_of (ev : event) : list op :=
  match ev with
  | EvResolved k vals _ => [resolve_op k vals]
  | EvInsert t r =>
      if String.eqb t "attack_groups"
      then [OpGroup (row_get "units_launched" r) (row_get "units_destroyed" r)]
      else if is_assoc_table t then [OpAssoc t] else []
  | _ => []
  end.

Definition ops (l : list event) : list op := flat_map op_of l.

(** the operations for the names of one field: resolve, then associate *)
Definition names_ops (f : multi) (names : list str) : list op :=
  flat_map (fun name => [OpName (multi_kind f) (name_key (multi_kind f) name);
                         OpAssoc (multi_table f)]) names.

(** the operations for one record, in their order *)
Definition record_ops (prefix : str) (r : record) : list op :=
  match get_datetime (time_start r), get_datetime (time_end r) with
  | Ok s, Ok e =>
      OpPeriod (attack_key s e (prefix ++ source r)) ::
      OpGroup (VText (launched r)) (VText (destroyed r)) ::
      names_ops MPlaces (PyStr.split (launch_place r) sep_and) ++
      names_ops MTargets (PyStr.split (target r) sep_and) ++
      names_ops MMissiles (PyStr.split (model r) sep_and)
  | _, _ => []
  end.

Definition prefix_of {A} (a b : list A) : Prop := exists c, b = a ++ c.

(** what was done is what was to be done, or the start of it when the
    computation raised *)
Definition traced {A} (res : result A) (done todo : list op) : Prop :=
  match res with
  | Ok _ => done = todo
  | Raise _ => prefix_of done todo
  end.

(** Every association row carries the key of the fact-group row inserted
    last before it ([cur], when none was inserted in [l] yet). *)
Fixpoint linked (cur : option value) (l : list event) : Prop :=
  match l with
  | [] => True
  | EvInsert t r :: l' =>
      if String.eqb t "attack_groups"
      then linked (Some (row_get "group_id" r)) l'
      else if is_assoc_table t
           then cur = Some (row_get "group_id" r) /\ linked cur l'
           else linked cur l'
  | _ :: l' => linked cur l'
  end.

(** the key of the fact-group row inserted last *)
Fixpoint group_after (cur : option value) (l : list event) : option value :=
  match l with
  | [] => cur
  | EvInsert t r :: l' =>
      if String.eqb t "attack_groups"
      then group_after (Some (row_get "group_id" r)) l'
      else group_after cur l'
  | _ :: l' => group_after cur l'
  end.

Definition always_linked (l : list event) : Prop := forall cur, linked cur l.

(** [m] does the operations [todo] and inserts no fact-group row; its
    association rows carry the key [cur]. *)
Definition quiet {A} (cur : option value) (m : M A) (todo : list op) : Prop :=
  forall w res w', m w = (res, w') ->
    exists seg,
      log w' = log w ++ seg /\ traced res (ops seg) todo /\
      linked cur seg /\ group_after cur seg = cur.

(** ** The caches and the history of the calls *)

(** the returns of the memoised searcher of kind [k], oldest first *)
Definition calls (k : kind) (l : list event) : list (params * value) :=
  flat_map (fun ev => match ev with
                      | EvResolved k' vals v =>
                          if kind_eqb k' k then [(vals, v)] else []
                      | _ => []
                      end) l.

(** The keys of a history (newest first) by their last use, the most
    recently used first, each once. *)
Fixpoint by_last_use (h : list (params * value)) : list (params * value) :=
  match h with
  | [] => []
  | (key, v) :: h' => (key, v) :: cache_remove key (by_last_use h')
  end.

(** Each cache holds the most recently used keys of its searcher, as many
    as its capacity allows, the most recently used first. *)
Definition lru_inv (w : world) : Prop :=
  forall k, caches w k = firstn (maxsize k) (by_last_use (rev (calls k (log w)))).

(** ** Further readings of a run *)

(** both period boundaries of the record are texts [get_datetime] takes *)
Definition parses (r : record) : bool :=
  match get_datetime (time_start r), get_datetime (time_end r) with
  | Ok _, Ok _ => true
  | _, _ => false
  end.

(** the storage layer of [w] refuses some row in some state of a table *)
Definition refuses (w : world) : Prop :=
  exists tbl rows r, accepts w tbl rows r = false.

(** the records one after the other, with no block structure around them *)
Definition process_all (src_url_prefix : str) (rows : list record) : M unit :=
  for_each rows (process_row src_url_prefix).

(** The two states agree on all that a statement or a searcher reads: the
    tables the connection sees, the checks of the storage layer, the
    sequences and the caches. *)
Definition same_db (w1 w2 : world) : Prop :=
  current w1 = current w2 /\ accepts w1 = accepts w2 /\
  sequences w1 = sequences w2 /\ caches w1 = caches w2.

(** [m] reads nothing else: from states that agree it gives the same
    result and states that agree. *)
Definition respects {A} (m : M A) : Prop :=
  forall w1 w2, same_db w1 w2 ->
    fst (m w1) = fst (m w2) /\ same_db (snd (m w1)) (snd (m w2)).

(** the counts a fact-group row holds *)
Definition group_units (r : row) : value * value :=
  (row_get "units_launched" r, row_get "units_destroyed" r).

(** the counts a record gives *)
Definition record_units (r : record) : value * value :=
  (VText (launched r), VText (destroyed r)).

(** the fact-group rows among operations *)
Definition groups (l : list op) : list (value * value) :=
  flat_map (fun o => match o with
                     | OpGroup a b => [(a, b)]
                     | _ => []
                     end) l.

(** how many association rows of the table [t] among operations *)
Definition assocs (t : string) (l : list op) : nat :=
  length (filter (fun o => match o with
                           | OpAssoc t' => String.eqb t' t
                           | _ => false
                           end) l).

(** the names a record gives in one of its multi-valued fields *)
Definition names_of (f : multi) (r : record) : list str :=
  PyStr.split (multi_field f r) sep_and.

(** how many names the records give in the field *)
Definition names_count (f : multi) (rows : list record) : nat :=
  list_sum (map (fun r => length (names_of f r)) rows).

(** the rows reported by the block reports of a stretch of the log *)
Definition reported (l : list event) : nat := list_sum (map snd (reports l)).

(** how many rows of the table of kind [k] carry the key [vals] *)
Definition key_count (k : kind) (vals : params) (db : database) : nat :=
  length (filter (row_matches vals) (db (table (searcher_of k)))).

(** no key of the importer is carried by two rows of its table *)
Definition keys_unique (db : database) : Prop :=
  forall k vals, well_keyed k vals -> key_count k vals db <= 1.

(** the key was passed for one of the records: the period of the record
    with the prefix before its source, or one of the names of a field *)
Definition key_of_record (prefix : str) (k : kind) (vals : params) (r : record)
  : Prop :=
  match k with
  | Attack =>
      exists s e,
        get_datetime (time_start r) = Ok s /\ get_datetime (time_end r) = Ok e /\
        vals = attack_key s e (prefix ++ source r)
  | Place => exists n, In n (names_of MPlaces r) /\ vals = name_key Place n
  | Target => exists n, In n (names_of MTargets r) /\ vals = name_key Target n
  | Missile => exists n, In n (names_of MMissiles r) /\ vals = name_key Missile n
  end.

(** no key is carried by two rows, in the tables of the transaction and
    in the committed ones *)
Definition unique_inv (w : world) : Prop :=
  keys_unique (current w) /\ keys_unique (committed w).

(** every key passed for one of the records is carried by a row of [db] *)
Definition present (prefix : str) (rows : list record) (db : database) : Prop :=
  forall r k vals,
    In r rows -> key_of_record prefix k vals r ->
    exists v, lookup_pk k vals db = Some v.

(** the tables the searchers read are the same in [db] and [db'] *)
Definition lookup_tables_same (db db' : database) : Prop :=
  forall k, db' (table (searcher_of k)) = db (table (searcher_of k)).

(** some row of the table [tbl] has the value [v] in its column [col] *)
Definition has_key (db : database) (tbl col : string) (v : value) : Prop :=
  exists r, In r (db tbl) /\ row_get col r = v.

(** the period a fact-group row refers to is a row of [attacks] *)
Definition group_row_linked (db : database) (g : row) : Prop :=
  has_key db "attacks" "attack_id" (row_get "attack_id" g).

(** the group and the entity an association row refers to are rows of
    the fact-group table and of the table of the entity *)
Definition assoc_row_linked (f : multi) (db : database) (a : row) : Prop :=
  has_key db "attack_groups" "group_id" (row_get "group_id" a) /\
  has_key db (table (searcher_of (multi_kind f)))
    (pk_col (searcher_of (multi_kind f))) (row_get (multi_id f) a).

(** the state a run over [rows] with the prefix ["fb/"] leaves *)
Definition world_after (rows : list record) (block_size : Z) (w : world) : world :=
  match import_dataset rows block_size (txt "fb/") w with
  | Some (_, w') => w'
  | None => w
  end.



(** * Proofs *)

(** ** The two parsers on the examples of the specification *)

Example get_datetime_date :
  get_datetime (txt "2022-03-01") = Ok (mkDatetime 2022 3 1 0 0).
Proof. reflexivity. Qed.

Example get_datetime_datetime :
  get_datetime (txt "2022-03-01 14:30") = Ok (mkDatetime 2022 3 1 14 30).
Proof. reflexivity. Qed.

Example get_datetime_bad_day :
  get_datetime (txt "2022-02-30") = Raise ValueError.
Proof. reflexivity. Qed.

Example split_example :
  PyStr.split (txt "Crimea and Kherson Oblast") (txt " and ")
  = [txt "Crimea"; txt "Kherson Oblast"].
Proof. reflexivity. Qed.

(** ** [get_datetime] *)

Module DateProofs.
Import Strptime DateFormat.

Lemma in_range_true lo hi c :
  in_range lo hi c = true <-> code lo <= code c /\ code c <= code hi.
Proof.
  unfold in_range. rewrite andb_true_iff, !Nat.leb_le. tauto.
Qed.

Lemma in_range_false lo hi c :
  in_range lo hi c = false <-> code c < code lo \/ code hi < code c.
Proof.
  unfold in_range. rewrite andb_false_iff, !Nat.leb_gt. tauto.
Qed.

Lemma code_inj a b : code a = code b -> a = b.
Proof.
  unfold code. intros H.
  rewrite <- (ascii_nat_embedding a), <- (ascii_nat_embedding b).
  now rewrite H.
Qed.

Ltac consts :=
  try change (code "0"%char) with 48 in *;
  try change (code "1"%char) with 49 in *;
  try change (code "2"%char) with 50 in *;
  try change (code "3"%char) with 51 in *;
  try change (code "5"%char) with 53 in *;
  try change (code "9"%char) with 57 in *;
  try change (code " "%char) with 32 in *;
  try change (code "-"%char) with 45 in *;
  try change (code ":"%char) with 58 in *.

Ltac codes :=
  unfold digit in *;
  repeat match goal with
    | H : in_range _ _ _ = true |- _ => apply in_range_true in H
    | H : in_range _ _ _ = false |- _ => apply in_range_false in H
    | H : Ascii.eqb _ _ = true |- _ => apply Ascii.eqb_eq in H; subst
    | H : Ascii.eqb ?a ?b = false |- _ =>
        apply Ascii.eqb_neq in H;
        assert (code a <> code b) by (intro; apply H; now apply code_inj);
        clear H
    end;
  try apply in_range_true; try apply in_range_false;
  unfold digit_val in *; consts; lia.

(** *** What a matcher returns is a split of its input *)

Lemma p_bind_in {A B} (p : parser A) (f : A -> parser B) s b r :
  In (b, r) (p_bind p f s) <->
  exists a r1, In (a, r1) (p s) /\ In (b, r) (f a r1).
Proof.
  unfold p_bind. rewrite in_flat_map. split.
  - intros [[a r1] [H1 H2]]. eauto.
  - intros (a & r1 & H1 & H2). exists (a, r1). auto.
Qed.

Lemma p_alt_in {A} (p q : parser A) s x :
  In x (p_alt p q s) <-> In x (p s) \/ In x (q s).
Proof. unfold p_alt. apply in_app_iff. Qed.

Lemma p_ret_in {A} (a : A) s x r : In (x, r) (p_ret a s) <-> x = a /\ r = s.
Proof.
  unfold p_ret. simpl. split.
  - intros [H | []]. inversion H. auto.
  - intros [-> ->]. auto.
Qed.

Lemma p_class_in lo hi s v r :
  In (v, r) (p_class lo hi s) <->
  exists c, s = c :: r /\ in_range lo hi c = true /\ v = digit_val c.
Proof.
  unfold p_class. destruct s as [|c s'].
  - simpl. split; [tauto | intros (c & H & _); discriminate].
  - destruct (in_range lo hi c) eqn:E; simpl.
    + split.
      * intros [H | []]. inversion H; subst. eauto.
      * intros (c' & H & _ & ->). inversion H; subst. auto.
    + split; [tauto |].
      intros (c' & H & H' & _). inversion H; subst. congruence.
Qed.

Lemma p_lit_in l s u r :
  In (u, r) (p_lit l s) <-> s = l :: r.
Proof.
  unfold p_lit. destruct s as [|c s'].
  - simpl. split; [tauto | discriminate].
  - destruct (Ascii.eqb c l) eqn:E; simpl.
    + apply Ascii.eqb_eq in E. subst. split.
      * intros [H | []]. inversion H; subst. reflexivity.
      * intros H. inversion H; subst. destruct u. auto.
    + apply Ascii.eqb_neq in E. split; [tauto |].
      intros H. inversion H; subst. congruence.
Qed.

Lemma p_two_in lo1 hi1 lo2 hi2 s v r :
  In (v, r) (p_two lo1 hi1 lo2 hi2 s) <->
  exists a b, s = a :: b :: r /\ in_range lo1 hi1 a = true /\
              in_range lo2 hi2 b = true /\ v = 10 * digit_val a + digit_val b.
Proof.
  unfold p_two. rewrite p_bind_in. split.
  - intros (x & r1 & H1 & H2).
    apply p_class_in in H1. destruct H1 as (a & -> & Ha & ->).
    apply p_bind_in in H2. destruct H2 as (y & r2 & H2 & H3).
    apply p_class_in in H2. destruct H2 as (b & -> & Hb & ->).
    apply p_ret_in in H3. destruct H3 as [-> ->]. eauto 8.
  - intros (a & b & -> & Ha & Hb & ->).
    exists (digit_val a), (b :: r). split.
    + apply p_class_in. eauto.
    + apply p_bind_in. exists (digit_val b), r. split.
      * apply p_class_in. eauto.
      * apply p_ret_in. auto.
Qed.

Ltac two_digits H :=
  apply p_two_in in H;
  let a := fresh "a" in let b := fresh "b" in
  destruct H as (a & b & -> & ? & ? & ->);
  exists [a; b]; split; [reflexivity | apply field_two; codes].

Ltac one_digit H :=
  apply p_class_in in H;
  let a := fresh "a" in
  destruct H as (a & -> & ? & ->);
  exists [a]; split; [reflexivity | apply field_one; codes].

Lemma p_m_sound s v r :
  In (v, r) (p_m s) -> exists t, s = t ++ r /\ field_text 1 12 false t v.
Proof.
  unfold p_m. rewrite !p_alt_in. intros [H | [H | H]].
  - two_digits H.
  - two_digits H.
  - one_digit H.
Qed.

Lemma p_d_sound s v r :
  In (v, r) (p_d s) -> exists t, s = t ++ r /\ field_text 1 31 true t v.
Proof.
  unfold p_d. rewrite !p_alt_in. intros [H | [H | [H | [H | H]]]].
  - two_digits H.
  - two_digits H.
  - two_digits H.
  - one_digit H.
  - apply p_bind_in in H. destruct H as (u & r1 & H1 & H2).
    apply p_lit_in in H1. subst s.
    apply p_class_in in H2. destruct H2 as (a & -> & ? & ->).
    exists [" "%char; a]. split; [reflexivity |].
    apply field_blank; [reflexivity | codes | codes].
Qed.

Lemma p_H_sound s v r :
  In (v, r) (p_H s) -> exists t, s = t ++ r /\ field_text 0 23 false t v.
Proof.
  unfold p_H. rewrite !p_alt_in. intros [H | [H | H]].
  - two_digits H.
  - two_digits H.
  - one_digit H.
Qed.

Lemma p_M_sound s v r :
  In (v, r) (p_M s) -> exists t, s = t ++ r /\ field_text 0 59 false t v.
Proof.
  unfold p_M. rewrite !p_alt_in. intros [H | H].
  - two_digits H.
  - one_digit H.
Qed.

Lemma p_Y_sound s v r :
  In (v, r) (p_Y s) -> exists t, s = t ++ r /\ year_text t v.
Proof.
  unfold p_Y. intros H.
  repeat (apply p_bind_in in H;
          let x := fresh "x" in let r1 := fresh "r" in
          let H1 := fresh "H" in
          destruct H as (x & r1 & H1 & H);
          apply p_class_in in H1; destruct H1 as (? & -> & ? & ->)).
  apply p_ret_in in H. destruct H as [-> ->].
  eexists [_; _; _; _]. split; [reflexivity |].
  now apply year_digits.
Qed.

Lemma p_spaces_star_sound s u r :
  In (u, r) (p_spaces_star s) ->
  exists ws, s = ws ++ r /\ Forall (fun c => is_space c = true) ws.
Proof.
  induction s as [|c s IH]; simpl.
  - intros [H | []]. inversion H; subst. exists []. auto.
  - destruct (is_space c) eqn:E.
    + rewrite in_app_iff. intros [H | [H | []]].
      * destruct (IH H) as (ws & -> & Hws). exists (c :: ws). auto.
      * inversion H; subst. exists []. auto.
    + intros [H | []]. inversion H; subst. exists []. auto.
Qed.

Lemma p_spaces_plus_sound s u r :
  In (u, r) (p_spaces_plus s) -> exists ws, s = ws ++ r /\ white ws.
Proof.
  unfold p_spaces_plus. destruct s as [|c s]; [intros [] |].
  destruct (is_space c) eqn:E; [| intros []].
  intros H. apply p_spaces_star_sound in H.
  destruct H as (ws & -> & Hws). exists (c :: ws).
  split; [reflexivity |]. split; [discriminate | auto].
Qed.

Lemma p_date_sound s y m d r :
  In ((y, m, d), r) (p_date s) -> exists t, s = t ++ r /\ date_text t y m d.
Proof.
  unfold p_date. intros H.
  apply p_bind_in in H. destruct H as (y' & r1 & HY & H).
  apply p_bind_in in H. destruct H as (u1 & r2 & HL1 & H).
  apply p_bind_in in H. destruct H as (m' & r3 & Hm & H).
  apply p_bind_in in H. destruct H as (u2 & r4 & HL2 & H).
  apply p_bind_in in H. destruct H as (d' & r5 & Hd & H).
  apply p_ret_in in H. destruct H as [E ->]. inversion E; subst y' m' d'.
  apply p_Y_sound in HY. destruct HY as (ty & -> & HY).
  apply p_lit_in in HL1. subst r1.
  apply p_m_sound in Hm. destruct Hm as (tm & -> & Hm).
  apply p_lit_in in HL2. subst r3.
  apply p_d_sound in Hd. destruct Hd as (td & -> & Hd).
  exists (ty ++ "-"%char :: tm ++ "-"%char :: td). split.
  - rewrite <- !app_assoc. simpl. rewrite <- !app_assoc. reflexivity.
  - exists ty, tm, td. auto.
Qed.

Lemma p_datetime_sound s y m d h mi r :
  In ((y, m, d, h, mi), r) (p_datetime s) ->
  exists t, s = t ++ r /\ datetime_text t y m d h mi.
Proof.
  unfold p_datetime. intros H.
  apply p_bind_in in H. destruct H as ([[y' m'] d'] & r1 & HD & H).
  apply p_bind_in in H. destruct H as (u1 & r2 & HS & H).
  apply p_bind_in in H. destruct H as (h' & r3 & HH & H).
  apply p_bind_in in H. destruct H as (u2 & r4 & HL & H).
  apply p_bind_in in H. destruct H as (mi' & r5 & HM & H).
  apply p_ret_in in H. destruct H as [E ->]. inversion E; subst.
  apply p_date_sound in HD. destruct HD as (sd & -> & HD).
  apply p_spaces_plus_sound in HS. destruct HS as (ws & -> & HS).
  apply p_H_sound in HH. destruct HH as (th & -> & HH).
  apply p_lit_in in HL. subst r3.
  apply p_M_sound in HM. destruct HM as (tmi & -> & HM).
  exists (sd ++ ws ++ th ++ ":"%char :: tmi). split.
  - rewrite <- !app_assoc. simpl. reflexivity.
  - exists sd, ws, th, tmi. auto.
Qed.


(** *** The first match of a well-formed text is the whole text *)

Lemma heads_bind {A B} (p : parser A) (f : A -> parser B) s a r x :
  heads (a, r) (p s) -> heads x (f a r) -> heads x (p_bind p f s).
Proof.
  intros [tl H] [tl' H']. unfold p_bind. rewrite H. simpl. rewrite H'.
  simpl. eexists. reflexivity.
Qed.

Lemma heads_app {A} (x : A) l l' : heads x l -> heads x (l ++ l').
Proof. intros [tl ->]. simpl. eexists. reflexivity. Qed.

Lemma heads_hd_error {A} (x : A) l : heads x l -> hd_error l = Some x.
Proof. intros [tl ->]. reflexivity. Qed.

Lemma heads_lit c r : heads (tt, r) (p_lit c (c :: r)).
Proof.
  unfold p_lit. rewrite Ascii.eqb_refl. eexists. reflexivity.
Qed.

Ltac head_cases :=
  unfold p_m, p_d, p_H, p_M, p_alt, p_two, p_bind, p_class, p_lit, p_ret;
  cbn [flat_map app fst snd];
  repeat (match goal with
    | |- context [in_range ?l ?h ?c] => destruct (in_range l h c) eqn:?
    | |- context [Ascii.eqb ?a ?b] => destruct (Ascii.eqb a b) eqn:?
    end; cbn [flat_map app fst snd]);
  first [ solve [eexists; reflexivity] | exfalso; codes ].

Ltac field_head :=
  let H := fresh "H" in
  intros H ?; inversion H; subst; try discriminate;
  cbn [app];
  match goal with
  | |- heads _ (_ (_ :: _ :: ?rest)) => head_cases
  | |- heads _ (_ (_ :: ?rest)) =>
      destruct rest; cbn [no_digit] in *; head_cases
  end.

Lemma p_m_head t v rest :
  field_text 1 12 false t v -> no_digit rest -> heads (v, rest) (p_m (t ++ rest)).
Proof. field_head. Qed.

Lemma p_d_head t v rest :
  field_text 1 31 true t v -> no_digit rest -> heads (v, rest) (p_d (t ++ rest)).
Proof. field_head. Qed.

Lemma p_H_head t v rest :
  field_text 0 23 false t v -> no_digit rest -> heads (v, rest) (p_H (t ++ rest)).
Proof. field_head. Qed.

Lemma p_M_head t v rest :
  field_text 0 59 false t v -> no_digit rest -> heads (v, rest) (p_M (t ++ rest)).
Proof. field_head. Qed.

Lemma p_Y_head t v rest :
  year_text t v -> heads (v, rest) (p_Y (t ++ rest)).
Proof.
  intros H. inversion H; subst. unfold digit in *.
  unfold p_Y, p_bind, p_class, p_ret. cbn [app flat_map fst snd].
  repeat match goal with
    | E : in_range _ _ _ = true |- _ =>
        rewrite E; clear E; cbn [app flat_map fst snd]
    end.
  eexists. reflexivity.
Qed.

Lemma digit_not_space c : digit c -> is_space c = false.
Proof.
  intros H. destruct (is_space c) eqn:E; [exfalso | reflexivity].
  unfold is_space in E. cbn [existsb] in E.
  rewrite !orb_true_iff, !Nat.eqb_eq in E. codes.
Qed.

Lemma space_not_digit c : is_space c = true -> in_range "0" "9" c = false.
Proof.
  intros E. destruct (in_range "0" "9" c) eqn:H; [exfalso | reflexivity].
  unfold is_space in E. cbn [existsb] in E.
  rewrite !orb_true_iff, !Nat.eqb_eq in E. codes.
Qed.

Lemma p_spaces_star_head ws rest :
  Forall (fun c => is_space c = true) ws -> no_space rest ->
  heads (tt, rest) (p_spaces_star (ws ++ rest)).
Proof.
  intros Hws Hrest. induction Hws as [|c ws Hc _ IH]; cbn [app].
  - destruct rest as [|c r]; simpl in *.
    + eexists. reflexivity.
    + rewrite Hrest. eexists. reflexivity.
  - simpl. rewrite Hc. now apply heads_app.
Qed.

Lemma p_spaces_plus_head ws rest :
  white ws -> no_space rest ->
  heads (tt, rest) (p_spaces_plus (ws ++ rest)).
Proof.
  intros [Hne Hws] Hrest. destruct ws as [|c ws]; [congruence |].
  inversion Hws; subst. cbn [app]. unfold p_spaces_plus.
  rewrite H1. now apply p_spaces_star_head.
Qed.

Lemma p_date_head sd y m d rest :
  date_text sd y m d -> no_digit rest ->
  heads ((y, m, d), rest) (p_date (sd ++ rest)).
Proof.
  intros (ty & tm & td & -> & Hy & Hm & Hd) Hrest.
  replace ((ty ++ "-"%char :: tm ++ "-"%char :: td) ++ rest)
    with (ty ++ "-"%char :: (tm ++ "-"%char :: (td ++ rest)))
    by (rewrite <- !app_assoc; simpl; rewrite <- !app_assoc; reflexivity).
  unfold p_date.
  eapply heads_bind; [apply p_Y_head, Hy |].
  eapply heads_bind; [apply heads_lit |].
  eapply heads_bind; [apply p_m_head; [apply Hm | reflexivity] |].
  eapply heads_bind; [apply heads_lit |].
  eapply heads_bind; [apply p_d_head; [apply Hd | apply Hrest] |].
  eexists. reflexivity.
Qed.

Lemma field_text_starts_digit lo hi t v rest :
  field_text lo hi false t v -> no_space (t ++ rest).
Proof.
  intros H. inversion H; subst; try discriminate; cbn;
    now apply digit_not_space.
Qed.

Lemma white_no_digit ws rest : white ws -> no_digit (ws ++ rest).
Proof.
  intros [Hne Hws]. destruct ws as [|c ws]; [congruence |].
  inversion Hws; subst. cbn. now apply space_not_digit.
Qed.

Lemma p_datetime_head s y m d h mi :
  datetime_text s y m d h mi ->
  heads ((y, m, d, h, mi), ([] : str)) (p_datetime s).
Proof.
  intros (sd & ws & th & tmi & -> & Hd & Hws & Hh & Hmi).
  unfold p_datetime.
  eapply heads_bind; [apply p_date_head; [apply Hd | now apply white_no_digit] |].
  eapply heads_bind.
  { apply p_spaces_plus_head; [apply Hws |].
    eapply field_text_starts_digit, Hh. }
  eapply heads_bind; [apply p_H_head; [apply Hh | reflexivity] |].
  eapply heads_bind; [apply heads_lit |].
  eapply heads_bind.
  { rewrite <- (app_nil_r tmi). apply p_M_head; [apply Hmi | exact I]. }
  eexists. reflexivity.
Qed.

Lemma strptime_date_iff s dt :
  strptime_date s = Some dt <->
  date_text s (year dt) (month dt) (day dt) /\
  valid_date (year dt) (month dt) (day dt) = true /\
  hour dt = 0 /\ minute dt = 0.
Proof.
  unfold strptime_date, re_match. split.
  - destruct (p_date s) as [|[[[y m] d] r] tl] eqn:E; [discriminate |].
    cbn [hd_error]. destruct r; [| discriminate].
    destruct (valid_date y m d) eqn:V; [| discriminate].
    intros H. inversion H; subst; cbn.
    assert (Hin : In ((y, m, d), []) (p_date s)) by (rewrite E; now left).
    apply p_date_sound in Hin. destruct Hin as (t & -> & Ht).
    rewrite app_nil_r. auto.
  - intros (Ht & V & Hh & Hmi).
    pose proof (p_date_head s _ _ _ [] Ht I) as Hhd.
    rewrite app_nil_r in Hhd. rewrite (heads_hd_error _ _ Hhd), V.
    destruct dt; cbn in *; subst; reflexivity.
Qed.

Lemma strptime_datetime_iff s dt :
  strptime_datetime s = Some dt <->
  datetime_text s (year dt) (month dt) (day dt) (hour dt) (minute dt) /\
  valid_date (year dt) (month dt) (day dt) = true.
Proof.
  unfold strptime_datetime, re_match. split.
  - destruct (p_datetime s) as [|[[[[[y m] d] h] mi] r] tl] eqn:E;
      [discriminate |].
    cbn [hd_error]. destruct r; [| discriminate].
    destruct (valid_date y m d) eqn:V; [| discriminate].
    intros H. inversion H; subst; cbn.
    assert (Hin : In ((y, m, d, h, mi), []) (p_datetime s))
      by (rewrite E; now left).
    apply p_datetime_sound in Hin. destruct Hin as (t & -> & Ht).
    rewrite app_nil_r. auto.
  - intros (Ht & V).
    pose proof (heads_hd_error _ _ (p_datetime_head _ _ _ _ _ _ Ht)) as Hhd.
    rewrite Hhd, V.
    destruct dt; reflexivity.
Qed.

Lemma get_datetime_iff s dt : get_datetime s = Ok dt <-> accepted s dt.
Proof.
  unfold get_datetime, accepted.
  destruct (PyStr.contains ":" s).
  - destruct (strptime_datetime s) as [dt'|] eqn:E.
    + split.
      * intros H. inversion H; subst. right.
        apply strptime_datetime_iff in E. tauto.
      * intros [(C & _) | (_ & H)]; [discriminate |].
        apply strptime_datetime_iff in H. congruence.
    + split; [discriminate |].
      intros [(C & _) | (_ & H)]; [discriminate |].
      apply strptime_datetime_iff in H. congruence.
  - destruct (strptime_date s) as [dt'|] eqn:E.
    + split.
      * intros H. inversion H; subst. left.
        apply strptime_date_iff in E. tauto.
      * intros [(_ & H) | (C & _)]; [| discriminate].
        apply strptime_date_iff in H. congruence.
    + split; [discriminate |].
      intros [(_ & H) | (C & _)]; [| discriminate].
      apply strptime_date_iff in H. congruence.
Qed.

End DateProofs.

(** ** [str.split] *)

Module SplitProofs.
Import PyStr.

Lemma starts_with_iff p s : starts_with p s = true <-> exists r, s = p ++ r.
Proof.
  revert s. induction p as [|a p IH]; intros s; simpl.
  - split; eauto.
  - destruct s as [|b s].
    + split; [discriminate | intros [r H]; discriminate].
    + rewrite andb_true_iff, Ascii.eqb_eq, IH. split.
      * intros [-> [r ->]]. eauto.
      * intros [r H]. inversion H; subst. eauto.
Qed.

Lemma find_none sep s : find sep s = None <-> ~ occurs sep s.
Proof.
  unfold occurs. induction s as [|c s IH].
  - simpl. destruct (starts_with sep []) eqn:E.
    + split; [discriminate |]. intros H. exfalso. apply H.
      apply starts_with_iff in E. destruct E as [r E]. exists [], r. exact E.
    + split; [| reflexivity]. intros _ (pre & post & H).
      destruct pre; [| discriminate]. simpl in H.
      assert (starts_with sep [] = true) by (apply starts_with_iff; eauto).
      congruence.
  - cbn [find]. destruct (starts_with sep (c :: s)) eqn:E.
    + split; [discriminate |]. intros H. exfalso. apply H.
      apply starts_with_iff in E. destruct E as [r E]. exists [], r. exact E.
    + destruct (find sep s) as [j|] eqn:F; simpl.
      * split; [discriminate |]. intros H. exfalso.
        assert (G : ~ ~ exists pre post, s = pre ++ sep ++ post).
        { intros G. apply IH in G. discriminate. }
        apply G. intros (pre & post & ->). apply H.
        exists (c :: pre), post. reflexivity.
      * split; [| reflexivity]. intros _ (pre & post & H).
        destruct pre as [|c' pre].
        -- assert (starts_with sep (c :: s) = true)
             by (apply starts_with_iff; eauto).
           congruence.
        -- inversion H; subst. destruct IH as [IH _].
           apply (IH eq_refl). eauto.
Qed.

(** [find] gives the place of an occurrence. *)
Lemma find_some sep s j :
  find sep s = Some j ->
  s = firstn j s ++ sep ++ skipn (j + length sep) s /\ j + length sep <= length s.
Proof.
  revert j. induction s as [|c s IH]; intros j; cbn [find].
  - destruct (starts_with sep []) eqn:E; [| discriminate].
    intros H. inversion H; subst.
    apply starts_with_iff in E. destruct E as [r E].
    destruct sep; [| discriminate]. simpl. auto.
  - destruct (starts_with sep (c :: s)) eqn:E.
    + intros H. inversion H; subst.
      apply starts_with_iff in E. destruct E as [r E].
      rewrite E at 1. cbn [firstn app plus]. rewrite E.
      rewrite skipn_app, skipn_all, Nat.sub_diag, length_app. simpl.
      split; [reflexivity | lia].
    + destruct (find sep s) as [j'|] eqn:F; [| discriminate].
      simpl. intros H. inversion H; subst.
      destruct (IH _ eq_refl) as [IH1 IH2].
      cbn [firstn plus skipn app length]. split; [| lia].
      f_equal. exact IH1.
Qed.

Lemma split_from_enough sep fuel s :
  sep <> [] -> length s <= fuel ->
  split_from fuel sep s = split_from (length s) sep s.
Proof.
  intros Hsep. revert s.
  induction fuel as [fuel IH] using (well_founded_induction lt_wf).
  intros s Hlen.
  destruct fuel as [|fuel].
  - destruct s; [reflexivity | simpl in Hlen; lia].
  - cbn [split_from]. destruct (find sep s) as [j|] eqn:F.
    + destruct (find_some _ _ _ F) as [_ Hj].
      assert (Hs : 0 < length sep) by (destruct sep; [congruence | simpl; lia]).
      assert (Hk : length (skipn (j + length sep) s) < length s)
        by (rewrite length_skipn; lia).
      destruct (length s) as [|n] eqn:L; [lia |].
      cbn [split_from]. rewrite F. f_equal.
      rewrite (IH fuel) by lia. rewrite (IH n) by lia. reflexivity.
    + destruct (length s); cbn [split_from]; rewrite F; reflexivity.
Qed.

(** The loop of [split], one round unfolded. *)
Lemma split_unfold s sep :
  sep <> [] ->
  split s sep =
  match find sep s with
  | None => [s]
  | Some j => firstn j s :: split (skipn (j + length sep) s) sep
  end.
Proof.
  intros Hsep. unfold split.
  destruct (find sep s) as [j|] eqn:F.
  - destruct (find_some _ _ _ F) as [_ Hj].
    assert (Hs : 0 < length sep) by (destruct sep; [congruence | simpl; lia]).
    destruct (length s) as [|n] eqn:L; [lia |].
    cbn [split_from]. rewrite F. f_equal.
    apply split_from_enough; [assumption |].
    rewrite length_skipn. lia.
  - destruct (length s); cbn [split_from]; rewrite F; reflexivity.
Qed.


Lemma split_nonempty s sep : split s sep <> [].
Proof.
  unfold split. destruct (length s); cbn [split_from];
    destruct (find sep s); discriminate.
Qed.


End SplitProofs.

(** ** The monad and the frame of a transaction *)

Lemma bind_inv {A B} (m : M A) (f : A -> M B) w res w' :
  bind m f w = (res, w') ->
  (exists a w1, m w = (Ok a, w1) /\ f a w1 = (res, w')) \/
  (exists e, m w = (Raise e, w') /\ res = Raise e).
Proof.
  unfold bind. destruct (m w) as [[a|e] w1]; intros H.
  - left. eauto.
  - right. inversion H; subst. eauto.
Qed.

Lemma bind_ok_inv {A B} (m : M A) (f : A -> M B) w b w' :
  bind m f w = (Ok b, w') ->
  exists a w1, m w = (Ok a, w1) /\ f a w1 = (Ok b, w').
Proof.
  intros H. apply bind_inv in H. destruct H as [H | (e & _ & H)];
    [exact H | discriminate].
Qed.

Lemma inserted_app t s1 s2 : inserted t (s1 ++ s2) = inserted t s1 ++ inserted t s2.
Proof. unfold inserted. apply flat_map_app. Qed.

Lemma step_refl w : step w w [].
Proof.
  constructor; try reflexivity.
  - now rewrite app_nil_r.
  - intros t. simpl. now rewrite app_nil_r.
  - constructor.
Qed.

Lemma step_trans w w1 w2 s1 s2 :
  step w w1 s1 -> step w1 w2 s2 -> step w w2 (s1 ++ s2).
Proof.
  intros [C1 A1 L1 U1 I1] [C2 A2 L2 U2 I2]. constructor.
  - congruence.
  - congruence.
  - rewrite L2, L1. now rewrite app_assoc.
  - intros t. rewrite U2, U1, inserted_app. now rewrite app_assoc.
  - apply Forall_app. auto.
Qed.

Lemma step_seg_unique w w' s1 s2 : step w w' s1 -> step w w' s2 -> s1 = s2.
Proof.
  intros [_ _ L1 _ _] [_ _ L2 _ _]. rewrite L1 in L2.
  now apply app_inv_head in L2.
Qed.

Lemma txn_ret {A} (a : A) : txn (ret a).
Proof.
  intros w res w' H. inversion H; subst. split; [reflexivity |].
  exists []. apply step_refl.
Qed.

Lemma txn_raise {A} e : txn (@raise A e).
Proof.
  intros w res w' H. inversion H; subst. split; [reflexivity |].
  exists []. apply step_refl.
Qed.

Lemma txn_lift {A} (r : result A) : txn (lift r).
Proof.
  intros w res w' H. inversion H; subst. split; [reflexivity |].
  exists []. apply step_refl.
Qed.

Lemma txn_bind {A B} (m : M A) (f : A -> M B) :
  txn m -> (forall a, txn (f a)) -> txn (bind m f).
Proof.
  intros Hm Hf w res w' H. apply bind_inv in H.
  destruct H as [(a & w1 & H1 & H2) | (e & H1 & ->)].
  - destruct (Hm _ _ _ H1) as [D1 [s1 S1]].
    destruct (Hf a _ _ _ H2) as [D2 [s2 S2]].
    split; [congruence |]. exists (s1 ++ s2). eapply step_trans; eauto.
  - exact (Hm _ _ _ H1).
Qed.

Lemma step_emit ev w :
  inner ev -> inserted_none ev ->
  step w (with_log (log w ++ [ev]) w) [ev].
Proof.
  intros Hin Hno. constructor; try reflexivity.
  - intros t. cbn [current with_log]. rewrite (Hno t).
    now rewrite app_nil_r.
  - auto.
Qed.

Lemma txn_emit ev : inner ev -> inserted_none ev -> txn (emit ev).
Proof.
  intros Hin Hno w res w' H. unfold emit in H. inversion H; subst.
  split; [reflexivity |]. exists [ev]. now apply step_emit.
Qed.

Lemma upd_same {V} t (v : V) f : upd t v f t = v.
Proof. unfold upd. now rewrite String.eqb_refl. Qed.

Lemma upd_other {V} t t' (v : V) f : t' <> t -> upd t v f t' = f t'.
Proof.
  intros H. unfold upd. destruct (String.eqb_spec t' t); congruence.
Qed.

Lemma txn_store tbl r : txn (store tbl r).
Proof.
  intros w res w' H. unfold store in H.
  destruct (accepts w tbl (current w tbl) r).
  - unfold emit in H. inversion H; subst. split; [reflexivity |].
    exists [EvInsert tbl r]. constructor; try reflexivity.
    + intros t. cbn. unfold upd.
      destruct (String.eqb_spec t tbl) as [-> | N].
      * now rewrite String.eqb_refl.
      * destruct (String.eqb_spec tbl t); [congruence |].
        now rewrite app_nil_r.
    + repeat constructor.
  - revert H. apply txn_bind.
    + apply txn_emit; [exact I | intros t; reflexivity].
    + intros _. apply txn_raise.
Qed.

Lemma txn_nextval tbl : txn (nextval tbl).
Proof.
  intros w res w' H. unfold nextval in H. inversion H; subst.
  split; [reflexivity |]. exists []. constructor; try reflexivity.
  - cbn. now rewrite app_nil_r.
  - intros t. cbn. now rewrite app_nil_r.
  - constructor.
Qed.

Lemma txn_insert_returning tbl cols pk : txn (insert_returning tbl cols pk).
Proof.
  unfold insert_returning. apply txn_bind; [apply txn_nextval |].
  intros key. apply txn_bind; [apply txn_store |].
  intros _. apply txn_ret.
Qed.

Lemma txn_insert tbl cols : txn (insert tbl cols).
Proof. apply txn_store. Qed.

Lemma txn_select_pk tbl pk conds : txn (select_pk tbl pk conds).
Proof.
  unfold select_pk. apply txn_bind.
  - apply txn_emit; [exact I | intros t; reflexivity].
  - intros _ w res w' H. inversion H; subst. split; [reflexivity |].
    exists []. apply step_refl.
Qed.

Lemma txn_db_searcher sp vals : txn (db_searcher sp vals).
Proof.
  unfold db_searcher. destruct (bind_placeholders (kw_cols sp) vals).
  - apply txn_bind; [apply txn_select_pk |].
    intros [pk|]; [apply txn_ret | apply txn_insert_returning].
  - apply txn_raise.
Qed.

Lemma txn_set_cache k c : txn (set_cache k c).
Proof.
  intros w res w' H. unfold set_cache in H. inversion H; subst.
  split; [reflexivity |]. exists []. constructor; try reflexivity.
  - cbn. now rewrite app_nil_r.
  - intros t. cbn. now rewrite app_nil_r.
  - constructor.
Qed.

Lemma txn_lru_cache k f vals :
  (forall v, txn (f v)) -> txn (lru_cache k f vals).
Proof.
  intros Hf w res w' H. unfold lru_cache in H.
  destruct (cache_get vals (caches w k)).
  - revert H. apply txn_bind; [apply txn_set_cache | intros _; apply txn_ret].
  - revert H. apply txn_bind; [apply Hf |].
    intros v. apply txn_bind; [| intros _; apply txn_ret].
    intros w1 res1 w2 H. revert H. apply txn_set_cache.
Qed.

Lemma txn_resolve k vals : txn (resolve k vals).
Proof.
  unfold resolve. apply txn_bind.
  - apply txn_lru_cache. intros v. apply txn_db_searcher.
  - intros pk. apply txn_bind; [| intros _; apply txn_ret].
    apply txn_emit; [exact I | intros t; reflexivity].
Qed.

Lemma txn_for_each {A} (l : list A) body :
  (forall x, txn (body x)) -> txn (for_each l body).
Proof.
  intros Hb. induction l as [|x l IH]; cbn [for_each].
  - apply txn_ret.
  - apply txn_bind; [apply Hb | intros _; exact IH].
Qed.

Lemma txn_process_row prefix r : txn (process_row prefix r).
Proof.
  unfold process_row.
  apply txn_bind; [apply txn_lift | intros s].
  apply txn_bind; [apply txn_lift | intros e].
  apply txn_bind; [apply txn_resolve | intros aid].
  apply txn_bind; [apply txn_insert_returning | intros gid].
  apply txn_bind; [| intros _; apply txn_bind; [| intros _]];
    apply txn_for_each; intros n;
    (apply txn_bind; [apply txn_resolve | intros pid; apply txn_insert]).
Qed.


(** ** One block of the driver *)

Lemma next_row_inv w r w' :
  next_row w = (r, w') ->
  match data_iter w with
  | [] => r = Ok None /\ w' = w
  | x :: rest => r = Ok (Some x) /\ w' = with_data_iter rest w
  end.
Proof.
  unfold next_row. destruct (data_iter w); intros H; inversion H; auto.
Qed.

Lemma step_with_data_iter rest w : step w (with_data_iter rest w) [].
Proof.
  constructor; try reflexivity.
  - cbn. now rewrite app_nil_r.
  - intros t. cbn. now rewrite app_nil_r.
  - constructor.
Qed.

(** The rows of the block after the first one: [k] rows are taken from the
    iterator, at most [data_block]; when no row raises these are all the
    rows the slice allows. *)
Lemma for_data_block_spec prefix data_block :
  forall n_rows w res w',
    for_data_block prefix data_block n_rows w = (res, w') ->
    exists k seg,
      step w w' seg /\
      data_iter w' = skipn k (data_iter w) /\
      k <= data_block /\ k <= length (data_iter w) /\
      (forall m, res = Ok m ->
         m = n_rows + k /\ k = Nat.min data_block (length (data_iter w))).
Proof.
  induction data_block as [|stop IH]; intros n_rows w res w' H; cbn [for_data_block] in H.
  - inversion H; subst. exists 0, [].
    split; [apply step_refl |]. split; [reflexivity |].
    split; [lia |]. split; [lia |].
    intros m Hm. inversion Hm; subst. split; [lia | reflexivity].
  - apply bind_inv in H. destruct H as [(r & w1 & H1 & H2) | (e & H1 & _)].
    + apply next_row_inv in H1. destruct (data_iter w) as [|x rest] eqn:D.
      * destruct H1 as [E ->]. inversion E; subst r.
        inversion H2; subst. exists 0, []. rewrite D.
        split; [apply step_refl |]. split; [reflexivity |].
        split; [lia |]. split; [simpl; lia |].
        intros m Hm. inversion Hm; subst. split; [lia | reflexivity].
      * destruct H1 as [E ->]. inversion E; subst r.
        apply bind_inv in H2.
        destruct H2 as [(u & w2 & H2 & H3) | (e & H2 & ->)].
        -- destruct (txn_process_row _ _ _ _ _ H2) as [D2 [s2 S2]].
           destruct (IH _ _ _ _ H3) as (k & s3 & S3 & D3 & L3 & L3' & R3).
           cbn in D2. rewrite D2 in D3, L3', R3.
           exists (S k), (s2 ++ s3).
           split.
           { replace (s2 ++ s3) with ([] ++ s2 ++ s3) by reflexivity.
             eapply step_trans; [apply step_with_data_iter |].
             eapply step_trans; eauto. }
           split; [exact D3 |]. split; [lia |]. split; [simpl; lia |].
           intros m Hm. destruct (R3 _ Hm) as [-> ->].
           split; [lia | reflexivity].
        -- destruct (txn_process_row _ _ _ _ _ H2) as [D2 [s2 S2]].
           cbn in D2. exists 1, s2.
           split.
           { replace s2 with ([] ++ s2) by reflexivity.
             eapply step_trans; [apply step_with_data_iter | exact S2]. }
           split; [exact D2 |]. split; [lia |]. split; [simpl; lia |].
           intros m Hm. discriminate.
    + apply next_row_inv in H1. destruct (data_iter w); destruct H1; discriminate.
Qed.

Lemma skipn_min {A} n (l : list A) : skipn (Nat.min n (length l)) l = skipn n l.
Proof.
  destruct (Nat.le_ge_cases n (length l)).
  - now rewrite Nat.min_l.
  - rewrite Nat.min_r by assumption. rewrite skipn_all.
    symmetry. now apply skipn_all2.
Qed.

Lemma for_block_spec prefix row0 data_block w res w' :
  for_block prefix row0 data_block w = (res, w') ->
  exists k seg,
    step w w' seg /\
    data_iter w' = skipn k (data_iter w) /\
    k <= data_block /\ k <= length (data_iter w) /\
    (forall m, res = Ok m ->
       m = 1 + k /\ k = Nat.min data_block (length (data_iter w))).
Proof.
  unfold for_block. intros H. apply bind_inv in H.
  destruct H as [(u & w1 & H1 & H2) | (e & H1 & ->)].
  - destruct (txn_process_row _ _ _ _ _ H1) as [D1 [s1 S1]].
    destruct (for_data_block_spec _ _ _ _ _ _ H2) as (k & s2 & S2 & D2 & L & L' & R).
    rewrite D1 in D2, L', R.
    exists k, (s1 ++ s2).
    split; [eapply step_trans; eauto |].
    split; [exact D2 |]. split; [exact L |]. split; [exact L' |].
    intros m Hm. exact (R _ Hm).
  - destruct (txn_process_row _ _ _ _ _ H1) as [D1 [s1 S1]].
    exists 0, s1.
    split; [exact S1 |]. split; [exact D1 |]. split; [lia |]. split; [lia |].
    intros m Hm. discriminate.
Qed.

Lemma with_conn_inv {A} (body : M A) w res w' :
  with_conn body w = (res, w') ->
  (exists a w1, body w = (Ok a, w1) /\ res = Ok a /\
                w' = with_log (log w1 ++ [EvCommit]) (with_committed (current w1) w1))
  \/
  (exists e w1, body w = (Raise e, w1) /\ res = Raise e /\
                w' = with_log (log w1 ++ [EvRollback]) (with_current (committed w1) w1)).
Proof.
  unfold with_conn. destruct (body w) as [[a|e] w1]; intros H.
  - left. exists a, w1. inversion H; subst. auto.
  - right. exists e, w1. inversion H; subst. auto.
Qed.

(** What one round of the loop can do. *)
Inductive block_outcome (block_size : Z) (i_block : nat) (w : world)
  : result bool -> world -> Prop :=
| block_bad_size :
    (block_size < 0)%Z ->
    block_outcome block_size i_block w (Raise ValueError) w
| block_break :
    (0 <= block_size)%Z ->
    block_size = 0%Z \/ data_iter w = [] ->
    block_outcome block_size i_block w (Ok false) w
| block_committed seg w' :
    (0 < block_size)%Z -> data_iter w <> [] ->
    Forall inner seg ->
    log w' = log w ++ seg ++
             [EvCommit;
              EvPrint i_block (Nat.min (Z.to_nat block_size) (length (data_iter w)))] ->
    (forall t, current w' t = current w t ++ inserted t seg) ->
    committed w' = current w' ->
    accepts w' = accepts w ->
    data_iter w' = skipn (Z.to_nat block_size) (data_iter w) ->
    block_outcome block_size i_block w (Ok true) w'
| block_rolled_back seg e k w' :
    (0 < block_size)%Z -> data_iter w <> [] ->
    Forall inner seg ->
    log w' = log w ++ seg ++ [EvRollback] ->
    committed w' = committed w ->
    current w' = committed w ->
    accepts w' = accepts w ->
    data_iter w' = skipn k (data_iter w) -> 1 <= k <= length (data_iter w) ->
    block_outcome block_size i_block w (Raise e) w'.

Lemma import_block_outcome block_size prefix i_block w res w' :
  import_block block_size prefix i_block w = (res, w') ->
  block_outcome block_size i_block w res w'.
Proof.
  unfold import_block, islice. intros H.
  destruct (block_size <? 0)%Z eqn:B.
  - apply Z.ltb_lt in B. inversion H; subst. now constructor.
  - apply Z.ltb_ge in B. cbn [bind ret] in H.
    destruct (Z.to_nat block_size) as [|stop] eqn:Hs.
    + cbn in H. inversion H; subst. constructor; [assumption | left; lia].
    + cbn [islice_next] in H.
      apply bind_inv in H. destruct H as [(f & w1 & H1 & H2) | (e & H1 & _)].
      2:{ apply bind_inv in H1. destruct H1 as [(r & w2 & H1 & H3) | (e' & H1 & _)].
          - inversion H3.
          - apply next_row_inv in H1. destruct (data_iter w); destruct H1; discriminate. }
      apply bind_inv in H1. destruct H1 as [(r & w2 & H1 & H3) | (e' & H1 & E)];
        [| discriminate].
      inversion H3; subst f w2. clear H3. cbn [fst snd] in H2.
      apply next_row_inv in H1. destruct (data_iter w) as [|x rest] eqn:D.
      * destruct H1 as [E ->]. inversion E; subst r. inversion H2; subst.
        constructor; [assumption | now right].
      * destruct H1 as [E ->]. inversion E; subst r.
        apply bind_inv in H2.
        destruct H2 as [(n & w2 & H2 & H3) | (e & H2 & ->)].
        -- apply with_conn_inv in H2.
           destruct H2 as [(a & w3 & H2 & E2 & ->) | (e & w3 & _ & E2 & _)];
             [| discriminate].
           inversion E2; subst a. clear E2.
           destruct (for_block_spec _ _ _ _ _ _ H2) as (k & seg & St & Dk & L & L' & R).
           destruct (R _ eq_refl) as [-> Hk]. cbn in Dk, L', Hk.
           unfold bind, emit, ret in H3. inversion H3; subst. clear H3.
           destruct St as [C A Lg U In].
           apply block_committed with (seg := seg).
           ++ lia.
           ++ rewrite D. discriminate.
           ++ exact In.
           ++ cbn [log with_log with_committed]. rewrite Lg. cbn [log with_data_iter].
              rewrite <- !app_assoc. cbn [app]. rewrite D, Hs. reflexivity.
           ++ intros t. cbn. apply U.
           ++ reflexivity.
           ++ cbn. exact A.
           ++ cbn. rewrite Dk, D, Hs. cbn [skipn]. apply skipn_min.
        -- apply with_conn_inv in H2.
           destruct H2 as [(a & w3 & _ & E2 & _) | (e' & w3 & H2 & E2 & ->)];
             [discriminate |].
           inversion E2; subst e'. clear E2.
           destruct (for_block_spec _ _ _ _ _ _ H2) as (k & seg & St & Dk & L & L' & R).
           cbn in Dk, L'. destruct St as [C A Lg U In].
           apply block_rolled_back with (seg := seg) (k := S k).
           ++ lia.
           ++ rewrite D. discriminate.
           ++ exact In.
           ++ cbn [log with_log with_current]. rewrite Lg. cbn [log with_data_iter].
              now rewrite <- app_assoc.
           ++ cbn. exact C.
           ++ cbn. exact C.
           ++ cbn. exact A.
           ++ cbn. rewrite Dk, D. reflexivity.
           ++ rewrite D. cbn. lia.
Qed.

Lemma block_continue block_size prefix i_block w w' :
  import_block block_size prefix i_block w = (Ok true, w') ->
  exists seg,
    (0 < block_size)%Z /\ data_iter w <> [] /\ Forall inner seg /\
    log w' = log w ++ seg ++
             [EvCommit;
              EvPrint i_block (Nat.min (Z.to_nat block_size) (length (data_iter w)))] /\
    (forall t, current w' t = current w t ++ inserted t seg) /\
    committed w' = current w' /\
    accepts w' = accepts w /\
    data_iter w' = skipn (Z.to_nat block_size) (data_iter w).
Proof.
  intros H. apply import_block_outcome in H. inversion H; subst.
  exists seg. auto 10.
Qed.

Lemma block_stop block_size prefix i_block w w' :
  import_block block_size prefix i_block w = (Ok false, w') ->
  w' = w /\ (0 <= block_size)%Z /\ (block_size = 0%Z \/ data_iter w = []).
Proof.
  intros H. apply import_block_outcome in H. inversion H; subst. auto.
Qed.

Lemma block_raise block_size prefix i_block w e w' :
  import_block block_size prefix i_block w = (Raise e, w') ->
  ((block_size < 0)%Z /\ e = ValueError /\ w' = w) \/
  (exists seg k,
     (0 < block_size)%Z /\ data_iter w <> [] /\ Forall inner seg /\
     log w' = log w ++ seg ++ [EvRollback] /\
     committed w' = committed w /\
     current w' = committed w /\
     accepts w' = accepts w /\
     data_iter w' = skipn k (data_iter w) /\ 1 <= k <= length (data_iter w)).
Proof.
  intros H. apply import_block_outcome in H. inversion H; subst.
  - left. auto.
  - right. exists seg, k. auto 12.
Qed.

(** ** The loop of the driver *)

Lemma import_loop_total fuel block_size prefix :
  forall i_block w,
    length (data_iter w) < fuel ->
    exists r, import_loop fuel block_size prefix i_block w = Some r.
Proof.
  induction fuel as [|fuel IH]; intros i_block w Hlen; [lia |].
  cbn [import_loop].
  destruct (import_block block_size prefix i_block w) as [[[|]|e] w1] eqn:E;
    eauto.
  apply block_continue in E.
  destruct E as (seg & HB & HN & _ & _ & _ & _ & _ & HD).
  apply IH. rewrite HD, length_skipn.
  destruct (data_iter w); [congruence |]. cbn [length] in *. lia.
Qed.

Lemma import_dataset_total rows block_size prefix w :
  exists r, import_dataset rows block_size prefix w = Some r.
Proof.
  unfold import_dataset. apply import_loop_total. cbn. lia.
Qed.


Lemma reports_app l1 l2 : reports (l1 ++ l2) = reports l1 ++ reports l2.
Proof. unfold reports. apply flat_map_app. Qed.


Lemma reports_inner seg : Forall inner seg -> reports seg = [].
Proof.
  unfold reports. induction 1 as [|ev seg H _ IH]; [reflexivity |].
  destruct ev; simpl in *; tauto.
Qed.







(** What the run leaves in the store: the rows of the committed blocks. *)
Lemma import_loop_atomic fuel block_size prefix :
  forall i_block w res w',
    current w = committed w ->
    import_loop fuel block_size prefix i_block w = Some (res, w') ->
    exists blocks tail,
      log w' = log w ++ closed i_block blocks ++ tail /\
      Forall (fun b => Forall inner (fst b)) blocks /\
      (forall t, committed w' t =
                 committed w t ++ flat_map (fun b => inserted t (fst b)) blocks) /\
      current w' = committed w' /\
      match res with
      | Ok _ => tail = []
      | Raise _ => tail = [] \/
                   exists seg, Forall inner seg /\ tail = seg ++ [EvRollback]
      end.
Proof.
  induction fuel as [|fuel IH]; intros i_block w res w' Hcur H; [discriminate |].
  cbn [import_loop] in H.
  destruct (import_block block_size prefix i_block w) as [[[|]|e] w1] eqn:E.
  - apply block_continue in E.
    destruct E as (seg & _ & _ & H2 & H3 & H4 & H5 & _ & _).
    assert (Hcur1 : current w1 = committed w1) by congruence.
    destruct (IH _ _ _ _ Hcur1 H) as (blocks & tail & L & F & C & U & T).
    exists ((seg, Nat.min (Z.to_nat block_size) (length (data_iter w))) :: blocks), tail.
    split; [| split; [| split; [| split]]].
    + rewrite L, H3. cbn [closed]. rewrite <- !app_assoc. reflexivity.
    + constructor; assumption.
    + intros t. rewrite C, H5, H4, Hcur. cbn [flat_map fst].
      now rewrite app_assoc.
    + exact U.
    + exact T.
  - apply block_stop in E. destruct E as (-> & _ & _).
    inversion H; subst. exists [], [].
    split; [| split; [| split; [| split]]]; auto.
    + cbn. now rewrite app_nil_r.
    + intros t. cbn. now rewrite app_nil_r.
  - apply block_raise in E. inversion H; subst. clear H.
    destruct E as [(_ & _ & ->) | (seg & k & _ & _ & HI & HL & HC & HU & _)].
    + exists [], [].
      split; [| split; [| split; [| split]]]; auto.
      * cbn. now rewrite app_nil_r.
      * intros t. cbn. now rewrite app_nil_r.
    + exists [], (seg ++ [EvRollback]).
      split; [| split; [| split; [| split]]]; auto.
      * intros t. cbn. rewrite HC. now rewrite app_nil_r.
      * congruence.
      * right. eauto.
Qed.

(** ** The searcher and its cache, case by case *)

Lemma store_inv tbl r w res w' :
  store tbl r w = (res, w') ->
  (accepts w tbl (current w tbl) r = true /\ res = Ok tt /\
   w' = logged [EvInsert tbl r] (stored tbl r w))
  \/
  (accepts w tbl (current w tbl) r = false /\ res = Raise DatabaseError /\
   w' = logged [EvRejected tbl r] w).
Proof.
  unfold store. destruct (accepts w tbl (current w tbl) r); intros H.
  - left. inversion H; subst. auto.
  - right. inversion H; subst. auto.
Qed.

Lemma insert_returning_inv tbl cols pk w res w' :
  insert_returning tbl cols pk w = (res, w') ->
  (accepts w tbl (current w tbl) (new_row tbl pk cols w) = true /\
   res = Ok (VInt (sequences w tbl)) /\
   w' = logged [EvInsert tbl (new_row tbl pk cols w)]
          (stored tbl (new_row tbl pk cols w) (bumped tbl w)))
  \/
  (accepts w tbl (current w tbl) (new_row tbl pk cols w) = false /\
   res = Raise DatabaseError /\
   w' = logged [EvRejected tbl (new_row tbl pk cols w)] (bumped tbl w)).
Proof.
  unfold insert_returning, nextval, bind, new_row. intros H.
  destruct (store tbl ((pk, VInt (sequences w tbl)) :: cols)
              (with_sequences (upd tbl (sequences w tbl + 1)%Z (sequences w)) w))
    as [[u|e] w1] eqn:E; apply store_inv in E; cbn in E;
    destruct E as [(A & E1 & ->) | (A & E1 & ->)]; try discriminate;
    inversion H; subst.
  - left. auto.
  - right. inversion E1; subst. auto.
Qed.

Lemma db_searcher_searched sp vals w res w' :
  db_searcher sp vals w = (res, w') -> searched sp vals w res w'.
Proof.
  unfold db_searcher.
  destruct (bind_placeholders (kw_cols sp) vals) as [conds|] eqn:B.
  - unfold select_pk, bind, emit. cbn [current with_log].
    destruct (List.find (row_matches conds) (current w (table sp))) as [r|] eqn:F;
      cbn [option_map].
    + intros H. inversion H; subst. now apply searched_found with (conds := conds).
    + intros H. apply insert_returning_inv in H. cbn in H.
      destruct H as [(A & -> & ->) | (A & -> & ->)].
      * exact (searched_inserted sp vals w conds B F A).
      * exact (searched_rejected sp vals w conds B F A).
  - intros H. inversion H; subst. now constructor.
Qed.

Lemma searched_caches sp vals w res w' :
  searched sp vals w res w' -> caches w' = caches w.
Proof. destruct 1; reflexivity. Qed.

Lemma resolve_resolved k vals w res w' :
  resolve k vals w = (res, w') -> resolved k vals w res w'.
Proof.
  unfold resolve, lru_cache, bind.
  destruct (cache_get vals (caches w k)) as [v|] eqn:G.
  - cbn. intros H. inversion H; subst. now apply resolved_hit.
  - destruct (db_searcher (searcher_of k) vals w) as [[v|e] w1] eqn:S;
      apply db_searcher_searched in S.
    + cbn. intros H. inversion H; subst.
      exact (resolved_miss k vals w v w1 G S).
    + intros H. inversion H; subst. now apply resolved_raise with (e := e).
Qed.

(** ** Conditions and rows *)

Lemma sql_eq_true a b : b <> VNull -> (sql_eq a b = true <-> a = b).
Proof.
  intros Hb. unfold sql_eq.
  destruct a; destruct b; try congruence;
    try (destruct (value_eq_dec _ _); split; congruence);
    split; congruence.
Qed.

Lemma row_matches_iff conds r :
  Forall (fun cv => snd cv <> VNull) conds ->
  (row_matches conds r = true <-> columns_equal conds r).
Proof.
  intros Hnn. unfold row_matches, columns_equal.
  rewrite forallb_forall. rewrite Forall_forall in Hnn. split.
  - intros H c v Hin. specialize (H _ Hin). cbn in H.
    apply sql_eq_true in H; [exact H |]. exact (Hnn _ Hin).
  - intros H [c v] Hin. cbn. apply sql_eq_true; [exact (Hnn _ Hin) |].
    now apply H.
Qed.

Lemma bind_placeholders_cols kw vals conds :
  bind_placeholders kw vals = Some conds -> map fst conds = map snd kw.
Proof.
  revert conds. induction kw as [|[a b] kw IH]; intros conds; cbn.
  - intros H. inversion H. reflexivity.
  - destruct (lookup a vals); [| discriminate].
    destruct (bind_placeholders kw vals) as [ps|]; [| discriminate].
    intros H. inversion H; subst. cbn. f_equal. now apply IH.
Qed.

(** The row a searcher creates holds the key and exactly the given values. *)
Lemma new_row_columns k vals conds w :
  bind_placeholders (kw_cols (searcher_of k)) vals = Some conds ->
  let sp := searcher_of k in
  let r := new_row (table sp) (pk_col sp) conds w in
  columns_equal conds r /\
  row_get (pk_col sp) r = VInt (sequences w (table sp)) /\
  (forall c, c <> pk_col sp -> ~ In c (map fst conds) -> row_get c r = VNull).
Proof.
  intros B. pose proof (bind_placeholders_cols _ _ _ B) as C.
  destruct k; cbn in C;
    repeat (destruct conds as [|[? ?] conds]; try discriminate);
    inversion C; subst; cbn; (split; [| split]).
  all: try reflexivity.
  all: try (intros cc vv Hin; cbn in Hin;
            repeat (destruct Hin as [Hin | Hin]; [inversion Hin; subst; reflexivity |]);
            contradiction).
  all: intros cc Hc Hn; unfold row_get, new_row; cbn;
       repeat match goal with
         | |- context [String.eqb cc ?x] =>
             destruct (String.eqb_spec cc x); [subst; try congruence; exfalso; apply Hn; cbn; tauto |]
         end; reflexivity.
Qed.

(** ** The cache *)

Lemma cache_get_in key c v : cache_get key c = Some v -> In (key, v) c.
Proof.
  induction c as [|[k' v'] c IH]; cbn; [discriminate |].
  destruct (params_eq_dec key k') as [-> | N].
  - intros H. inversion H; subst. now left.
  - intros H. right. now apply IH.
Qed.

Lemma cache_remove_in key c x : In x (cache_remove key c) -> In x c.
Proof.
  induction c as [|[k' v'] c IH]; cbn; [tauto |].
  destruct (params_eq_dec key k'); cbn; intuition.
Qed.

Lemma cache_remove_length key c : length (cache_remove key c) <= length c.
Proof.
  induction c as [|[k' v'] c IH]; cbn; [lia |].
  destruct (params_eq_dec key k'); cbn; lia.
Qed.

Lemma cache_remove_hit key c v :
  cache_get key c = Some v -> length (cache_remove key c) < length c.
Proof.
  induction c as [|[k' v'] c IH]; cbn; [discriminate |].
  destruct (params_eq_dec key k').
  - intros _. pose proof (cache_remove_length key c). lia.
  - intros H. cbn. apply IH in H. lia.
Qed.

Lemma cache_remove_miss key c : cache_get key c = None -> cache_remove key c = c.
Proof.
  induction c as [|[k' v'] c IH]; cbn; [reflexivity |].
  destruct (params_eq_dec key k'); [discriminate |].
  intros H. now rewrite IH.
Qed.

Lemma removelast_in {A} (l : list A) x : In x (removelast l) -> In x l.
Proof.
  induction l as [|a l IH]; cbn; [tauto |].
  destruct l; cbn in *; [tauto | intuition].
Qed.

Lemma removelast_firstn_len {A} (l : list A) :
  removelast l = firstn (length l - 1) l.
Proof.
  induction l as [|a l IH]; [reflexivity |].
  destruct l as [|b l]; [reflexivity |].
  cbn [removelast length] in *. rewrite IH.
  cbn. now rewrite Nat.sub_0_r.
Qed.

Lemma cache_put_in m key v c x :
  In x (cache_put m key v c) -> x = (key, v) \/ In x c.
Proof.
  unfold cache_put. destruct (m <=? length c); cbn.
  - intros [H | H]; [now left | right; now apply removelast_in].
  - intros [H | H]; auto.
Qed.

Lemma cache_touch_in key v c x :
  In x (cache_touch key v c) -> x = (key, v) \/ In x c.
Proof.
  unfold cache_touch. cbn. intros [H | H]; [now left |].
  right. now apply cache_remove_in in H.
Qed.

(** Either way the cache becomes: the entry in front, the other entries
    behind it in their order, cut to the capacity. *)
Lemma cache_put_lru m key v c :
  1 <= m -> length c <= m -> cache_get key c = None ->
  cache_put m key v c = firstn m ((key, v) :: cache_remove key c).
Proof.
  intros Hm Hc Hmiss. rewrite (cache_remove_miss _ _ Hmiss).
  unfold cache_put. destruct (Nat.leb_spec m (length c)).
  - destruct m as [|m]; [lia |]. cbn [firstn]. f_equal.
    rewrite removelast_firstn_len. f_equal. lia.
  - destruct m as [|m]; [lia |]. cbn [firstn]. f_equal.
    symmetry. apply firstn_all2. lia.
Qed.

Lemma cache_touch_lru m key v c :
  length c <= m -> cache_get key c = Some v ->
  cache_touch key v c = firstn m ((key, v) :: cache_remove key c).
Proof.
  intros Hc Hhit. unfold cache_touch.
  symmetry. apply firstn_all2. cbn [length].
  pose proof (cache_remove_hit _ _ _ Hhit). lia.
Qed.

Lemma maxsize_pos k : 1 <= maxsize k.
Proof. destruct k; cbn; lia. Qed.

Lemma kind_eqb_refl k : kind_eqb k k = true.
Proof. now destruct k. Qed.

Lemma kind_eqb_neq k k' : k' <> k -> kind_eqb k' k = false.
Proof. destruct k, k'; cbn; congruence. Qed.

(** The cache after a call that returns. *)
Lemma resolved_cache k vals w v w' :
  sizes_ok w ->
  resolved k vals w (Ok v) w' ->
  caches w' k = firstn (maxsize k) ((vals, v) :: cache_remove vals (caches w k)) /\
  (forall k', k' <> k -> caches w' k' = caches w k').
Proof.
  intros Hs H. inversion H; subst.
  - cbn. rewrite kind_eqb_refl. split.
    + apply cache_touch_lru; [apply Hs | assumption].
    + intros k' N. now rewrite (kind_eqb_neq _ _ N).
  - cbn. rewrite kind_eqb_refl.
    rewrite (searched_caches _ _ _ _ _ H2). split.
    + apply cache_put_lru; [apply maxsize_pos | apply Hs | assumption].
    + intros k' N. now rewrite (kind_eqb_neq _ _ N).
Qed.

Lemma resolved_sizes k vals w res w' :
  sizes_ok w -> resolved k vals w res w' -> sizes_ok w'.
Proof.
  intros Hs H. destruct res as [v|e].
  - destruct (resolved_cache _ _ _ _ _ Hs H) as [E1 E2].
    intros k'. destruct (kind_eqb k' k) eqn:K.
    + assert (k' = k) by (destruct k, k'; cbn in K; congruence). subst k'.
      rewrite E1. rewrite length_firstn. lia.
    + rewrite E2; [apply Hs |]. intros ->. rewrite kind_eqb_refl in K. discriminate.
  - inversion H; subst. intros k'.
    rewrite (searched_caches _ _ _ _ _ H2). apply Hs.
Qed.

(** ** State properties along the run *)

Lemma preserves_ret {A} I (a : A) : preserves I (ret a).
Proof. intros w res w' HI H. inversion H; subst. exact HI. Qed.

Lemma preserves_raise {A} I e : preserves I (@raise A e).
Proof. intros w res w' HI H. inversion H; subst. exact HI. Qed.

Lemma preserves_lift {A} I (r : result A) : preserves I (lift r).
Proof. intros w res w' HI H. inversion H; subst. exact HI. Qed.

Lemma preserves_bind {A B} I (m : M A) (f : A -> M B) :
  preserves I m -> (forall a, preserves I (f a)) -> preserves I (bind m f).
Proof.
  intros Hm Hf w res w' HI H. apply bind_inv in H.
  destruct H as [(a & w1 & H1 & H2) | (e & H1 & _)].
  - eapply Hf; [| exact H2]. eapply Hm; eauto.
  - eapply Hm; eauto.
Qed.

Lemma preserves_for_each {A} I (l : list A) body :
  (forall x, In x l -> preserves I (body x)) -> preserves I (for_each l body).
Proof.
  induction l as [|x l IH]; intros Hb; cbn [for_each].
  - apply preserves_ret.
  - apply preserves_bind; [apply Hb; now left |].
    intros _. apply IH. intros y Hy. apply Hb. now right.
Qed.

(** The rows of a record go through [resolve] and the three kinds of
    insert only, so a property kept by these is kept by [process_row]. *)
Lemma preserves_process_row I prefix r :
  (forall k vals, well_keyed k vals -> preserves I (resolve k vals)) ->
  (forall cols, preserves I (insert_returning "attack_groups" cols "group_id")) ->
  (forall tbl cols,
     In tbl ["group_launch_places"; "group_targets"; "group_missiles"]%string ->
     preserves I (insert tbl cols)) ->
  preserves I (process_row prefix r).
Proof.
  intros Hres Hgrp Hins. unfold process_row.
  apply preserves_bind; [apply preserves_lift | intros s].
  apply preserves_bind; [apply preserves_lift | intros e].
  apply preserves_bind; [apply Hres; constructor | intros aid].
  apply preserves_bind; [apply Hgrp | intros gid].
  apply preserves_bind; [| intros _; apply preserves_bind; [| intros _]];
    apply preserves_for_each; intros n _;
    (apply preserves_bind;
     [apply Hres; constructor | intros pid; apply Hins; cbn; tauto]).
Qed.

Section Along.
Variables I J : world -> Prop.
Hypothesis Hrow : forall prefix r, preserves I (process_row prefix r).
Hypothesis Hiter : forall w l, I w -> I (with_data_iter l w).
Hypothesis Hcommit : forall w,
    I w -> I (with_log (log w ++ [EvCommit]) (with_committed (current w) w)).
Hypothesis Hprint : forall w i n, I w -> I (with_log (log w ++ [EvPrint i n]) w).
Hypothesis Hweak : forall w, I w -> J w.
Hypothesis Hrollback : forall w,
    I w -> J (with_log (log w ++ [EvRollback]) (with_current (committed w) w)).

Lemma preserves_next_row : preserves I next_row.
Proof.
  intros w res w' HI H. apply next_row_inv in H.
  destruct (data_iter w); destruct H as [_ ->]; auto.
Qed.

Lemma preserves_for_data_block prefix data_block :
  forall n_rows, preserves I (for_data_block prefix data_block n_rows).
Proof.
  induction data_block as [|stop IH]; intros n_rows; cbn [for_data_block].
  - apply preserves_ret.
  - apply preserves_bind; [apply preserves_next_row |].
    intros [r|]; [| apply preserves_ret].
    apply preserves_bind; [apply Hrow | intros _; apply IH].
Qed.

Lemma preserves_for_block prefix row0 data_block :
  preserves I (for_block prefix row0 data_block).
Proof.
  unfold for_block. apply preserves_bind; [apply Hrow |].
  intros _. apply preserves_for_data_block.
Qed.

Lemma import_block_along block_size prefix i_block w res w' :
  I w -> import_block block_size prefix i_block w = (res, w') ->
  match res with
  | Ok _ => I w'
  | Raise _ => J w'
  end.
Proof.
  intros HI H. unfold import_block, islice in H.
  destruct (block_size <? 0)%Z.
  - inversion H; subst. now apply Hweak.
  - cbn [bind ret] in H.
    destruct (Z.to_nat block_size) as [|stop].
    + cbn in H. inversion H; subst. exact HI.
    + cbn [islice_next] in H. unfold bind at 1 2 in H.
      destruct (next_row w) as [r w1] eqn:N.
      assert (HI1 : I w1) by (eapply preserves_next_row; eauto).
      apply next_row_inv in N.
      destruct (data_iter w); destruct N as [-> _]; cbn [ret fst snd] in H.
      * inversion H; subst. exact HI1.
      * apply bind_inv in H.
        destruct H as [(n & w2 & H2 & H3) | (e & H2 & ->)].
        -- apply with_conn_inv in H2.
           destruct H2 as [(a & w3 & H2 & E2 & ->) | (e & w3 & _ & E2 & _)];
             [| discriminate].
           unfold bind, emit, ret in H3. inversion H3; subst.
           apply Hprint, Hcommit.
           eapply preserves_for_block; eauto.
        -- apply with_conn_inv in H2.
           destruct H2 as [(a & w3 & _ & E2 & _) | (e' & w3 & H2 & E2 & ->)];
             [discriminate |].
           apply Hrollback. eapply preserves_for_block; eauto.
Qed.

Lemma import_loop_along fuel block_size prefix :
  forall i_block w res w',
    I w -> import_loop fuel block_size prefix i_block w = Some (res, w') ->
    J w' /\ (res = Ok tt -> I w').
Proof.
  induction fuel as [|fuel IH]; intros i_block w res w' HI H; [discriminate |].
  cbn [import_loop] in H.
  destruct (import_block block_size prefix i_block w) as [[[|]|e] w1] eqn:E;
    pose proof (import_block_along _ _ _ _ _ _ HI E) as HB; cbn in HB.
  - eapply IH; eauto.
  - inversion H; subst. auto.
  - inversion H; subst. split; [exact HB | discriminate].
Qed.

End Along.

(** *** Cache sizes *)

Lemma sizes_ok_same_caches w w' : caches w' = caches w -> sizes_ok w -> sizes_ok w'.
Proof. unfold sizes_ok. intros ->. auto. Qed.

Lemma preserves_sizes_resolve k vals : preserves sizes_ok (resolve k vals).
Proof.
  intros w res w' HI H. apply resolve_resolved in H.
  eapply resolved_sizes; eauto.
Qed.

Lemma preserves_sizes_store tbl r : preserves sizes_ok (store tbl r).
Proof.
  intros w res w' HI H. apply store_inv in H.
  destruct H as [(_ & _ & ->) | (_ & _ & ->)]; exact HI.
Qed.

Lemma preserves_sizes_insert_returning tbl cols pk :
  preserves sizes_ok (insert_returning tbl cols pk).
Proof.
  intros w res w' HI H. apply insert_returning_inv in H.
  destruct H as [(_ & _ & ->) | (_ & _ & ->)]; exact HI.
Qed.

Lemma preserves_sizes_process_row prefix r :
  preserves sizes_ok (process_row prefix r).
Proof.
  apply preserves_process_row.
  - intros k vals _. apply preserves_sizes_resolve.
  - intros cols. apply preserves_sizes_insert_returning.
  - intros tbl cols _. apply preserves_sizes_store.
Qed.

Lemma import_loop_sizes fuel block_size prefix i_block w res w' :
  sizes_ok w -> import_loop fuel block_size prefix i_block w = Some (res, w') ->
  sizes_ok w'.
Proof.
  intros HI H.
  refine (proj1 (import_loop_along sizes_ok sizes_ok _ _ _ _ _ _
                   fuel block_size prefix i_block w res w' HI H)).
  - apply preserves_sizes_process_row.
  - intros w0 l H0. exact H0.
  - intros w0 H0. exact H0.
  - intros w0 i n H0. exact H0.
  - auto.
  - intros w0 H0. exact H0.
Qed.

(** ** Keys, tables and the invariant of a run *)

Lemma wk_bind k vals :
  well_keyed k vals ->
  bind_placeholders (kw_cols (searcher_of k)) vals = Some vals.
Proof. destruct 1; reflexivity. Qed.

Lemma wk_nonnull k vals :
  well_keyed k vals -> Forall (fun cv : string * value => snd cv <> VNull) vals.
Proof. destruct 1; repeat constructor; discriminate. Qed.

Lemma table_inj k k' :
  table (searcher_of k) = table (searcher_of k') -> k = k'.
Proof. destruct k, k'; cbn; congruence. Qed.

Lemma wk_new_row_matches k vals w :
  well_keyed k vals ->
  row_matches vals
    (new_row (table (searcher_of k)) (pk_col (searcher_of k)) vals w) = true.
Proof.
  intros H. apply (row_matches_iff _ _ (wk_nonnull _ _ H)).
  exact (proj1 (new_row_columns k vals vals w (wk_bind _ _ H))).
Qed.

Lemma wk_distinct k vals vals' w :
  well_keyed k vals -> well_keyed k vals' ->
  row_matches vals
    (new_row (table (searcher_of k)) (pk_col (searcher_of k)) vals' w) = true ->
  vals = vals'.
Proof.
  intros H H' M. apply (row_matches_iff _ _ (wk_nonnull _ _ H)) in M.
  inversion H; subst; inversion H'; subst; unfold columns_equal in M;
    cbn in M; unfold attack_key, name_key.
  - pose proof (M _ _ (or_introl eq_refl)) as M1.
    pose proof (M _ _ (or_intror (or_introl eq_refl))) as M2.
    pose proof (M _ _ (or_intror (or_intror (or_introl eq_refl)))) as M3.
    cbn in M1, M2, M3. congruence.
  - pose proof (M _ _ (or_introl eq_refl)) as M1. cbn in M1. congruence.
  - pose proof (M _ _ (or_introl eq_refl)) as M1. cbn in M1. congruence.
  - pose proof (M _ _ (or_introl eq_refl)) as M1. cbn in M1. congruence.
Qed.

Lemma fact_table_groups : fact_table "attack_groups".
Proof. intros []; discriminate. Qed.

Lemma fact_table_assoc tbl :
  In tbl ["group_launch_places"; "group_targets"; "group_missiles"]%string ->
  fact_table tbl.
Proof.
  cbn. intros [<- | [<- | [<- | []]]]; intros []; discriminate.
Qed.

Lemma grows_refl db : grows db db.
Proof. intros t. exists []. now rewrite app_nil_r. Qed.

Lemma grows_upd db tbl r : grows db (upd tbl (db tbl ++ [r]) db).
Proof.
  intros t. unfold upd. destruct (String.eqb_spec t tbl) as [-> | N].
  - now exists [r].
  - exists []. now rewrite app_nil_r.
Qed.

Lemma grows_in db db' t r : grows db db' -> In r (db t) -> In r (db' t).
Proof.
  intros G H. destruct (G t) as [added ->]. apply in_or_app. now left.
Qed.

Lemma find_app_some {A} f (l l' : list A) x :
  List.find f l = Some x -> List.find f (l ++ l') = Some x.
Proof.
  induction l as [|a l IH]; cbn; [discriminate |].
  destruct (f a); auto.
Qed.

Lemma find_app_none {A} f (l l' : list A) :
  List.find f l = None -> List.find f (l ++ l') = List.find f l'.
Proof.
  induction l as [|a l IH]; cbn; [reflexivity |].
  destruct (f a); [discriminate | auto].
Qed.

Lemma lookup_pk_grows k vals db db' v :
  grows db db' -> lookup_pk k vals db = Some v -> lookup_pk k vals db' = Some v.
Proof.
  intros G. unfold lookup_pk.
  destruct (bind_placeholders (kw_cols (searcher_of k)) vals) as [conds|];
    [| discriminate].
  destruct (G (table (searcher_of k))) as [added ->].
  destruct (List.find (row_matches conds) (db (table (searcher_of k)))) as [r|] eqn:F;
    [| discriminate].
  now rewrite (find_app_some _ _ _ _ F).
Qed.

Lemma inserts_for_app k vals l1 l2 :
  inserts_for k vals (l1 ++ l2) = inserts_for k vals l1 + inserts_for k vals l2.
Proof. unfold inserts_for. now rewrite filter_app, length_app. Qed.

Lemma inserts_for_pos k vals l :
  well_keyed k vals -> 0 < inserts_for k vals l ->
  exists r, In (EvInsert (table (searcher_of k)) r) l /\ row_matches vals r = true.
Proof.
  intros W. unfold inserts_for. induction l as [|ev l IH]; cbn; [lia |].
  destruct (inserts_key k vals ev) eqn:E.
  - intros _. unfold inserts_key in E. rewrite (wk_bind _ _ W) in E.
    destruct ev; try discriminate.
    apply andb_true_iff in E. destruct E as [E1 E2].
    apply String.eqb_eq in E1. subst. eauto.
  - intros H. destruct (IH H) as (r & Hin & Hr). eauto.
Qed.

(** One stretch of a run keeps the invariant when its events are backed
    by the tables: the tables only grow, what is cached was resolved, what
    was resolved is what a search finds, what was inserted is there, and a
    key is inserted only when no search found it. *)
Lemma run_inv_step w w' seg :
  run_inv w ->
  log w' = log w ++ seg ->
  grows (current w) (current w') ->
  (forall k vals v,
     In (vals, v) (caches w' k) ->
     In (vals, v) (caches w k) \/ In (EvResolved k vals v) seg) ->
  (forall k vals v,
     In (EvResolved k vals v) seg ->
     well_keyed k vals /\ lookup_pk k vals (current w') = Some v) ->
  (forall tbl r, In (EvInsert tbl r) seg -> In r (current w' tbl)) ->
  (forall k vals,
     well_keyed k vals ->
     inserts_for k vals seg = 0 \/
     (inserts_for k vals seg = 1 /\ lookup_pk k vals (current w) = None)) ->
  run_inv w'.
Proof.
  intros [IC IR II IO] L G C R N O. constructor.
  - intros k vals v H. destruct (C _ _ _ H) as [H' | H'].
    + destruct (IC _ _ _ H') as [W Lk]. split; [exact W |].
      now apply (lookup_pk_grows _ _ _ _ _ G).
    + now apply R.
  - intros k vals v H. rewrite L in H. apply in_app_or in H.
    destruct H as [H | H].
    + destruct (IR _ _ _ H) as [W Lk]. split; [exact W |].
      now apply (lookup_pk_grows _ _ _ _ _ G).
    + now apply R.
  - intros tbl r H. rewrite L in H. apply in_app_or in H.
    destruct H as [H | H].
    + apply (grows_in _ _ _ _ G). now apply II.
    + now apply N.
  - intros k vals W. rewrite L, inserts_for_app.
    destruct (O _ _ W) as [-> | [-> Lk]].
    + pose proof (IO _ _ W). lia.
    + destruct (Nat.eq_0_gt_0_cases (inserts_for k vals (log w))) as [-> | P];
        [lia |].
      exfalso. destruct (inserts_for_pos _ _ _ W P) as (r & Hin & Hr).
      apply II in Hin. unfold lookup_pk in Lk. rewrite (wk_bind _ _ W) in Lk.
      destruct (List.find (row_matches vals) (current w (table (searcher_of k))))
        as [r'|] eqn:F; [discriminate |].
      pose proof (find_none _ _ F _ Hin). congruence.
Qed.

Lemma in_singleton {A} (x y : A) : In x [y] -> x = y.
Proof. intros [H | []]. now symmetry. Qed.

Lemma cached_in k c w k0 x :
  In x (caches (cached k c w) k0) -> (k0 = k /\ In x c) \/ In x (caches w k0).
Proof.
  cbn. destruct (kind_eqb k0 k) eqn:K; [| now right].
  left. split; [| assumption]. destruct k0, k; cbn in K; congruence.
Qed.

(** A call of a memoised searcher keeps the invariant. *)
Lemma resolve_run_inv k vals :
  well_keyed k vals -> preserves run_inv (resolve k vals).
Proof.
  intros W w res w' HI H. apply resolve_resolved in H.
  pose proof (wk_bind _ _ W) as HB.
  destruct H as [v G | v w1 G S | e w1 G S].
  - (* hit *)
    apply run_inv_step with (w := w) (seg := [EvResolved k vals v]); auto.
    + apply grows_refl.
    + intros k0 vals0 v0 Hin. apply cached_in in Hin.
      destruct Hin as [[-> Hin] | Hin]; [| now left].
      apply cache_touch_in in Hin.
      destruct Hin as [E | Hin]; [inversion E; subst; right | left]; auto.
      now left.
    + intros k0 vals0 v0 Hin. apply in_singleton in Hin. inversion Hin; subst.
      split; [exact W |]. apply (inv_cache _ HI). now apply cache_get_in.
    + intros tbl r Hin. apply in_singleton in Hin. discriminate.
  - (* miss, the search returns *)
    remember (Ok v) as res eqn:Eres.
    destruct S as [B | conds r B F | conds B F A | conds B F A];
      try discriminate; rewrite HB in B; inversion B; subst conds; clear B;
      inversion Eres; subst v; clear Eres.
    + (* found *)
      apply run_inv_step with (w := w)
        (seg := [EvSelect (table (searcher_of k)) vals;
                 EvResolved k vals (row_get (pk_col (searcher_of k)) r)]); auto.
      * cbn. now rewrite <- app_assoc.
      * apply grows_refl.
      * intros k0 vals0 v0 Hin. apply cached_in in Hin.
        destruct Hin as [[-> Hin] | Hin]; [| now left].
        apply cache_put_in in Hin.
        destruct Hin as [E | Hin]; [inversion E; subst; right | left]; auto.
        cbn. auto.
      * intros k0 vals0 v0 [Hin | Hin]; [discriminate |].
        apply in_singleton in Hin. inversion Hin; subst.
        split; [exact W |]. cbn. unfold lookup_pk. now rewrite HB, F.
      * intros tbl r0 [Hin | Hin]; [discriminate |].
        apply in_singleton in Hin. discriminate.
    + (* inserted *)
      set (tbl := table (searcher_of k)) in *.
      set (r := new_row tbl (pk_col (searcher_of k)) vals w) in *.
      apply run_inv_step with (w := w)
        (seg := [EvSelect tbl vals; EvInsert tbl r;
                 EvResolved k vals (VInt (sequences w tbl))]); auto.
      * cbn. now rewrite <- !app_assoc.
      * cbn. apply grows_upd.
      * intros k0 vals0 v0 Hin. apply cached_in in Hin.
        destruct Hin as [[-> Hin] | Hin]; [| now left].
        apply cache_put_in in Hin.
        destruct Hin as [E | Hin]; [inversion E; subst; right | left]; auto.
        cbn. auto.
      * intros k0 vals0 v0 [Hin | [Hin | Hin]]; try discriminate.
        apply in_singleton in Hin. inversion Hin; subst.
        split; [exact W |]. cbn. unfold lookup_pk. rewrite HB.
        fold tbl. rewrite upd_same. rewrite (find_app_none _ _ _ F).
        cbn [List.find]. subst r tbl. rewrite (wk_new_row_matches _ _ w W).
        cbn [option_map]. f_equal.
        exact (proj1 (proj2 (new_row_columns k vals vals w HB))).
      * intros tbl0 r0 [Hin | [Hin | Hin]]; try discriminate.
        -- inversion Hin; subst. cbn. rewrite upd_same.
           apply in_or_app. right. now left.
        -- apply in_singleton in Hin. discriminate.
      * intros k0 vals0 W0. unfold inserts_for. cbn [filter].
        destruct (inserts_key k0 vals0 (EvInsert tbl r)) eqn:E; [right | left; reflexivity].
        unfold inserts_key in E. rewrite (wk_bind _ _ W0) in E.
        apply andb_true_iff in E. destruct E as [E1 E2].
        apply String.eqb_eq in E1. apply table_inj in E1. subst k0.
        subst r tbl. apply (wk_distinct _ _ _ _ W0 W) in E2. subst vals0.
        split; [reflexivity |].
        unfold lookup_pk. now rewrite HB, F.
  - (* the search raises *)
    remember (Raise e) as res eqn:Eres.
    destruct S as [B | conds r B F | conds B F A | conds B F A];
      try discriminate.
    + exact HI.
    + rewrite HB in B. inversion B; subst conds; clear B.
      set (tbl := table (searcher_of k)) in *.
      set (r := new_row tbl (pk_col (searcher_of k)) vals w) in *.
      apply run_inv_step with (w := w)
        (seg := [EvSelect tbl vals; EvRejected tbl r]); auto.
      * cbn. now rewrite <- !app_assoc.
      * apply grows_refl.
      * intros k0 vals0 v0 [Hin | [Hin | []]]; discriminate.
      * intros tbl0 r0 [Hin | [Hin | []]]; discriminate.
Qed.

(** An insert into a table that no searcher reads keeps the invariant. *)
Lemma store_run_inv tbl r :
  fact_table tbl -> preserves run_inv (store tbl r).
Proof.
  intros HF w res w' HI H. apply store_inv in H.
  destruct H as [(_ & _ & ->) | (_ & _ & ->)].
  - apply run_inv_step with (w := w) (seg := [EvInsert tbl r]); auto.
    + cbn. apply grows_upd.
    + intros k vals v Hin. apply in_singleton in Hin. discriminate.
    + intros tbl0 r0 Hin. apply in_singleton in Hin. inversion Hin; subst.
      cbn. rewrite upd_same. apply in_or_app. right. now left.
    + intros k vals W. left. unfold inserts_for, inserts_key. cbn [filter].
      rewrite (wk_bind _ _ W).
      destruct (String.eqb_spec tbl (table (searcher_of k))) as [E | N];
        [| reflexivity].
      exfalso. now apply (HF k).
  - apply run_inv_step with (w := w) (seg := [EvRejected tbl r]); auto.
    + apply grows_refl.
    + intros k vals v Hin. apply in_singleton in Hin. discriminate.
    + intros tbl0 r0 Hin. apply in_singleton in Hin. discriminate.
Qed.

Lemma run_inv_same w w' :
  current w' = current w -> caches w' = caches w -> log w' = log w ->
  run_inv w -> run_inv w'.
Proof.
  intros C K L [IC IR II IO]. constructor; rewrite ?C, ?K, ?L; auto.
Qed.

Lemma insert_returning_run_inv tbl cols pk :
  fact_table tbl -> preserves run_inv (insert_returning tbl cols pk).
Proof.
  intros HF. unfold insert_returning.
  apply preserves_bind.
  - intros w res w' HI H. unfold nextval in H. inversion H; subst.
    now apply (run_inv_same w).
  - intros key. apply preserves_bind; [now apply store_run_inv |].
    intros _. apply preserves_ret.
Qed.

Lemma process_row_run_inv prefix r : preserves run_inv (process_row prefix r).
Proof.
  apply preserves_process_row.
  - intros k vals W. now apply resolve_run_inv.
  - intros cols. apply insert_returning_run_inv, fact_table_groups.
  - intros tbl cols Hin. apply store_run_inv. now apply fact_table_assoc.
Qed.

(** ** The invariant along the loop *)

Lemma run_inv_consistent w : run_inv w -> consistent_log (log w).
Proof.
  intros [IC IR II IO]. split; [| split].
  - intros k vals v1 v2 H1 H2.
    destruct (IR _ _ _ H1) as [_ L1]. destruct (IR _ _ _ H2) as [_ L2].
    congruence.
  - intros k vals v H. now destruct (IR _ _ _ H).
  - exact IO.
Qed.

(** a commit, a rollback or a report changes nothing of it *)
Lemma consistent_log_boundary l ev :
  ~ inner ev -> consistent_log l -> consistent_log (l ++ [ev]).
Proof.
  intros Hb (H1 & H2 & H3).
  assert (Hres : forall k vals v,
             In (EvResolved k vals v) (l ++ [ev]) -> In (EvResolved k vals v) l).
  { intros k vals v H. apply in_app_or in H. destruct H as [H | H]; [exact H |].
    apply in_singleton in H. subst ev. exfalso. apply Hb. exact I. }
  split; [| split].
  - intros k vals v1 v2 A B. eapply H1; eauto.
  - intros k vals v A. eapply H2; eauto.
  - intros k vals W. rewrite inserts_for_app.
    replace (inserts_for k vals [ev]) with 0.
    + specialize (H3 _ _ W). lia.
    + destruct ev; try reflexivity. exfalso. apply Hb. exact I.
Qed.

Lemma run_inv_boundary w w' ev :
  ~ inner ev ->
  current w' = current w -> caches w' = caches w -> log w' = log w ++ [ev] ->
  run_inv w -> run_inv w'.
Proof.
  intros Hb C K L HI.
  apply run_inv_step with (w := w) (seg := [ev]); auto.
  - rewrite C. apply grows_refl.
  - intros k vals v H. rewrite K in H. now left.
  - intros k vals v H. apply in_singleton in H. subst ev.
    exfalso. apply Hb. exact I.
  - intros tbl r H. apply in_singleton in H. subst ev.
    exfalso. apply Hb. exact I.
  - intros k vals W. left. destruct ev; try reflexivity.
    exfalso. apply Hb. exact I.
Qed.

Lemma import_loop_run_inv fuel block_size prefix i_block w res w' :
  run_inv w -> import_loop fuel block_size prefix i_block w = Some (res, w') ->
  consistent_log (log w') /\ (res = Ok tt -> run_inv w').
Proof.
  intros HI H.
  refine (import_loop_along run_inv (fun w => consistent_log (log w))
            _ _ _ _ _ _ fuel block_size prefix i_block w res w' HI H).
  - apply process_row_run_inv.
  - intros w0 l H0. now apply (run_inv_same w0).
  - intros w0 H0. apply (run_inv_boundary w0 _ EvCommit); auto.
  - intros w0 i n H0. apply (run_inv_boundary w0 _ (EvPrint i n)); auto.
  - apply run_inv_consistent.
  - intros w0 H0. cbn. apply consistent_log_boundary; [auto |].
    now apply run_inv_consistent.
Qed.

(** At the start of a process nothing is cached and nothing is logged. *)
Lemma run_inv_fresh w :
  (forall k, caches w k = []) -> log w = [] -> run_inv w.
Proof.
  intros K L. constructor.
  - intros k vals v H. rewrite K in H. contradiction.
  - intros k vals v H. rewrite L in H. contradiction.
  - intros tbl r H. rewrite L in H. contradiction.
  - intros k vals W. rewrite L. cbn. lia.
Qed.

(** What [resolve] does with a key it resolved before in the run. *)
Lemma resolve_again k vals w v0 :
  run_inv w -> In (EvResolved k vals v0) (log w) ->
  exists w',
    resolve k vals w = (Ok v0, w') /\
    current w' = current w /\
    (exists seg, log w' = log w ++ seg /\
                 forall tbl r, ~ In (EvInsert tbl r) seg).
Proof.
  intros HI Hlog.
  destruct (inv_resolved _ HI _ _ _ Hlog) as [W Lk].
  pose proof (wk_bind _ _ W) as HB.
  destruct (resolve k vals w) as [res w'] eqn:E.
  apply resolve_resolved in E. exists w'.
  destruct E as [v G | v w1 G S | e w1 G S].
  - apply cache_get_in in G. destruct (inv_cache _ HI _ _ _ G) as [_ Lk'].
    assert (v = v0) by congruence. subst v.
    split; [reflexivity |]. split; [reflexivity |].
    exists [EvResolved k vals v0]. split; [reflexivity |].
    intros tbl r H. apply in_singleton in H. discriminate.
  - unfold lookup_pk in Lk. rewrite HB in Lk.
    remember (Ok v) as res eqn:Eres.
    destruct S as [B | conds r B F | conds B F A | conds B F A];
      try discriminate; rewrite HB in B; inversion B; subst conds; clear B;
      inversion Eres; subst v; clear Eres.
    + rewrite F in Lk. cbn in Lk. inversion Lk; subst v0.
      split; [reflexivity |]. split; [reflexivity |].
      exists [EvSelect (table (searcher_of k)) vals;
              EvResolved k vals (row_get (pk_col (searcher_of k)) r)].
      split; [cbn; now rewrite <- app_assoc |].
      intros tbl r0 [H | H]; [discriminate |].
      apply in_singleton in H. discriminate.
    + rewrite F in Lk. discriminate.
  - exfalso. unfold lookup_pk in Lk. rewrite HB in Lk.
    remember (Raise e) as res eqn:Eres.
    destruct S as [B | conds r B F | conds B F A | conds B F A];
      try discriminate.
    + congruence.
    + rewrite HB in B. inversion B; subst conds. rewrite F in Lk. discriminate.
Qed.

(** A key that is not cached is searched in the table, and the search
    gives the identity the tables hold. *)
Lemma resolve_requery k vals w v w' :
  run_inv w -> well_keyed k vals ->
  cache_get vals (caches w k) = None ->
  resolve k vals w = (Ok v, w') ->
  (exists seg, log w' = log w ++ seg /\
               In (EvSelect (table (searcher_of k)) vals) seg) /\
  lookup_pk k vals (current w') = Some v.
Proof.
  intros HI W G H.
  pose proof (resolve_run_inv k vals W w _ _ HI H) as HI'.
  pose proof (wk_bind _ _ W) as HB.
  apply resolve_resolved in H.
  remember (Ok v) as res eqn:Eres.
  destruct H as [v1 G1 | v1 w1 G1 S | e w1 G1 S]; try congruence.
  inversion Eres; subst v1. clear Eres.
  assert (Hlast : In (EvResolved k vals v)
                    (log (logged [EvResolved k vals v]
                            (cached k (cache_put (maxsize k) vals v (caches w1 k)) w1)))).
  { cbn. apply in_or_app. right. now left. }
  split; [| exact (proj2 (inv_resolved _ HI' _ _ _ Hlast))].
  remember (Ok v) as res eqn:Eres.
  destruct S as [B | conds r B F | conds B F A | conds B F A];
    try discriminate; rewrite HB in B; inversion B; subst conds.
  - eexists. split; [cbn; rewrite <- app_assoc; reflexivity |]. now left.
  - eexists. split; [cbn; rewrite <- !app_assoc; reflexivity |]. now left.
Qed.

(** ** One record, processed without an exception *)

Lemma process_row_unfold prefix r :
  process_row prefix r =
  bind (lift (get_datetime (time_start r))) (fun s =>
  bind (lift (get_datetime (time_end r))) (fun e =>
  bind (get_attack_id s e (prefix ++ source r)) (fun aid =>
  bind (insert_returning "attack_groups" (group_cols aid r) "group_id") (fun gid =>
  bind (assoc_loop MPlaces gid (PyStr.split (launch_place r) sep_and)) (fun _ =>
  bind (assoc_loop MTargets gid (PyStr.split (target r) sep_and)) (fun _ =>
  assoc_loop MMissiles gid (PyStr.split (model r) sep_and))))))).
Proof. reflexivity. Qed.

Lemma resolve_tables k vals w res w' :
  resolve k vals w = (res, w') ->
  grows (current w) (current w') /\
  forall t, t <> table (searcher_of k) -> current w' t = current w t.
Proof.
  intros H. apply resolve_resolved in H.
  destruct H as [v G | v w1 G S | e w1 G S].
  - split; [apply grows_refl | reflexivity].
  - destruct S; cbn; (split; [try apply grows_refl; try apply grows_upd |]);
      intros t Ht; try reflexivity; now apply upd_other.
  - destruct S; cbn; (split; [try apply grows_refl; try apply grows_upd |]);
      intros t Ht; try reflexivity; now apply upd_other.
Qed.

Lemma store_ok tbl r w w' :
  store tbl r w = (Ok tt, w') ->
  current w' tbl = current w tbl ++ [r] /\
  (forall t, t <> tbl -> current w' t = current w t) /\
  grows (current w) (current w').
Proof.
  intros H. apply store_inv in H.
  destruct H as [(_ & _ & ->) | (_ & E & _)]; [| discriminate].
  cbn. split; [apply upd_same |]. split; [| apply grows_upd].
  intros t Ht. now apply upd_other.
Qed.

Lemma grows_trans a b c : grows a b -> grows b c -> grows a c.
Proof.
  intros G1 G2 t. destruct (G1 t) as [x Hx]. destruct (G2 t) as [y Hy].
  exists (x ++ y). now rewrite Hy, Hx, app_assoc.
Qed.

Lemma multi_table_fact f : fact_table (multi_table f).
Proof. destruct f; intros []; discriminate. Qed.

Lemma multi_kind_keyed f name : well_keyed (multi_kind f) (name_key (multi_kind f) name).
Proof. destruct f; constructor. Qed.

Lemma names_resolved_grows f db db' names ids :
  grows db db' -> names_resolved f db names ids -> names_resolved f db' names ids.
Proof.
  intros G H. induction H; constructor; auto.
  now apply (lookup_pk_grows _ _ _ _ _ G).
Qed.

(** A loop over the names of a field: every name is resolved and gets one
    association row, in the order of the names. *)
Lemma assoc_loop_ok f gid names :
  forall w w',
    run_inv w -> assoc_loop f gid names w = (Ok tt, w') ->
    run_inv w' /\ grows (current w) (current w') /\
    (exists ids,
       names_resolved f (current w') names ids /\
       current w' (multi_table f) =
       current w (multi_table f) ++ map (assoc_row f gid) ids) /\
    (forall t, t <> multi_table f -> t <> table (searcher_of (multi_kind f)) ->
               current w' t = current w t).
Proof.
  induction names as [|name names IH]; intros w w' HI H.
  - inversion H; subst. split; [exact HI |]. split; [apply grows_refl |].
    split; [| reflexivity]. exists []. split; [constructor |].
    cbn. now rewrite app_nil_r.
  - unfold assoc_loop in H. cbn [for_each] in H. fold (assoc_loop f gid names) in H.
    apply bind_ok_inv in H. destruct H as (u & w2 & H12 & H3).
    apply bind_ok_inv in H12. destruct H12 as (id & w1 & H1 & H2).
    pose proof (multi_kind_keyed f name) as W.
    pose proof (resolve_run_inv _ _ W _ _ _ HI H1) as HI1.
    pose proof (store_run_inv _ _ (multi_table_fact f) _ _ _ HI1 H2) as HI2.
    destruct (IH _ _ HI2 H3) as (HI' & G3 & (ids & R3 & T3) & O3).
    destruct (resolve_tables _ _ _ _ _ H1) as [G1 O1].
    destruct u. destruct (store_ok _ _ _ _ H2) as (T2 & O2 & G2).
    assert (Hid : lookup_pk (multi_kind f) (name_key (multi_kind f) name) (current w1)
                  = Some id).
    { apply resolve_resolved in H1.
      apply (inv_resolved _ HI1).
      inversion H1; subst; cbn; apply in_or_app; right; now left. }
    split; [exact HI' |].
    split; [eapply grows_trans; [exact G1 |]; eapply grows_trans; eauto |].
    split.
    + exists (id :: ids). split.
      * constructor; [| exact R3].
        apply (lookup_pk_grows _ _ (current w1)); [| exact Hid].
        eapply grows_trans; eauto.
      * rewrite T3, T2, O1.
        -- cbn [map]. now rewrite <- app_assoc.
        -- intros E. symmetry in E. now apply (multi_table_fact f) in E.
    + intros t Ht1 Ht2. rewrite O3, O2, O1; auto.
Qed.

(** What a record adds to the tables when nothing raises: its period is
    resolved, one fact-group row with a fresh key refers to it, and each
    multi-valued field gets one association row per name, each with the
    key of the group and the key the name resolves to. *)
Lemma process_row_ok prefix r w w' :
  run_inv w -> process_row prefix r w = (Ok tt, w') ->
  run_inv w' /\
  exists s e aid gid,
    get_datetime (time_start r) = Ok s /\
    get_datetime (time_end r) = Ok e /\
    lookup_pk Attack (attack_key s e (prefix ++ source r)) (current w') = Some aid /\
    current w' "attack_groups"%string =
    current w "attack_groups"%string ++ [("group_id"%string, gid) :: group_cols aid r] /\
    forall f, exists ids,
      names_resolved f (current w') (PyStr.split (multi_field f r) sep_and) ids /\
      current w' (multi_table f) =
      current w (multi_table f) ++ map (assoc_row f gid) ids.
Proof.
  intros HI H. rewrite process_row_unfold in H.
  apply bind_ok_inv in H. destruct H as (s & w0 & Hs & H).
  unfold lift in Hs. inversion Hs; subst w0. clear Hs. rename H1 into Hs.
  apply bind_ok_inv in H. destruct H as (e & w0 & He & H).
  unfold lift in He. inversion He; subst w0. clear He. rename H1 into He.
  apply bind_ok_inv in H. destruct H as (aid & w1 & H1 & H).
  apply bind_ok_inv in H. destruct H as (gid & w2 & H2 & H).
  apply bind_ok_inv in H. destruct H as (u3 & w3 & H3 & H).
  apply bind_ok_inv in H. destruct H as (u4 & w4 & H4 & H5).
  destruct u3, u4.
  unfold get_attack_id in H1.
  pose proof (resolve_run_inv _ _ (wk_attack s e (prefix ++ source r)) _ _ _ HI H1) as HI1.
  pose proof (insert_returning_run_inv _ _ _ fact_table_groups _ _ _ HI1 H2) as HI2.
  destruct (assoc_loop_ok _ _ _ _ _ HI2 H3) as (HI3 & G3 & (ids3 & R3 & T3) & O3).
  destruct (assoc_loop_ok _ _ _ _ _ HI3 H4) as (HI4 & G4 & (ids4 & R4 & T4) & O4).
  destruct (assoc_loop_ok _ _ _ _ _ HI4 H5) as (HI5 & G5 & (ids5 & R5 & T5) & O5).
  destruct (resolve_tables _ _ _ _ _ H1) as [G1 O1].
  assert (Haid : lookup_pk Attack (attack_key s e (prefix ++ source r)) (current w1)
                 = Some aid).
  { apply resolve_resolved in H1. apply (inv_resolved _ HI1).
    inversion H1; subst; cbn; apply in_or_app; right; now left. }
  apply insert_returning_inv in H2.
  destruct H2 as [(_ & E2 & ->) | (_ & E2 & _)]; [| discriminate].
  inversion E2; subst gid. clear E2.
  set (gid := VInt (sequences w1 "attack_groups"%string)) in *.
  assert (G2 : grows (current w1)
                 (current (logged [EvInsert "attack_groups"
                                     (new_row "attack_groups" "group_id" (group_cols aid r) w1)]
                             (stored "attack_groups"
                                (new_row "attack_groups" "group_id" (group_cols aid r) w1)
                                (bumped "attack_groups" w1))))).
  { cbn. apply grows_upd. }
  split; [exact HI5 |].
  exists s, e, aid, gid.
  split; [exact Hs |]. split; [exact He |].
  split.
  { apply (lookup_pk_grows _ _ (current w1)); [| exact Haid].
    eapply grows_trans; [exact G2 |]. eapply grows_trans; [exact G3 |].
    eapply grows_trans; eauto. }
  split.
  { rewrite O5, O4, O3 by (cbn; discriminate).
    cbn [current logged stored with_log with_current bumped with_sequences]. rewrite upd_same.
    rewrite O1 by (cbn; discriminate). reflexivity. }
  intros f. destruct f; cbn [multi_field].
  - exists ids3. split.
    + apply (names_resolved_grows _ (current w3)); [| exact R3].
      eapply grows_trans; eauto.
    + rewrite O5, O4 by (cbn; discriminate). rewrite T3. cbn [current logged stored with_log with_current bumped with_sequences].
      rewrite upd_other by discriminate. rewrite O1 by (cbn; discriminate).
      reflexivity.
  - exists ids4. split.
    + apply (names_resolved_grows _ (current w4)); [| exact R4]. exact G5.
    + rewrite O5 by (cbn; discriminate). rewrite T4.
      rewrite O3 by (cbn; discriminate). cbn [current logged stored with_log with_current bumped with_sequences].
      rewrite upd_other by discriminate. rewrite O1 by (cbn; discriminate).
      reflexivity.
  - exists ids5. split; [exact R5 |].
    rewrite T5. rewrite O4, O3 by (cbn; discriminate). cbn [current logged stored with_log with_current bumped with_sequences].
    rewrite upd_other by discriminate. rewrite O1 by (cbn; discriminate).
    reflexivity.
Qed.

(** a key that a search finds is the key of a row with the given values *)
Lemma lookup_pk_row k vals db id :
  well_keyed k vals -> lookup_pk k vals db = Some id ->
  exists r, In r (db (table (searcher_of k))) /\ columns_equal vals r /\
            row_get (pk_col (searcher_of k)) r = id.
Proof.
  intros W H. unfold lookup_pk in H. rewrite (wk_bind _ _ W) in H.
  destruct (List.find (row_matches vals) (db (table (searcher_of k)))) as [r|] eqn:F;
    [| discriminate].
  inversion H; subst. apply find_some in F. destruct F as [F1 F2].
  exists r. split; [exact F1 |]. split; [| reflexivity].
  now apply (row_matches_iff _ _ (wk_nonnull _ _ W)).
Qed.

(** ** The order of the operations *)

Lemma ops_app l1 l2 : ops (l1 ++ l2) = ops l1 ++ ops l2.
Proof. unfold ops. apply flat_map_app. Qed.

Lemma prefix_of_refl {A} (l : list A) : prefix_of l l.
Proof. exists []. now rewrite app_nil_r. Qed.

Lemma prefix_of_nil {A} (l : list A) : prefix_of [] l.
Proof. now exists l. Qed.

Lemma prefix_of_app {A} (a b c : list A) : prefix_of b c -> prefix_of (a ++ b) (a ++ c).
Proof. intros [d ->]. exists d. now rewrite app_assoc. Qed.

Lemma prefix_of_app_r {A} (a b c : list A) : prefix_of a b -> prefix_of a (b ++ c).
Proof. intros [d ->]. exists (d ++ c). now rewrite app_assoc. Qed.

Lemma traced_prefix {A} (res : result A) o E : traced res o E -> prefix_of o E.
Proof. destruct res; cbn; [intros ->; apply prefix_of_refl | auto]. Qed.

Lemma linked_app cur l1 l2 :
  linked cur (l1 ++ l2) <-> linked cur l1 /\ linked (group_after cur l1) l2.
Proof.
  revert cur. induction l1 as [|ev l1 IH]; intros cur; cbn [app].
  - cbn. tauto.
  - destruct ev; cbn [linked group_after]; try apply IH.
    destruct (String.eqb tbl "attack_groups"); [apply IH |].
    destruct (is_assoc_table tbl); [| apply IH].
    rewrite IH. tauto.
Qed.

Lemma group_after_app cur l1 l2 :
  group_after cur (l1 ++ l2) = group_after (group_after cur l1) l2.
Proof.
  revert cur. induction l1 as [|ev l1 IH]; intros cur; cbn [app]; [reflexivity |].
  destruct ev; cbn [group_after]; try apply IH.
  destruct (String.eqb tbl "attack_groups"); apply IH.
Qed.

Lemma always_linked_app l1 l2 :
  always_linked l1 -> always_linked l2 -> always_linked (l1 ++ l2).
Proof. intros H1 H2 cur. apply linked_app. split; [apply H1 | apply H2]. Qed.

Lemma always_linked_nil : always_linked [].
Proof. intros cur. exact I. Qed.

Lemma quiet_ret {A} cur (a : A) : quiet cur (ret a) [].
Proof.
  intros w res w' H. inversion H; subst. exists [].
  rewrite app_nil_r. cbn. auto.
Qed.

Lemma quiet_bind {A B} cur (m : M A) (f : A -> M B) E1 E2 :
  quiet cur m E1 -> (forall a, quiet cur (f a) E2) ->
  quiet cur (bind m f) (E1 ++ E2).
Proof.
  intros Hm Hf w res w' H. apply bind_inv in H.
  destruct H as [(a & w1 & H1 & H2) | (e & H1 & ->)].
  - destruct (Hm _ _ _ H1) as (s1 & L1 & T1 & K1 & G1).
    destruct (Hf a _ _ _ H2) as (s2 & L2 & T2 & K2 & G2).
    exists (s1 ++ s2). cbn in T1. subst E1.
    split; [rewrite L2, L1; now rewrite app_assoc |].
    split.
    + rewrite ops_app. destruct res; cbn in *.
      * now rewrite T2.
      * now apply prefix_of_app.
    + split.
      * apply linked_app. rewrite G1. auto.
      * rewrite group_after_app, G1. exact G2.
  - destruct (Hm _ _ _ H1) as (s1 & L1 & T1 & K1 & G1).
    exists s1. split; [exact L1 |]. split; [| auto].
    cbn in *. now apply prefix_of_app_r.
Qed.

Lemma quiet_for_each {A} cur (l : list A) body (E : A -> list op) :
  (forall x, quiet cur (body x) (E x)) ->
  quiet cur (for_each l body) (flat_map E l).
Proof.
  intros Hb. induction l as [|x l IH]; cbn [for_each flat_map].
  - apply quiet_ret.
  - apply quiet_bind; [apply Hb | intros _; exact IH].
Qed.

Lemma lookup_table_quiet k :
  String.eqb (table (searcher_of k)) "attack_groups" = false /\
  is_assoc_table (table (searcher_of k)) = false.
Proof. destruct k; split; reflexivity. Qed.

Lemma quiet_resolve cur k vals : quiet cur (resolve k vals) [resolve_op k vals].
Proof.
  intros w res w' H. apply resolve_resolved in H.
  destruct (lookup_table_quiet k) as [Q1 Q2].
  destruct H as [v G | v w1 G S | e w1 G S].
  - exists [EvResolved k vals v]. cbn. auto.
  - remember (Ok v) as res eqn:Eres.
    destruct S as [B | conds r B F | conds B F A | conds B F A]; try discriminate.
    + eexists. split; [cbn; rewrite <- app_assoc; reflexivity |].
      cbn. auto.
    + eexists. split; [cbn; rewrite <- !app_assoc; reflexivity |].
      unfold ops. cbn [flat_map op_of linked group_after app traced].
      rewrite !Q1, !Q2. cbn. auto.
  - remember (Raise e) as res eqn:Eres.
    destruct S as [B | conds r B F | conds B F A | conds B F A]; try discriminate.
    + exists []. rewrite app_nil_r. cbn. split; [reflexivity |].
      split; [apply prefix_of_nil | auto].
    + eexists. split; [cbn; rewrite <- !app_assoc; reflexivity |].
      cbn. split; [apply prefix_of_nil | auto].
Qed.

Lemma quiet_assoc_insert f gid id :
  quiet (Some gid) (insert (multi_table f) (assoc_row f gid id))
    [OpAssoc (multi_table f)].
Proof.
  intros w res w' H. unfold insert in H. apply store_inv in H.
  destruct H as [(_ & -> & ->) | (_ & -> & ->)].
  - eexists. split; [reflexivity |]. destruct f; cbn; auto.
  - eexists. split; [reflexivity |]. cbn.
    split; [apply prefix_of_nil | auto].
Qed.

Lemma quiet_assoc_loop f gid names :
  quiet (Some gid) (assoc_loop f gid names) (names_ops f names).
Proof.
  unfold assoc_loop, names_ops. apply quiet_for_each. intros name.
  apply (quiet_bind _ _ _ [_] [_]).
  - destruct f; apply (quiet_resolve (Some gid)).
  - intros id. apply quiet_assoc_insert.
Qed.

Lemma quiet_all {A} (m : M A) E :
  (forall cur, quiet cur m E) ->
  forall w res w', m w = (res, w') ->
    exists seg,
      log w' = log w ++ seg /\ traced res (ops seg) E /\
      forall cur, linked cur seg /\ group_after cur seg = cur.
Proof.
  intros Hq w res w' H.
  destruct (Hq None _ _ _ H) as (seg & L & T & _).
  exists seg. split; [exact L |]. split; [exact T |].
  intros cur. destruct (Hq cur _ _ _ H) as (seg' & L' & _ & K & G).
  rewrite L in L'. apply app_inv_head in L'. subst seg'. auto.
Qed.

(** One record: its operations in their order, the fact-group row before
    the association rows that carry its key. *)
Lemma process_row_trace prefix r w res w' :
  process_row prefix r w = (res, w') ->
  exists seg,
    log w' = log w ++ seg /\
    traced res (ops seg) (record_ops prefix r) /\
    always_linked seg.
Proof.
  rewrite process_row_unfold. unfold record_ops. intros H.
  apply bind_inv in H. destruct H as [(s & w0 & Hs & H) | (e & Hs & ->)].
  2:{ unfold lift in Hs. inversion Hs; subst. exists []. rewrite app_nil_r.
      split; [reflexivity |]. split; [apply prefix_of_nil | apply always_linked_nil]. }
  unfold lift in Hs. inversion Hs; subst w0. clear Hs. rewrite H1.
  apply bind_inv in H. destruct H as [(e & w0 & He & H) | (e & He & ->)].
  2:{ unfold lift in He. inversion He; subst. exists []. rewrite app_nil_r.
      split; [reflexivity |]. split; [apply prefix_of_nil | apply always_linked_nil]. }
  unfold lift in He. inversion He; subst w0. clear He. rewrite H2.
  set (key := attack_key s e (prefix ++ source r)).
  set (E3 := names_ops MPlaces (PyStr.split (launch_place r) sep_and) ++
             names_ops MTargets (PyStr.split (target r) sep_and) ++
             names_ops MMissiles (PyStr.split (model r) sep_and)).
  apply bind_inv in H. destruct H as [(aid & w1 & Ha & H) | (ex & Ha & ->)].
  2:{ destruct (quiet_all _ _ (fun cur => quiet_resolve cur Attack key) _ _ _ Ha)
        as (seg1 & L1 & T1 & K1).
      exists seg1. split; [exact L1 |]. split.
      - cbn in *. change (OpPeriod key :: OpGroup (VText (launched r)) (VText (destroyed r)) :: E3)
          with ([OpPeriod key] ++ OpGroup (VText (launched r)) (VText (destroyed r)) :: E3).
        now apply prefix_of_app_r.
      - intros cur. apply K1. }
  destruct (quiet_all _ _ (fun cur => quiet_resolve cur Attack key) _ _ _ Ha)
    as (seg1 & L1 & T1 & K1).
  cbn in T1.
  apply bind_inv in H. destruct H as [(gid & w2 & Hg & H) | (ex & Hg & ->)].
  2:{ apply insert_returning_inv in Hg.
      destruct Hg as [(_ & Eg & _) | (_ & _ & ->)]; [discriminate |].
      eexists. split; [cbn; rewrite L1, <- app_assoc; reflexivity |].
      split.
      - cbn. rewrite ops_app, T1. cbn.
        exists (OpGroup (VText (launched r)) (VText (destroyed r)) :: E3).
        reflexivity.
      - intros cur. apply linked_app. split; [apply K1 | exact I]. }
  apply insert_returning_inv in Hg.
  destruct Hg as [(_ & Eg & ->) | (_ & Eg & _)]; [| discriminate].
  inversion Eg; subst gid. clear Eg.
  set (gid := VInt (sequences w1 "attack_groups"%string)) in *.
  assert (Hq : quiet (Some gid)
                 (bind (assoc_loop MPlaces gid (PyStr.split (launch_place r) sep_and)) (fun _ =>
                  bind (assoc_loop MTargets gid (PyStr.split (target r) sep_and)) (fun _ =>
                  assoc_loop MMissiles gid (PyStr.split (model r) sep_and)))) E3).
  { apply quiet_bind; [apply quiet_assoc_loop | intros _].
    apply quiet_bind; [apply quiet_assoc_loop | intros _].
    apply quiet_assoc_loop. }
  destruct (Hq _ _ _ H) as (seg3 & L3 & T3 & K3 & G3).
  exists (seg1 ++ EvInsert "attack_groups"
                    (new_row "attack_groups" "group_id" (group_cols aid r) w1) :: seg3).
  split.
  { rewrite L3. cbn. rewrite L1. rewrite <- !app_assoc. reflexivity. }
  split.
  - rewrite ops_app, T1. cbn [app]. unfold ops at 1. cbn [flat_map].
    fold (ops seg3).
    replace (op_of (EvInsert "attack_groups"
                      (new_row "attack_groups" "group_id" (group_cols aid r) w1)))
      with [OpGroup (VText (launched r)) (VText (destroyed r))] by reflexivity.
    cbn [app]. destruct res; cbn in *.
    + now rewrite T3.
    + apply (prefix_of_app [_; _]). exact T3.
  - intros cur. apply linked_app. split; [apply K1 |].
    rewrite (proj2 (K1 cur)). exact K3.
Qed.

(** ** The order of the operations along the loop *)

Lemma firstn_add {A} a b (l : list A) :
  firstn (a + b) l = firstn a l ++ firstn b (skipn a l).
Proof.
  revert l. induction a as [|a IH]; intros l; [reflexivity |].
  destruct l as [|x l]; cbn.
  - now rewrite firstn_nil.
  - now rewrite IH.
Qed.

Lemma ops_boundary ev : ~ inner ev -> ops [ev] = [].
Proof. destruct ev; cbn; tauto. Qed.

Lemma always_linked_boundary ev : ~ inner ev -> always_linked [ev].
Proof. intros H cur. destruct ev; cbn in *; tauto. Qed.

Lemma trace_nothing {A} (res : result A) prefix w :
  exists k seg,
    log w = log w ++ seg /\
    data_iter w = skipn k (data_iter w) /\
    traced res (ops seg) (flat_map (record_ops prefix) (firstn k (data_iter w))) /\
    always_linked seg.
Proof.
  exists 0, []. rewrite app_nil_r.
  split; [reflexivity |]. split; [reflexivity |].
  split; [| apply always_linked_nil].
  destruct res; cbn; [reflexivity | apply prefix_of_nil].
Qed.

Lemma for_data_block_trace prefix data_block :
  forall n_rows w res w',
    for_data_block prefix data_block n_rows w = (res, w') ->
    exists k seg,
      log w' = log w ++ seg /\
      data_iter w' = skipn k (data_iter w) /\
      traced res (ops seg) (flat_map (record_ops prefix) (firstn k (data_iter w))) /\
      always_linked seg.
Proof.
  induction data_block as [|stop IH]; intros n_rows w res w' H;
    cbn [for_data_block] in H.
  - inversion H; subst. apply trace_nothing.
  - apply bind_inv in H. destruct H as [(r & w1 & H1 & H2) | (e & H1 & _)].
    2:{ apply next_row_inv in H1. destruct (data_iter w); destruct H1; discriminate. }
    apply next_row_inv in H1. destruct (data_iter w) as [|x rest] eqn:D.
    + destruct H1 as [E ->]. inversion E; subst r. inversion H2; subst.
      rewrite <- D. apply trace_nothing.
    + destruct H1 as [E ->]. inversion E; subst r.
      apply bind_inv in H2.
      destruct H2 as [(u & w2 & H2 & H3) | (e & H2 & ->)].
      * destruct (txn_process_row _ _ _ _ _ H2) as [D2 _].
        destruct (process_row_trace _ _ _ _ _ H2) as (s1 & L1 & T1 & K1).
        destruct (IH _ _ _ _ H3) as (k & s2 & L2 & D3 & T2 & K2).
        cbn in D2, L1, T1. rewrite D2 in D3, T2.
        exists (S k), (s1 ++ s2).
        split; [rewrite L2, L1; now rewrite app_assoc |].
        split; [exact D3 |].
        split; [| now apply always_linked_app].
        cbn [firstn flat_map]. rewrite ops_app, T1.
        destruct res; cbn in *; [now rewrite T2 | now apply prefix_of_app].
      * destruct (txn_process_row _ _ _ _ _ H2) as [D2 _].
        destruct (process_row_trace _ _ _ _ _ H2) as (s1 & L1 & T1 & K1).
        cbn in D2, L1, T1.
        exists 1, s1. split; [exact L1 |]. split; [exact D2 |].
        split; [| exact K1].
        cbn [firstn flat_map traced]. now rewrite app_nil_r.
Qed.

Lemma import_block_trace block_size prefix i_block w res w' :
  import_block block_size prefix i_block w = (res, w') ->
  exists k seg,
    log w' = log w ++ seg /\
    data_iter w' = skipn k (data_iter w) /\
    traced res (ops seg) (flat_map (record_ops prefix) (firstn k (data_iter w))) /\
    always_linked seg.
Proof.
  intros H. unfold import_block, islice in H.
  destruct (block_size <? 0)%Z.
  { inversion H; subst. apply trace_nothing. }
  cbn [bind ret] in H.
  destruct (Z.to_nat block_size) as [|stop].
  { cbn in H. inversion H; subst. apply trace_nothing. }
  cbn [islice_next] in H. unfold bind at 1 2 in H.
  destruct (next_row w) as [r w1] eqn:N. apply next_row_inv in N.
  destruct (data_iter w) as [|x rest] eqn:D; destruct N as [-> ->];
    cbn [ret fst snd] in H.
  { inversion H; subst. rewrite <- D. apply trace_nothing. }
  assert (Hbody : forall resb wb,
             for_block prefix x stop (with_data_iter rest w) = (resb, wb) ->
             exists k seg,
               log wb = log w ++ seg /\
               data_iter wb = skipn (S k) (x :: rest) /\
               traced resb (ops seg)
                 (flat_map (record_ops prefix) (firstn (S k) (x :: rest))) /\
               always_linked seg).
  { intros resb wb Hb. unfold for_block in Hb. apply bind_inv in Hb.
    destruct Hb as [(u & w2 & H2 & H3) | (e & H2 & ->)].
    - destruct (txn_process_row _ _ _ _ _ H2) as [D2 _].
      destruct (process_row_trace _ _ _ _ _ H2) as (s1 & L1 & T1 & K1).
      destruct (for_data_block_trace _ _ _ _ _ _ H3) as (k & s2 & L2 & D3 & T2 & K2).
      cbn in D2, L1, T1. rewrite D2 in D3, T2.
      exists k, (s1 ++ s2).
      split; [rewrite L2, L1; now rewrite app_assoc |].
      split; [exact D3 |].
      split; [| now apply always_linked_app].
      cbn [firstn flat_map]. rewrite ops_app, T1.
      destruct resb; cbn in *; [now rewrite T2 | now apply prefix_of_app].
    - destruct (txn_process_row _ _ _ _ _ H2) as [D2 _].
      destruct (process_row_trace _ _ _ _ _ H2) as (s1 & L1 & T1 & K1).
      cbn in D2, L1, T1.
      exists 0, s1. split; [exact L1 |]. split; [exact D2 |].
      split; [| exact K1].
      cbn [firstn flat_map traced]. now rewrite app_nil_r. }
  apply bind_inv in H.
  destruct H as [(n & w2 & H2 & H3) | (e & H2 & ->)].
  - apply with_conn_inv in H2.
    destruct H2 as [(a & w3 & H2 & E2 & ->) | (e & w3 & _ & E2 & _)];
      [| discriminate].
    inversion E2; subst a. clear E2.
    unfold bind, emit, ret in H3. inversion H3; subst. clear H3.
    destruct (Hbody _ _ H2) as (k & seg & L & Dk & T & K).
    exists (S k), (seg ++ [EvCommit] ++ [EvPrint i_block n]).
    split; [cbn; rewrite L; now rewrite <- !app_assoc |].
    split; [exact Dk |].
    split.
    + cbn in T. cbn [traced]. rewrite !ops_app, T.
      cbn. now rewrite app_nil_r.
    + apply always_linked_app; [exact K |].
      apply always_linked_app; apply always_linked_boundary; auto.
  - apply with_conn_inv in H2.
    destruct H2 as [(a & w3 & _ & E2 & _) | (e' & w3 & H2 & E2 & ->)];
      [discriminate |].
    inversion E2; subst e'.
    destruct (Hbody _ _ H2) as (k & seg & L & Dk & T & K).
    exists (S k), (seg ++ [EvRollback]).
    split; [cbn; rewrite L; now rewrite <- !app_assoc |].
    split; [exact Dk |].
    split.
    + cbn in T. cbn [traced]. rewrite ops_app. cbn. now rewrite app_nil_r.
    + apply always_linked_app; [exact K |].
      apply always_linked_boundary; auto.
Qed.

Lemma import_loop_trace fuel block_size prefix :
  forall i_block w res w',
    import_loop fuel block_size prefix i_block w = Some (res, w') ->
    exists k seg,
      log w' = log w ++ seg /\
      data_iter w' = skipn k (data_iter w) /\
      traced res (ops seg) (flat_map (record_ops prefix) (firstn k (data_iter w))) /\
      always_linked seg /\
      (res = Ok tt -> (0 < block_size)%Z -> data_iter w' = []).
Proof.
  induction fuel as [|fuel IH]; intros i_block w res w' H; [discriminate |].
  cbn [import_loop] in H.
  destruct (import_block block_size prefix i_block w) as [[[|]|e] w1] eqn:E.
  - destruct (import_block_trace _ _ _ _ _ _ E) as (k1 & s1 & L1 & D1 & T1 & K1).
    destruct (IH _ _ _ _ H) as (k2 & s2 & L2 & D2 & T2 & K2 & F2).
    exists (k1 + k2), (s1 ++ s2).
    split; [rewrite L2, L1; now rewrite app_assoc |].
    split; [rewrite D2, D1, skipn_skipn; f_equal; lia |].
    split; [| split; [now apply always_linked_app | exact F2]].
    rewrite firstn_add, flat_map_app, ops_app. cbn in T1. rewrite T1.
    rewrite D1 in T2.
    destruct res; cbn in *; [now rewrite T2 | now apply prefix_of_app].
  - inversion H; subst.
    destruct (import_block_trace _ _ _ _ _ _ E) as (k1 & s1 & L1 & D1 & T1 & K1).
    exists k1, s1.
    split; [exact L1 |]. split; [exact D1 |]. split; [exact T1 |].
    split; [exact K1 |].
    intros _ HB. apply block_stop in E. destruct E as (-> & _ & [E | E]); [lia | exact E].
  - inversion H; subst.
    destruct (import_block_trace _ _ _ _ _ _ E) as (k1 & s1 & L1 & D1 & T1 & K1).
    exists k1, s1.
    split; [exact L1 |]. split; [exact D1 |]. split; [exact T1 |].
    split; [exact K1 | discriminate].
Qed.

(** ** The caches and the history of the calls *)

Lemma cache_get_none_iff key c : cache_get key c = None <-> ~ In key (map fst c).
Proof.
  induction c as [|[k v] c IH]; cbn; [tauto |].
  destruct (params_eq_dec key k) as [-> | N].
  - split; [discriminate | intros H; exfalso; apply H; now left].
  - rewrite IH. split.
    + intros H [E | E]; [congruence | auto].
    + intros H E. apply H. now right.
Qed.

Lemma cache_remove_keys key c x :
  In x (map fst (cache_remove key c)) -> In x (map fst c) /\ x <> key.
Proof.
  induction c as [|[k v] c IH]; cbn; [tauto |].
  destruct (params_eq_dec key k) as [-> | N]; cbn.
  - intros H. destruct (IH H). auto.
  - intros [E | H]; [subst; split; [now left | congruence] |].
    destruct (IH H). auto.
Qed.

Lemma cache_remove_nodup key c :
  NoDup (map fst c) -> NoDup (map fst (cache_remove key c)).
Proof.
  induction c as [|[k v] c IH]; cbn; [auto |].
  intros H. inversion H; subst.
  destruct (params_eq_dec key k); cbn; [auto |].
  constructor; [| auto].
  intros E. apply cache_remove_keys in E. tauto.
Qed.

Lemma by_last_use_nodup h : NoDup (map fst (by_last_use h)).
Proof.
  induction h as [|[k v] h IH]; cbn; [constructor |].
  constructor.
  - intros E. apply cache_remove_keys in E. tauto.
  - now apply cache_remove_nodup.
Qed.

Lemma firstn_keys {A B} n (c : list (A * B)) x :
  In x (map fst (firstn n c)) -> In x (map fst c).
Proof.
  rewrite <- (firstn_skipn n c) at 2. rewrite map_app, in_app_iff. auto.
Qed.

(** Cutting a cache to its capacity before or after a key is taken out
    leaves the same entries in front. *)
Lemma cache_remove_firstn key c :
  NoDup (map fst c) ->
  forall n, firstn n (cache_remove key (firstn (S n) c))
            = firstn n (cache_remove key c).
Proof.
  induction c as [|[k v] c IH]; intros Hnd n; [reflexivity |].
  inversion Hnd as [| ? ? Hk Hc]; subst.
  cbn [firstn cache_remove].
  destruct (params_eq_dec key k) as [-> | N].
  - rewrite !cache_remove_miss.
    + apply firstn_all2. rewrite length_firstn. lia.
    + now apply cache_get_none_iff.
    + apply cache_get_none_iff. intros E. apply Hk. eapply firstn_keys, E.
  - destruct n as [|n]; [reflexivity |].
    cbn [firstn]. f_equal. now apply IH.
Qed.

Lemma lru_step_history m key v h :
  1 <= m ->
  firstn m ((key, v) :: cache_remove key (firstn m (by_last_use h)))
  = firstn m (by_last_use ((key, v) :: h)).
Proof.
  intros Hm. destruct m as [|m]; [lia |].
  cbn [by_last_use firstn]. f_equal.
  apply cache_remove_firstn, by_last_use_nodup.
Qed.

Lemma calls_app k l1 l2 : calls k (l1 ++ l2) = calls k l1 ++ calls k l2.
Proof. unfold calls. apply flat_map_app. Qed.

Lemma lru_inv_sizes w : lru_inv w -> sizes_ok w.
Proof. intros H k. rewrite (H k), length_firstn. lia. Qed.

(** events that are no return of a searcher leave the caches as they are *)
Lemma lru_inv_other w w' seg :
  caches w' = caches w -> log w' = log w ++ seg ->
  (forall k, calls k seg = []) ->
  lru_inv w -> lru_inv w'.
Proof.
  intros C L N H k. rewrite C, L, calls_app, N, app_nil_r. apply H.
Qed.

Lemma lru_inv_resolve k vals : preserves lru_inv (resolve k vals).
Proof.
  intros w res w' HI H. apply resolve_resolved in H.
  destruct res as [v|e].
  - destruct (resolved_cache _ _ _ _ _ (lru_inv_sizes _ HI) H) as [E1 E2].
    assert (L : exists seg, log w' = log w ++ seg ++ [EvResolved k vals v] /\
                            forall k0, calls k0 seg = []).
    { inversion H as [v0 G | v0 w1 G S |]; subst.
      - exists []. split; [reflexivity | reflexivity].
      - remember (Ok v) as r eqn:Er.
        destruct S as [B | conds r0 B F | conds B F A | conds B F A]; try discriminate.
        + eexists [_]. split; [cbn; now rewrite <- app_assoc | reflexivity].
        + eexists [_; _]. split; [cbn; now rewrite <- !app_assoc | reflexivity]. }
    destruct L as (seg & L & N).
    intros k0. rewrite L, !calls_app, N. cbn [app].
    destruct (kind_eqb k0 k) eqn:K.
    + assert (k0 = k) by (destruct k0, k; cbn in K; congruence). subst k0.
      unfold calls at 2. cbn [flat_map]. rewrite kind_eqb_refl. cbn [app].
      rewrite rev_app_distr. cbn [rev app].
      rewrite E1, (HI k). apply lru_step_history, maxsize_pos.
    + unfold calls at 2. cbn [flat_map].
      replace (kind_eqb k k0) with false
        by (destruct k0, k; cbn in *; congruence).
      cbn [app]. rewrite app_nil_r. rewrite E2; [apply HI |].
      intros ->. rewrite kind_eqb_refl in K. discriminate.
  - inversion H as [| | e0 w1 G S]; subst.
    remember (Raise e) as r eqn:Er.
    destruct S as [B | conds r0 B F | conds B F A | conds B F A]; try discriminate.
    + exact HI.
    + apply (lru_inv_other w _ [EvSelect (table (searcher_of k)) conds;
                                EvRejected (table (searcher_of k))
                                  (new_row (table (searcher_of k))
                                     (pk_col (searcher_of k)) conds w)]); auto.
      cbn. now rewrite <- app_assoc.
Qed.

Lemma lru_inv_store tbl r : preserves lru_inv (store tbl r).
Proof.
  intros w res w' HI H. apply store_inv in H.
  destruct H as [(_ & _ & ->) | (_ & _ & ->)].
  - now apply (lru_inv_other w _ [EvInsert tbl r]).
  - now apply (lru_inv_other w _ [EvRejected tbl r]).
Qed.

Lemma lru_inv_insert_returning tbl cols pk :
  preserves lru_inv (insert_returning tbl cols pk).
Proof.
  intros w res w' HI H. apply insert_returning_inv in H.
  destruct H as [(_ & _ & ->) | (_ & _ & ->)].
  - now apply (lru_inv_other w _ [EvInsert tbl (new_row tbl pk cols w)]).
  - now apply (lru_inv_other w _ [EvRejected tbl (new_row tbl pk cols w)]).
Qed.

Lemma lru_inv_process_row prefix r : preserves lru_inv (process_row prefix r).
Proof.
  apply preserves_process_row.
  - intros k vals _. apply lru_inv_resolve.
  - intros cols. apply lru_inv_insert_returning.
  - intros tbl cols _. apply lru_inv_store.
Qed.

Lemma import_loop_lru fuel block_size prefix i_block w res w' :
  lru_inv w -> import_loop fuel block_size prefix i_block w = Some (res, w') ->
  lru_inv w'.
Proof.
  intros HI H.
  refine (proj1 (import_loop_along lru_inv lru_inv _ _ _ _ _ _
                   fuel block_size prefix i_block w res w' HI H)).
  - apply lru_inv_process_row.
  - intros w0 l H0. exact H0.
  - intros w0 H0. now apply (lru_inv_other w0 _ [EvCommit]).
  - intros w0 i n H0. now apply (lru_inv_other w0 _ [EvPrint i n]).
  - auto.
  - intros w0 H0. now apply (lru_inv_other w0 _ [EvRollback]).
Qed.

Lemma lru_inv_fresh w : (forall k, caches w k = []) -> log w = [] -> lru_inv w.
Proof.
  intros C L k. rewrite C, L. cbn. now rewrite firstn_nil.
Qed.

(** ** What a record reads of the state *)



Lemma same_db_trans w1 w2 w3 : same_db w1 w2 -> same_db w2 w3 -> same_db w1 w3.
Proof.
  unfold same_db. intros (A & B & C & D) (A' & B' & C' & D').
  repeat split; congruence.
Qed.

Lemma same_db_data_iter l w : same_db (with_data_iter l w) w.
Proof. unfold same_db. cbn. auto. Qed.

Lemma same_db_log l w : same_db (with_log l w) w.
Proof. unfold same_db. cbn. auto. Qed.

Lemma same_db_committed db w : same_db (with_committed db w) w.
Proof. unfold same_db. cbn. auto. Qed.

Lemma respects_ret {A} (a : A) : respects (ret a).
Proof. intros w1 w2 S. cbn. auto. Qed.

Lemma respects_raise {A} e : respects (@raise A e).
Proof. intros w1 w2 S. cbn. auto. Qed.

Lemma respects_lift {A} (r : result A) : respects (lift r).
Proof. intros w1 w2 S. cbn. auto. Qed.

Lemma respects_bind {A B} (m : M A) (f : A -> M B) :
  respects m -> (forall a, respects (f a)) -> respects (bind m f).
Proof.
  intros Hm Hf w1 w2 S. unfold bind.
  destruct (Hm w1 w2 S) as [R S'].
  destruct (m w1) as [[a|e] w1'], (m w2) as [[a2|e2] w2'];
    cbn [fst snd] in *; try discriminate.
  - inversion R; subst a2. now apply Hf.
  - inversion R; subst e2. cbn. auto.
Qed.

Lemma respects_emit ev : respects (emit ev).
Proof.
  intros w1 w2 (Hc & Ha & Hs & Hk). unfold emit, same_db. cbn. auto.
Qed.

Lemma respects_select_pk tbl pk conds : respects (select_pk tbl pk conds).
Proof.
  unfold select_pk. apply respects_bind; [apply respects_emit |].
  intros _ w1 w2 (Hc & Ha & Hs & Hk). cbn [fst snd]. rewrite Hc.
  split; [reflexivity |]. unfold same_db. auto.
Qed.

Lemma respects_store tbl r : respects (store tbl r).
Proof.
  intros w1 w2 (Hc & Ha & Hs & Hk). unfold store. rewrite Ha, Hc.
  destruct (accepts w2 tbl (current w2 tbl) r).
  - unfold emit, same_db. cbn. auto.
  - unfold bind, emit, raise, same_db. cbn. auto.
Qed.

Lemma respects_nextval tbl : respects (nextval tbl).
Proof.
  intros w1 w2 (Hc & Ha & Hs & Hk). unfold nextval, same_db. cbn.
  rewrite Hs. auto.
Qed.

Lemma respects_insert_returning tbl cols pk :
  respects (insert_returning tbl cols pk).
Proof.
  unfold insert_returning. apply respects_bind; [apply respects_nextval |].
  intros key. apply respects_bind; [apply respects_store |].
  intros _. apply respects_ret.
Qed.

Lemma respects_db_searcher sp vals : respects (db_searcher sp vals).
Proof.
  unfold db_searcher. destruct (bind_placeholders (kw_cols sp) vals).
  - apply respects_bind; [apply respects_select_pk |].
    intros [pk|]; [apply respects_ret | apply respects_insert_returning].
  - apply respects_raise.
Qed.

Lemma respects_set_cache k c : respects (set_cache k c).
Proof.
  intros w1 w2 (Hc & Ha & Hs & Hk). unfold set_cache, same_db. cbn.
  rewrite Hk. auto.
Qed.

Lemma respects_lru_cache k f vals :
  (forall v, respects (f v)) -> respects (lru_cache k f vals).
Proof.
  intros Hf w1 w2 S. unfold lru_cache.
  assert (Hk : caches w1 = caches w2) by apply S.
  rewrite Hk. destruct (cache_get vals (caches w2 k)) as [v|].
  - apply (respects_bind (set_cache k (cache_touch vals v (caches w2 k)))
             (fun _ => ret v)); [apply respects_set_cache | | exact S].
    intros _. apply respects_ret.
  - refine (respects_bind (f vals) _ (Hf vals) _ w1 w2 S).
    intros v. apply respects_bind; [| intros _; apply respects_ret].
    intros u1 u2 S'. assert (Hk' : caches u1 = caches u2) by apply S'.
    rewrite Hk'. now apply respects_set_cache.
Qed.

Lemma respects_resolve k vals : respects (resolve k vals).
Proof.
  unfold resolve. apply respects_bind.
  - apply respects_lru_cache. intros v. apply respects_db_searcher.
  - intros pk. apply respects_bind; [apply respects_emit |].
    intros _. apply respects_ret.
Qed.

Lemma respects_for_each {A} (l : list A) body :
  (forall x, respects (body x)) -> respects (for_each l body).
Proof.
  intros Hb. induction l as [|x l IH]; cbn [for_each].
  - apply respects_ret.
  - apply respects_bind; [apply Hb | intros _; exact IH].
Qed.

Lemma respects_process_row prefix r : respects (process_row prefix r).
Proof.
  unfold process_row, get_attack_id, get_place_id, get_target_id,
    get_missile_id, insert.
  apply respects_bind; [apply respects_lift |]. intros s.
  apply respects_bind; [apply respects_lift |]. intros e.
  apply respects_bind; [apply respects_resolve |]. intros aid.
  apply respects_bind; [apply respects_insert_returning |]. intros gid.
  apply respects_bind; [| intros _; apply respects_bind; [| intros _]];
    apply respects_for_each; intros x;
    (apply respects_bind; [apply respects_resolve | intros id; apply respects_store]).
Qed.

Lemma respects_process_all prefix rows : respects (process_all prefix rows).
Proof.
  unfold process_all. apply respects_for_each. intros x.
  apply respects_process_row.
Qed.

(** two runs of a computation from states that agree *)
Lemma respects_run {A} (m : M A) w1 w2 res w1' :
  respects m -> same_db w1 w2 -> m w1 = (res, w1') ->
  exists w2', m w2 = (res, w2') /\ same_db w1' w2'.
Proof.
  intros Hm S H. destruct (Hm w1 w2 S) as [R S'].
  rewrite H in R, S'. cbn [fst snd] in R, S'.
  exists (snd (m w2)). split; [| exact S'].
  rewrite R. now destruct (m w2).
Qed.

(** ** The records in sequence *)

Lemma bind_assoc {A B C} (m : M A) (f : A -> M B) (g : B -> M C) w :
  bind (bind m f) g w = bind m (fun a => bind (f a) g) w.
Proof. unfold bind. destruct (m w) as [[a|e] w1]; reflexivity. Qed.

Lemma process_all_nil prefix w : process_all prefix [] w = (Ok tt, w).
Proof. reflexivity. Qed.

Lemma process_all_cons prefix x l w :
  process_all prefix (x :: l) w =
  bind (process_row prefix x) (fun _ => process_all prefix l) w.
Proof. reflexivity. Qed.

Lemma process_all_app prefix l1 l2 w :
  process_all prefix (l1 ++ l2) w =
  bind (process_all prefix l1) (fun _ => process_all prefix l2) w.
Proof.
  revert w. induction l1 as [|x l1 IH]; intros w.
  - reflexivity.
  - cbn [app]. rewrite process_all_cons.
    change (process_all prefix (x :: l1))
      with (bind (process_row prefix x) (fun _ => process_all prefix l1)).
    rewrite bind_assoc. unfold bind.
    destruct (process_row prefix x w) as [[u|e] w1]; [| reflexivity].
    rewrite IH. reflexivity.
Qed.

Lemma process_all_app_ok prefix l1 l2 w w1 res w2 :
  process_all prefix l1 w = (Ok tt, w1) ->
  process_all prefix l2 w1 = (res, w2) ->
  process_all prefix (l1 ++ l2) w = (res, w2).
Proof.
  intros H1 H2. rewrite process_all_app. unfold bind. now rewrite H1.
Qed.

Lemma process_all_app_raise prefix l1 l2 w e w1 :
  process_all prefix l1 w = (Raise e, w1) ->
  process_all prefix (l1 ++ l2) w = (Raise e, w1).
Proof.
  intros H1. rewrite process_all_app. unfold bind. now rewrite H1.
Qed.

Lemma txn_process_all prefix rows : txn (process_all prefix rows).
Proof.
  unfold process_all. apply txn_for_each. intros x. apply txn_process_row.
Qed.

(** The rows of a block after the first one against the same rows in
    sequence. *)
Lemma for_data_block_seq prefix data_block :
  forall n_rows w w2 res w',
    same_db w w2 ->
    for_data_block prefix data_block n_rows w = (res, w') ->
    exists w2',
      process_all prefix (firstn data_block (data_iter w)) w2
      = (match res with Ok _ => Ok tt | Raise e => Raise e end, w2') /\
      (forall m, res = Ok m ->
         same_db w' w2' /\
         data_iter w' = skipn data_block (data_iter w) /\
         m = n_rows + length (firstn data_block (data_iter w))).
Proof.
  induction data_block as [|stop IH]; intros n_rows w w2 res w' S H;
    cbn [for_data_block] in H.
  - inversion H; subst. exists w2. cbn [firstn skipn length].
    split; [reflexivity |]. intros m Hm. inversion Hm; subst.
    split; [exact S |]. split; [reflexivity | lia].
  - apply bind_inv in H. destruct H as [(r & w1 & H1 & H2) | (e & H1 & _)].
    2:{ apply next_row_inv in H1. destruct (data_iter w); destruct H1; discriminate. }
    apply next_row_inv in H1. destruct (data_iter w) as [|x rest] eqn:D.
    + destruct H1 as [E ->]. inversion E; subst r. inversion H2; subst.
      exists w2. cbn [firstn skipn length].
      split; [reflexivity |]. intros m Hm. inversion Hm; subst.
      split; [exact S |]. split; [exact D | lia].
    + destruct H1 as [E ->]. inversion E; subst r.
      assert (S0 : same_db (with_data_iter rest w) w2).
      { eapply same_db_trans; [apply same_db_data_iter | exact S]. }
      apply bind_inv in H2.
      destruct H2 as [(u & w3 & H2 & H3) | (e & H2 & ->)].
      * destruct (respects_run _ _ _ _ _ (respects_process_row prefix x) S0 H2)
          as (w4 & P & S4).
        destruct (txn_process_row _ _ _ _ _ H2) as [D3 _]. cbn in D3.
        destruct (IH _ _ _ _ _ S4 H3) as (w2' & Q & R). rewrite D3 in Q, R.
        exists w2'. cbn [firstn]. rewrite process_all_cons. unfold bind.
        rewrite P. destruct u. split; [exact Q |].
        intros m Hm. destruct (R m Hm) as (R1 & R2 & R3).
        split; [exact R1 |]. split; [exact R2 |]. cbn [length]. lia.
      * destruct (respects_run _ _ _ _ _ (respects_process_row prefix x) S0 H2)
          as (w4 & P & S4).
        exists w4. cbn [firstn]. rewrite process_all_cons. unfold bind.
        rewrite P. split; [reflexivity |]. intros m Hm. discriminate.
Qed.

(** The three ways a round of the loop goes on a non-empty iterator with a
    positive block size, and the two ways it ends at once. *)
Lemma import_block_cases block_size prefix i_block w res w' :
  import_block block_size prefix i_block w = (res, w') ->
  ((block_size < 0)%Z /\ res = Raise ValueError /\ w' = w) \/
  ((0 <= block_size)%Z /\ (block_size = 0%Z \/ data_iter w = []) /\
   res = Ok false /\ w' = w) \/
  (exists x rest stop,
     (0 < block_size)%Z /\ Z.to_nat block_size = S stop /\
     data_iter w = x :: rest /\
     ((exists n wb,
         for_block prefix x stop (with_data_iter rest w) = (Ok n, wb) /\
         res = Ok true /\
         w' = with_log ((log wb ++ [EvCommit]) ++ [EvPrint i_block n])
                (with_committed (current wb) wb))
      \/
      (exists e wb,
         for_block prefix x stop (with_data_iter rest w) = (Raise e, wb) /\
         res = Raise e /\
         w' = with_log (log wb ++ [EvRollback])
                (with_current (committed wb) wb)))).
Proof.
  unfold import_block, islice. intros H.
  destruct (block_size <? 0)%Z eqn:B.
  - apply Z.ltb_lt in B. inversion H; subst. left. auto.
  - apply Z.ltb_ge in B. cbn [bind ret] in H. right.
    destruct (Z.to_nat block_size) as [|stop] eqn:Hs.
    + cbn in H. inversion H; subst. left.
      split; [assumption |]. split; [left; lia | auto].
    + cbn [islice_next] in H.
      apply bind_inv in H. destruct H as [(f & w1 & H1 & H2) | (e & H1 & _)].
      2:{ apply bind_inv in H1. destruct H1 as [(r & w2 & H1 & H3) | (e' & H1 & _)].
          - inversion H3.
          - apply next_row_inv in H1. destruct (data_iter w); destruct H1; discriminate. }
      apply bind_inv in H1. destruct H1 as [(r & w2 & H1 & H3) | (e' & H1 & E)];
        [| discriminate].
      inversion H3; subst f w2. clear H3. cbn [fst snd] in H2.
      apply next_row_inv in H1. destruct (data_iter w) as [|x rest] eqn:D.
      * destruct H1 as [E ->]. inversion E; subst r. inversion H2; subst.
        left. split; [assumption |]. split; [now right | auto].
      * destruct H1 as [E ->]. inversion E; subst r. right.
        exists x, rest, stop.
        split; [lia |]. split; [reflexivity |]. split; [reflexivity |].
        apply bind_inv in H2.
        destruct H2 as [(n & w2 & H2 & H3) | (e & H2 & ->)].
        -- apply with_conn_inv in H2.
           destruct H2 as [(a & w3 & H2 & E2 & ->) | (e & w3 & _ & E2 & _)];
             [| discriminate].
           inversion E2; subst a. clear E2.
           unfold bind, emit, ret in H3. inversion H3; subst. clear H3.
           left. exists n, w3. split; [exact H2 |]. split; reflexivity.
        -- apply with_conn_inv in H2.
           destruct H2 as [(a & w3 & _ & E2 & _) | (e' & w3 & H2 & E2 & ->)];
             [discriminate |].
           inversion E2; subst e'. clear E2.
           right. exists e, w3. split; [exact H2 |]. split; reflexivity.
Qed.

(** The rows of a block against the same rows in sequence. *)
Lemma for_block_seq prefix x stop rest w w2 res w' :
  same_db w w2 -> data_iter w = rest ->
  for_block prefix x stop w = (res, w') ->
  exists w2',
    process_all prefix (x :: firstn stop rest) w2
    = (match res with Ok _ => Ok tt | Raise e => Raise e end, w2') /\
    (forall m, res = Ok m ->
       same_db w' w2' /\
       data_iter w' = skipn stop rest /\
       m = S (length (firstn stop rest))).
Proof.
  intros S D H. unfold for_block in H. apply bind_inv in H.
  destruct H as [(u & w1 & H1 & H2) | (e & H1 & ->)].
  - destruct (respects_run _ _ _ _ _ (respects_process_row prefix x) S H1)
      as (w3 & P & S3).
    destruct (txn_process_row _ _ _ _ _ H1) as [D1 _].
    destruct (for_data_block_seq _ _ _ _ _ _ _ S3 H2) as (w2' & Q & R).
    rewrite D1, D in Q, R.
    exists w2'. rewrite process_all_cons. unfold bind. rewrite P.
    split; [exact Q |]. intros m Hm. destruct (R m Hm) as (R1 & R2 & R3).
    split; [exact R1 |]. split; [exact R2 | lia].
  - destruct (respects_run _ _ _ _ _ (respects_process_row prefix x) S H1)
      as (w3 & P & S3).
    exists w3. rewrite process_all_cons. unfold bind. rewrite P.
    split; [reflexivity |]. intros m Hm. discriminate.
Qed.

(** One round of the loop against its rows in sequence. *)
Lemma import_block_seq block_size prefix i_block w w2 res w' :
  (0 < block_size)%Z -> same_db w w2 ->
  import_block block_size prefix i_block w = (res, w') ->
  match res with
  | Ok true =>
      data_iter w <> [] /\
      exists w2',
        process_all prefix (firstn (Z.to_nat block_size) (data_iter w)) w2
        = (Ok tt, w2') /\
        same_db w' w2' /\
        committed w' = current w' /\
        data_iter w' = skipn (Z.to_nat block_size) (data_iter w) /\
        exists seg,
          Forall inner seg /\
          log w' = log w ++ seg ++
                   [EvCommit;
                    EvPrint i_block (length (firstn (Z.to_nat block_size) (data_iter w)))]
  | Ok false => data_iter w = [] /\ w' = w
  | Raise e =>
      exists w2',
        process_all prefix (firstn (Z.to_nat block_size) (data_iter w)) w2
        = (Raise e, w2')
  end.
Proof.
  intros HB S H. apply import_block_cases in H.
  destruct H as [(B & _) | [(B & Hz & -> & ->) |
                            (x & rest & stop & _ & Hs & D & H)]].
  - lia.
  - destruct Hz as [Hz | Hz]; [lia | auto].
  - assert (S0 : same_db (with_data_iter rest w) w2).
    { eapply same_db_trans; [apply same_db_data_iter | exact S]. }
    rewrite Hs, D. cbn [firstn skipn].
    destruct H as [(n & wb & H & -> & ->) | (e & wb & H & -> & ->)].
    + destruct (for_block_seq _ _ _ rest _ _ _ _ S0 eq_refl H) as (w2' & Q & R).
      destruct (R n eq_refl) as (R1 & R2 & R3).
      split; [discriminate |]. exists w2'.
      split; [exact Q |].
      split.
      { eapply same_db_trans; [apply same_db_log |].
        eapply same_db_trans; [apply same_db_committed | exact R1]. }
      split; [reflexivity |]. split; [exact R2 |].
      destruct (for_block_spec _ _ _ _ _ _ H) as (k & seg & St & _).
      destruct St as [_ _ Lg _ In]. exists seg. split; [exact In |].
      cbn [log with_log with_committed]. rewrite Lg. cbn [log with_data_iter].
      rewrite <- !app_assoc. cbn [app length]. now rewrite R3.
    + destruct (for_block_seq _ _ _ rest _ _ _ _ S0 eq_refl H) as (w2' & Q & _).
      exists w2'. exact Q.
Qed.

(** ** The run against its records in sequence *)

(** With a positive block size the run gives what processing its records
    one after the other gives: the same result, and when it ends normally
    the same tables, sequences and caches. *)
Lemma import_loop_seq fuel block_size prefix :
  (0 < block_size)%Z ->
  forall i_block w w2 res w',
    same_db w w2 ->
    import_loop fuel block_size prefix i_block w = Some (res, w') ->
    exists w2',
      process_all prefix (data_iter w) w2 = (res, w2') /\
      (res = Ok tt -> same_db w' w2').
Proof.
  intros HB. induction fuel as [|fuel IH]; intros i_block w w2 res w' S H;
    [discriminate |].
  cbn [import_loop] in H.
  destruct (import_block block_size prefix i_block w) as [[[|]|e] w1] eqn:E;
    pose proof (import_block_seq _ _ _ _ _ _ _ HB S E) as B; cbn beta iota in B.
  - destruct B as (_ & wa & P & Sa & _ & D & _).
    destruct (IH _ _ _ _ _ Sa H) as (w2' & Q & R). rewrite D in Q.
    exists w2'. split; [| exact R].
    rewrite <- (firstn_skipn (Z.to_nat block_size) (data_iter w)).
    eapply process_all_app_ok; eauto.
  - destruct B as [D ->]. inversion H; subst. exists w2. rewrite D.
    split; [reflexivity |]. intros _. exact S.
  - destruct B as (wa & P). inversion H; subst. exists wa.
    split; [| discriminate].
    rewrite <- (firstn_skipn (Z.to_nat block_size) (data_iter w)).
    now apply process_all_app_raise.
Qed.

Lemma firstn_length_firstn {A} n (l : list A) :
  firstn (length (firstn n l)) l = firstn n l.
Proof.
  rewrite length_firstn. destruct (Nat.le_ge_cases n (length l)).
  - now rewrite Nat.min_l.
  - rewrite Nat.min_r by assumption.
    rewrite firstn_all. symmetry. now apply firstn_all2.
Qed.

Lemma skipn_length_firstn {A} n (l : list A) :
  skipn (length (firstn n l)) l = skipn n l.
Proof. rewrite length_firstn. apply skipn_min. Qed.

Lemma reported_app l1 l2 : reported (l1 ++ l2) = reported l1 + reported l2.
Proof. unfold reported. now rewrite reports_app, map_app, list_sum_app. Qed.

Lemma reported_inner seg : Forall inner seg -> reported seg = 0.
Proof. intros H. unfold reported. now rewrite (reports_inner _ H). Qed.

(** What a run from an idle connection leaves committed: the tables that
    processing its first [n] records gives, [n] being the rows its reports
    count. *)
Lemma import_loop_committed fuel block_size prefix :
  forall i_block w w2 res w',
    current w = committed w -> same_db w w2 ->
    import_loop fuel block_size prefix i_block w = Some (res, w') ->
    exists n seg w2',
      log w' = log w ++ seg /\
      n = reported seg /\
      n <= length (data_iter w) /\
      process_all prefix (firstn n (data_iter w)) w2 = (Ok tt, w2') /\
      committed w' = current w2' /\
      current w' = committed w' /\
      (res = Ok tt -> (0 < block_size)%Z -> n = length (data_iter w)).
Proof.
  induction fuel as [|fuel IH]; intros i_block w w2 res w' Hidle S H;
    [discriminate |].
  cbn [import_loop] in H.
  destruct (import_block block_size prefix i_block w) as [[[|]|e] w1] eqn:E.
  - assert (HB : (0 < block_size)%Z).
    { apply block_continue in E. destruct E as (seg & HB & _). exact HB. }
    pose proof (import_block_seq _ _ _ _ _ _ _ HB S E) as B; cbn beta iota in B.
    destruct B as (_ & wa & P & Sa & C1 & D & seg & In & L).
    assert (Hidle1 : current w1 = committed w1) by congruence.
    destruct (IH _ _ _ _ _ Hidle1 Sa H)
      as (n' & seg' & w2' & L' & N' & Le' & Q & C' & U' & F').
    set (m := length (firstn (Z.to_nat block_size) (data_iter w))) in *.
    exists (m + n'), (seg ++ [EvCommit; EvPrint i_block m] ++ seg'), w2'.
    split; [| split; [| split; [| split; [| split; [| split]]]]].
    + rewrite L', L. now rewrite <- !app_assoc.
    + rewrite !reported_app, (reported_inner _ In), <- N'.
      unfold reported. cbn. lia.
    + rewrite D, length_skipn in Le'. unfold m. rewrite length_firstn. lia.
    + rewrite firstn_add. unfold m.
      rewrite firstn_length_firstn, skipn_length_firstn.
      rewrite D in Q. eapply process_all_app_ok; eauto.
    + exact C'.
    + exact U'.
    + intros Hr Hb. rewrite (F' Hr Hb), D, length_skipn. unfold m.
      rewrite length_firstn. lia.
  - apply block_stop in E. destruct E as (-> & _ & Hz).
    inversion H; subst. exists 0, [], w2.
    split; [now rewrite app_nil_r |]. split; [reflexivity |].
    split; [lia |]. split; [reflexivity |].
    split; [rewrite <- Hidle; apply S |]. split; [exact Hidle |].
    intros _ Hb. destruct Hz as [Hz | Hz]; [lia | now rewrite Hz].
  - apply block_raise in E. inversion H; subst. clear H.
    destruct E as [(_ & _ & ->) | (seg & k & _ & _ & HI & HL & HC & HU & _)].
    + exists 0, [], w2.
      split; [now rewrite app_nil_r |]. split; [reflexivity |].
      split; [lia |]. split; [reflexivity |].
      split; [rewrite <- Hidle; apply S |]. split; [exact Hidle |].
      discriminate.
    + exists 0, (seg ++ [EvRollback]), w2.
      split; [exact HL |].
      split; [now rewrite reported_app, (reported_inner _ HI) |].
      split; [lia |]. split; [reflexivity |].
      split; [rewrite HC, <- Hidle; apply S |]. split; [congruence |].
      discriminate.
Qed.


(** ** Why a record fails *)

Lemma refuses_same w w' : accepts w' = accepts w -> refuses w' -> refuses w.
Proof. intros E (t & rows & r & H). exists t, rows, r. now rewrite <- E. Qed.

(** [m] raises nothing but [DatabaseError], and only when the storage
    layer refuses a row. *)
Lemma store_raise tbl r w e w' :
  store tbl r w = (Raise e, w') -> e = DatabaseError /\ refuses w.
Proof.
  intros H. apply store_inv in H.
  destruct H as [(_ & H & _) | (A & H & _)]; [discriminate |].
  inversion H. split; [reflexivity |]. now exists tbl, (current w tbl), r.
Qed.

Lemma insert_returning_raise tbl cols pk w e w' :
  insert_returning tbl cols pk w = (Raise e, w') ->
  e = DatabaseError /\ refuses w.
Proof.
  intros H. apply insert_returning_inv in H.
  destruct H as [(_ & H & _) | (A & H & _)]; [discriminate |].
  inversion H. split; [reflexivity |].
  now exists tbl, (current w tbl), (new_row tbl pk cols w).
Qed.

Lemma resolve_raise k vals w e w' :
  well_keyed k vals ->
  resolve k vals w = (Raise e, w') -> e = DatabaseError /\ refuses w.
Proof.
  intros W H. apply resolve_resolved in H.
  inversion H as [| | e' w1 G Hs]; subst.
  inversion Hs as [B | | | conds B F A]; subst.
  - rewrite (wk_bind _ _ W) in B. discriminate.
  - split; [reflexivity |].
    now exists (table (searcher_of k)), (current w (table (searcher_of k))),
      (new_row (table (searcher_of k)) (pk_col (searcher_of k)) conds w).
Qed.

Lemma assoc_loop_raise f gid names :
  forall w e w',
    assoc_loop f gid names w = (Raise e, w') -> e = DatabaseError /\ refuses w.
Proof.
  unfold assoc_loop. induction names as [|n names IH]; intros w e w' H;
    cbn [for_each] in H.
  - discriminate.
  - apply bind_inv in H. destruct H as [(u & w1 & H1 & H2) | (e' & H1 & E)].
    + assert (T : txn (bind (resolve (multi_kind f) (name_key (multi_kind f) n))
                         (fun id => insert (multi_table f) (assoc_row f gid id)))).
      { apply txn_bind; [apply txn_resolve | intros id; apply txn_insert]. }
      destruct (T _ _ _ H1) as [_ [seg St]].
      destruct (IH _ _ _ H2) as [-> R]. split; [reflexivity |].
      eapply refuses_same; [apply (step_accepts _ _ _ St) | exact R].
    + inversion E; subst e'. clear E.
      apply bind_inv in H1. destruct H1 as [(id & w1 & H1 & H2) | (e' & H1 & E)].
      * destruct (txn_resolve _ _ _ _ _ H1) as [_ [seg St]].
        apply store_raise in H2. destruct H2 as [-> R]. split; [reflexivity |].
        eapply refuses_same; [apply (step_accepts _ _ _ St) | exact R].
      * inversion E; subst e'.
        eapply resolve_raise; [apply multi_kind_keyed | exact H1].
Qed.

Lemma txn_assoc_loop f gid names : txn (assoc_loop f gid names).
Proof.
  unfold assoc_loop. apply txn_for_each. intros n.
  apply txn_bind; [apply txn_resolve | intros id; apply txn_insert].
Qed.

Lemma get_datetime_raise s e : get_datetime s = Raise e -> e = ValueError.
Proof.
  unfold get_datetime.
  destruct (if PyStr.contains ":" s
            then Strptime.strptime_datetime s
            else Strptime.strptime_date s); intros H; inversion H; reflexivity.
Qed.

(** A record raises [ValueError] when one of its period boundaries is
    not a date, and [DatabaseError] when the storage layer refuses a row;
    nothing else. *)
Lemma process_row_raise prefix r w e w' :
  process_row prefix r w = (Raise e, w') ->
  (e = ValueError /\ parses r = false) \/ (e = DatabaseError /\ refuses w).
Proof.
  rewrite process_row_unfold. intros H. unfold parses.
  apply bind_inv in H. destruct H as [(s & w1 & H1 & H) | (e' & H1 & E)].
  2:{ inversion E; subst e'. inversion H1 as [G]. left.
      rewrite G. split; [now apply get_datetime_raise in G |]. reflexivity. }
  inversion H1 as [[G1 G2]]. subst w1. rewrite G1.
  apply bind_inv in H. destruct H as [(en & w1 & H2 & H) | (e' & H2 & E)].
  2:{ inversion E; subst e'. inversion H2 as [G]. left.
      rewrite G. split; [now apply get_datetime_raise in G |]. reflexivity. }
  inversion H2 as [[G3 G4]]. subst w1. right.
  apply bind_inv in H. destruct H as [(aid & w1 & H3 & H) | (e' & H3 & E)].
  2:{ inversion E; subst e'. eapply resolve_raise; [| exact H3]. constructor. }
  destruct (txn_resolve _ _ _ _ _ H3) as [_ [s1 S1]].
  apply bind_inv in H. destruct H as [(gid & w2 & H4 & H) | (e' & H4 & E)].
  2:{ inversion E; subst e'. apply insert_returning_raise in H4.
      destruct H4 as [-> R]. split; [reflexivity |].
      eapply refuses_same; [apply (step_accepts _ _ _ S1) | exact R]. }
  destruct (txn_insert_returning _ _ _ _ _ _ H4) as [_ [s2 S2]].
  assert (A2 : accepts w2 = accepts w).
  { rewrite (step_accepts _ _ _ S2). apply (step_accepts _ _ _ S1). }
  apply bind_inv in H. destruct H as [(u1 & w3 & H5 & H) | (e' & H5 & E)].
  2:{ inversion E; subst e'. apply assoc_loop_raise in H5.
      destruct H5 as [-> R]. split; [reflexivity |].
      eapply refuses_same; [exact A2 | exact R]. }
  destruct (txn_assoc_loop _ _ _ _ _ _ H5) as [_ [s3 S3]].
  assert (A3 : accepts w3 = accepts w).
  { rewrite (step_accepts _ _ _ S3). exact A2. }
  apply bind_inv in H. destruct H as [(u2 & w4 & H6 & H) | (e' & H6 & E)].
  2:{ inversion E; subst e'. apply assoc_loop_raise in H6.
      destruct H6 as [-> R]. split; [reflexivity |].
      eapply refuses_same; [exact A3 | exact R]. }
  destruct (txn_assoc_loop _ _ _ _ _ _ H6) as [_ [s4 S4]].
  apply assoc_loop_raise in H. destruct H as [-> R]. split; [reflexivity |].
  eapply refuses_same; [| exact R].
  rewrite (step_accepts _ _ _ S4). exact A3.
Qed.

Lemma process_row_parses prefix r w w' :
  process_row prefix r w = (Ok tt, w') -> parses r = true.
Proof.
  rewrite process_row_unfold. intros H. unfold parses.
  apply bind_ok_inv in H. destruct H as (s & w1 & H1 & H).
  inversion H1 as [[G1 G2]]. subst w1. rewrite G1.
  apply bind_ok_inv in H. destruct H as (e & w1 & H2 & H).
  inversion H2 as [[G3 G4]]. now rewrite G3.
Qed.


Lemma process_all_parses prefix rows :
  forall w w',
    process_all prefix rows w = (Ok tt, w') -> Forall (fun r => parses r = true) rows.
Proof.
  induction rows as [|x rows IH]; intros w w' H; [constructor |].
  rewrite process_all_cons in H. apply bind_ok_inv in H.
  destruct H as (u & w1 & H1 & H2). destruct u. constructor.
  - eapply process_row_parses; eauto.
  - eapply IH; eauto.
Qed.


(** ** The rows the records add *)

Lemma groups_app l1 l2 : groups (l1 ++ l2) = groups l1 ++ groups l2.
Proof. unfold groups. apply flat_map_app. Qed.

Lemma assocs_app t l1 l2 : assocs t (l1 ++ l2) = assocs t l1 + assocs t l2.
Proof. unfold assocs. now rewrite filter_app, length_app. Qed.

Lemma groups_inserted seg :
  map group_units (inserted "attack_groups" seg) = groups (ops seg).
Proof.
  induction seg as [|ev seg IH]; [reflexivity |].
  change (ev :: seg) with ([ev] ++ seg).
  rewrite inserted_app, ops_app, map_app, groups_app, IH. f_equal.
  destruct ev; try reflexivity.
  - destruct k; reflexivity.
  - unfold inserted, ops. cbn [flat_map op_of app].
    destruct (String.eqb tbl "attack_groups"); [reflexivity |].
    destruct (is_assoc_table tbl); reflexivity.
Qed.

Lemma multi_table_not_groups f :
  String.eqb (multi_table f) "attack_groups" = false.
Proof. destruct f; reflexivity. Qed.

Lemma multi_table_assoc f : is_assoc_table (multi_table f) = true.
Proof. destruct f; reflexivity. Qed.

Lemma assocs_inserted f seg :
  length (inserted (multi_table f) seg) = assocs (multi_table f) (ops seg).
Proof.
  induction seg as [|ev seg IH]; [reflexivity |].
  change (ev :: seg) with ([ev] ++ seg).
  rewrite inserted_app, ops_app, length_app, assocs_app, IH. f_equal.
  destruct ev; try reflexivity.
  - destruct k; reflexivity.
  - unfold inserted, ops, assocs. cbn [flat_map op_of app].
    destruct (String.eqb_spec tbl (multi_table f)) as [-> | N].
    + rewrite multi_table_not_groups, multi_table_assoc.
      cbn [filter length app]. now rewrite String.eqb_refl.
    + destruct (String.eqb tbl "attack_groups"); [reflexivity |].
      destruct (is_assoc_table tbl); [| reflexivity].
      cbn [filter app]. apply String.eqb_neq in N. now rewrite N.
Qed.

Lemma groups_names_ops f names : groups (names_ops f names) = [].
Proof. induction names as [|n names IH]; [reflexivity | exact IH]. Qed.

Lemma assocs_names_ops f names :
  assocs (multi_table f) (names_ops f names) = length names.
Proof.
  induction names as [|n names IH]; [reflexivity |].
  unfold assocs, names_ops in *. cbn [flat_map app filter].
  rewrite String.eqb_refl. cbn [length]. now rewrite IH.
Qed.

Lemma assocs_names_ops_other f f' names :
  f <> f' -> assocs (multi_table f) (names_ops f' names) = 0.
Proof.
  intros N. induction names as [|n names IH]; [reflexivity |].
  unfold assocs, names_ops in *. cbn [flat_map app filter].
  replace (String.eqb (multi_table f') (multi_table f)) with false;
    [exact IH |].
  destruct f, f'; try reflexivity; congruence.
Qed.

Lemma groups_record_ops prefix r :
  parses r = true -> groups (record_ops prefix r) = [record_units r].
Proof.
  unfold parses, record_ops.
  destruct (get_datetime (time_start r)); [| discriminate].
  destruct (get_datetime (time_end r)); [| discriminate]. intros _.
  unfold groups. cbn [flat_map app]. fold (groups).
  change (flat_map _ ?l) with (groups l).
  now rewrite !groups_app, !groups_names_ops.
Qed.

Lemma assocs_record_ops prefix r f :
  parses r = true ->
  assocs (multi_table f) (record_ops prefix r) = length (names_of f r).
Proof.
  unfold parses, record_ops, names_of.
  destruct (get_datetime (time_start r)) as [s|]; [| discriminate].
  destruct (get_datetime (time_end r)) as [e|]; [| discriminate]. intros _.
  change (OpPeriod ?k :: OpGroup ?a ?b :: ?l)
    with ([OpPeriod k; OpGroup a b] ++ l).
  rewrite !assocs_app.
  destruct f; cbn [multi_field];
    rewrite ?assocs_names_ops;
    rewrite ?assocs_names_ops_other by discriminate;
    unfold assocs; cbn [filter length]; lia.
Qed.

(** a record that is processed: its statements and its operations *)
Lemma process_row_step prefix r w w' :
  process_row prefix r w = (Ok tt, w') ->
  exists seg, step w w' seg /\ ops seg = record_ops prefix r.
Proof.
  intros H. destruct (txn_process_row _ _ _ _ _ H) as [_ [seg St]].
  destruct (process_row_trace _ _ _ _ _ H) as (seg' & L & T & _).
  exists seg. split; [exact St |].
  rewrite (step_log _ _ _ St) in L. apply app_inv_head in L. subst seg'.
  exact T.
Qed.

(** The records in sequence add one fact-group row each, with the counts
    of the record, and one association row for each name of each field. *)
Lemma process_all_rows prefix rows :
  forall w w',
    process_all prefix rows w = (Ok tt, w') ->
    exists seg,
      step w w' seg /\
      map group_units (inserted "attack_groups" seg) = map record_units rows /\
      forall f, length (inserted (multi_table f) seg) = names_count f rows.
Proof.
  induction rows as [|x rows IH]; intros w w' H.
  - inversion H; subst. exists []. split; [apply step_refl |].
    split; [reflexivity |]. intros f. reflexivity.
  - rewrite process_all_cons in H. apply bind_ok_inv in H.
    destruct H as (u & w1 & H1 & H2). destruct u.
    pose proof (process_row_parses _ _ _ _ H1) as P.
    destruct (process_row_step _ _ _ _ H1) as (s1 & S1 & O1).
    destruct (IH _ _ H2) as (s2 & S2 & G2 & A2).
    exists (s1 ++ s2). split; [eapply step_trans; eauto |]. split.
    + rewrite inserted_app, map_app, G2, groups_inserted, O1.
      now rewrite (groups_record_ops _ _ P).
    + intros f. rewrite inserted_app, length_app, A2, assocs_inserted, O1.
      rewrite (assocs_record_ops _ _ _ P). reflexivity.
Qed.

(** A record with a period boundary that is not a date raises
    [ValueError]. *)
Lemma process_row_bad prefix r w :
  parses r = false -> process_row prefix r w = (Raise ValueError, w).
Proof.
  rewrite process_row_unfold. unfold parses, bind, lift.
  destruct (get_datetime (time_start r)) as [s|e] eqn:G1.
  - destruct (get_datetime (time_end r)) as [s'|e] eqn:G2; [discriminate |].
    intros _. now rewrite (get_datetime_raise _ _ G2).
  - intros _. now rewrite (get_datetime_raise _ _ G1).
Qed.

Lemma process_all_bad prefix rows :
  forall w,
    ~ refuses w -> Exists (fun r => parses r = false) rows ->
    exists w', process_all prefix rows w = (Raise ValueError, w').
Proof.
  induction rows as [|x rows IH]; intros w R E; [inversion E |].
  rewrite process_all_cons. unfold bind.
  destruct (parses x) eqn:P.
  - destruct (process_row prefix x w) as [[u|e] w1] eqn:H.
    + destruct (txn_process_row _ _ _ _ _ H) as [_ [seg St]].
      apply IH.
      * intros R1. apply R. eapply refuses_same; [| exact R1].
        apply (step_accepts _ _ _ St).
      * inversion E; subst; [congruence | assumption].
    + destruct (process_row_raise _ _ _ _ _ H) as [(_ & P') | (_ & R')];
        [congruence | contradiction].
  - rewrite (process_row_bad _ _ _ P). eauto.
Qed.

(** ** One row for a key *)

Lemma find_none_filter {A} (f : A -> bool) l :
  List.find f l = None -> filter f l = [].
Proof.
  induction l as [|x l IH]; cbn; [reflexivity |].
  destruct (f x); [discriminate | exact IH].
Qed.

Lemma keys_unique_store tbl r db :
  fact_table tbl -> keys_unique db -> keys_unique (upd tbl (db tbl ++ [r]) db).
Proof.
  intros F U k vals W. unfold key_count.
  rewrite upd_other by apply F. now apply U.
Qed.

Lemma keys_unique_insert k vals db w :
  well_keyed k vals ->
  List.find (row_matches vals) (db (table (searcher_of k))) = None ->
  keys_unique db ->
  keys_unique
    (upd (table (searcher_of k))
       (db (table (searcher_of k)) ++
        [new_row (table (searcher_of k)) (pk_col (searcher_of k)) vals w]) db).
Proof.
  intros W F U k' vals' W'. unfold key_count.
  destruct (string_dec (table (searcher_of k')) (table (searcher_of k))) as [E | N].
  - apply table_inj in E. subst k'. rewrite upd_same, filter_app, length_app.
    cbn [filter].
    destruct (row_matches vals'
                (new_row (table (searcher_of k)) (pk_col (searcher_of k)) vals w))
      eqn:M.
    + apply (wk_distinct k vals' vals w W' W) in M. subst vals'.
      rewrite (find_none_filter _ _ F). cbn. lia.
    + cbn [length]. rewrite Nat.add_0_r. now apply U.
  - rewrite upd_other by exact N. now apply U.
Qed.

Lemma unique_inv_same w w' :
  current w' = current w -> committed w' = committed w ->
  unique_inv w -> unique_inv w'.
Proof. unfold unique_inv. intros -> ->. auto. Qed.

Lemma unique_inv_store tbl r :
  fact_table tbl -> preserves unique_inv (store tbl r).
Proof.
  intros F w res w' [U C] H. apply store_inv in H.
  destruct H as [(_ & _ & ->) | (_ & _ & ->)].
  - split; [| exact C]. cbn. now apply keys_unique_store.
  - split; assumption.
Qed.

Lemma unique_inv_insert_returning tbl cols pk :
  fact_table tbl -> preserves unique_inv (insert_returning tbl cols pk).
Proof.
  intros F w res w' [U C] H. apply insert_returning_inv in H.
  destruct H as [(_ & _ & ->) | (_ & _ & ->)].
  - split; [| exact C]. cbn. now apply keys_unique_store.
  - split; assumption.
Qed.

Lemma unique_inv_resolve k vals :
  well_keyed k vals -> preserves unique_inv (resolve k vals).
Proof.
  intros W w res w' [U C] H. apply resolve_resolved in H.
  assert (Hs : forall r w1, searched (searcher_of k) vals w r w1 ->
                            unique_inv w1).
  { intros r w1 Hs. inversion Hs as [B | conds r0 B F | conds B F A | conds B F A];
      subst; try (split; assumption);
      rewrite (wk_bind _ _ W) in B; inversion B; subst conds.
    split; [| exact C]. cbn. now apply keys_unique_insert. }
  inversion H as [v G | v w1 G S1 | e w1 G S1]; subst.
  - split; assumption.
  - apply Hs in S1. destruct S1. split; assumption.
  - now apply Hs in S1.
Qed.

Lemma unique_inv_process_row prefix r : preserves unique_inv (process_row prefix r).
Proof.
  apply preserves_process_row.
  - intros k vals W. now apply unique_inv_resolve.
  - intros cols. apply unique_inv_insert_returning. apply fact_table_groups.
  - intros tbl cols Hin. apply unique_inv_store. now apply fact_table_assoc.
Qed.

Lemma import_loop_unique fuel block_size prefix i_block w res w' :
  unique_inv w ->
  import_loop fuel block_size prefix i_block w = Some (res, w') ->
  unique_inv w'.
Proof.
  intros HI H.
  refine (proj1 (import_loop_along unique_inv unique_inv _ _ _ _ _ _
                   fuel block_size prefix i_block w res w' HI H)).
  - intros p r. apply unique_inv_process_row.
  - intros w0 l I0. exact I0.
  - intros w0 [U C]. split; exact U.
  - intros w0 i n I0. exact I0.
  - auto.
  - intros w0 [U C]. split; exact C.
Qed.

(** ** More on the searchers *)

Lemma bind_placeholders_none kw vals :
  bind_placeholders kw vals = None <->
  exists col_kw col_name, In (col_kw, col_name) kw /\ lookup col_kw vals = None.
Proof.
  induction kw as [|[k c] kw IH]; cbn [bind_placeholders].
  - split; [discriminate | intros (k & c & [] & _)].
  - destruct (lookup k vals) as [v|] eqn:L.
    + destruct (bind_placeholders kw vals) as [ps|] eqn:B.
      * split; [discriminate |]. intros (k' & c' & [E | Hin] & L').
        -- inversion E; subst. congruence.
        -- assert (X : Some ps = None) by (apply IH; eauto).
           discriminate X.
      * split; [intros _ | reflexivity].
        destruct (proj1 IH eq_refl) as (k' & c' & Hin & L').
        exists k', c'. split; [now right | exact L'].
    + split; [intros _ | reflexivity]. exists k, c. split; [now left | exact L].
Qed.

Lemma row_matches_null conds r :
  In VNull (map snd conds) -> row_matches conds r = false.
Proof.
  unfold row_matches. induction conds as [|[c v] conds IH]; cbn [map snd forallb fst In].
  - intros [].
  - intros [E | Hin].
    + subst v. unfold sql_eq. now destruct (row_get c r).
    + rewrite (IH Hin). apply andb_false_r.
Qed.

Lemma find_all_false {A} (f : A -> bool) l :
  (forall x, f x = false) -> List.find f l = None.
Proof.
  intros H. induction l as [|x l IH]; cbn; [reflexivity |].
  now rewrite H.
Qed.

(** what a search that returned leaves in the tables *)
Lemma searched_lookup k vals w v w' :
  well_keyed k vals ->
  searched (searcher_of k) vals w (Ok v) w' ->
  lookup_pk k vals (current w') = Some v /\ committed w' = committed w.
Proof.
  intros W H. unfold lookup_pk. rewrite (wk_bind _ _ W).
  inversion H as [| conds r B F | conds B F A |]; subst;
    rewrite (wk_bind _ _ W) in B; inversion B; subst conds.
  - cbn. now rewrite F.
  - cbn. rewrite upd_same.
    rewrite (find_app_none _ _ _ F). cbn [List.find].
    rewrite (wk_new_row_matches k vals _ W). cbn [option_map committed].
    unfold new_row at 1, row_get. cbn [lookup]. rewrite String.eqb_refl.
    split; reflexivity.
Qed.

(** a search for a key the tables hold *)
Lemma db_searcher_found k vals w v :
  well_keyed k vals ->
  lookup_pk k vals (current w) = Some v ->
  db_searcher (searcher_of k) vals w
  = (Ok v, logged [EvSelect (table (searcher_of k)) vals] w).
Proof.
  intros W L. unfold lookup_pk in L. rewrite (wk_bind _ _ W) in L.
  unfold db_searcher. rewrite (wk_bind _ _ W).
  unfold select_pk, bind, emit. cbn [current with_log].
  destruct (List.find (row_matches vals) (current w (table (searcher_of k))))
    as [r|]; [| discriminate].
  cbn in L. inversion L. reflexivity.
Qed.

(** the cache after a call that returned: the key is in front *)
Lemma resolved_front k vals w v w' :
  resolved k vals w (Ok v) w' ->
  exists rest, caches w' k = (vals, v) :: rest.
Proof.
  intros H. inversion H as [v0 G | v0 w1 G S1 |]; subst.
  - cbn. rewrite kind_eqb_refl. unfold cache_touch. eauto.
  - cbn. rewrite kind_eqb_refl. unfold cache_put.
    destruct (maxsize k <=? length (caches w1 k)); eauto.
Qed.

Lemma cache_get_front key v rest : cache_get key ((key, v) :: rest) = Some v.
Proof. cbn. destruct (params_eq_dec key key); [reflexivity | congruence]. Qed.

(** a call for a key in the cache *)
Lemma resolve_hit k vals w v :
  cache_get vals (caches w k) = Some v ->
  resolve k vals w
  = (Ok v, logged [EvResolved k vals v]
             (cached k (cache_touch vals v (caches w k)) w)).
Proof.
  intros G. unfold resolve, bind, lru_cache. rewrite G.
  reflexivity.
Qed.

Lemma resolved_committed k vals w res w' :
  resolved k vals w res w' -> committed w' = committed w.
Proof.
  intros H.
  assert (Hs : forall r w1, searched (searcher_of k) vals w r w1 ->
                            committed w1 = committed w).
  { intros r w1 Hs. inversion Hs; subst; reflexivity. }
  inversion H as [v G | v w1 G S1 | e w1 G S1]; subst; cbn;
    [reflexivity | now apply Hs in S1 | now apply Hs in S1].
Qed.

(** ** Zero-padded dates *)

Module Padded.
Import Strptime DateFormat DateProofs.

Lemma digit_not_colon c : digit c -> Ascii.eqb ":" c = false.
Proof.
  intros H. apply Ascii.eqb_neq. intros <-. unfold digit in H. discriminate H.
Qed.

Lemma days_in_month_le y m : days_in_month y m <= 31.
Proof.
  unfold days_in_month.
  repeat (destruct m as [|m]; try lia); destruct (is_leap y); lia.
Qed.

Lemma valid_date_bounds y m d :
  valid_date y m d = true -> 1 <= m <= 12 /\ 1 <= d <= 31.
Proof.
  unfold valid_date. rewrite !andb_true_iff, !Nat.leb_le.
  pose proof (days_in_month_le y m). lia.
Qed.

Lemma padded_date_text y1 y2 y3 y4 m1 m2 d1 d2 :
  Forall digit [y1; y2; y3; y4; m1; m2; d1; d2] ->
  valid_date (1000 * digit_val y1 + 100 * digit_val y2 + 10 * digit_val y3 + digit_val y4)
             (10 * digit_val m1 + digit_val m2)
             (10 * digit_val d1 + digit_val d2) = true ->
  date_text [y1; y2; y3; y4; "-"; m1; m2; "-"; d1; d2]%char
    (1000 * digit_val y1 + 100 * digit_val y2 + 10 * digit_val y3 + digit_val y4)
    (10 * digit_val m1 + digit_val m2)
    (10 * digit_val d1 + digit_val d2).
Proof.
  intros D V. apply valid_date_bounds in V.
  repeat match goal with
         | H : Forall _ (_ :: _) |- _ => inversion H; subst; clear H
         end.
  exists [y1; y2; y3; y4], [m1; m2], [d1; d2].
  split; [reflexivity |]. split; [now constructor |].
  split; constructor; try assumption; lia.
Qed.

End Padded.

(** ** The keys of a run come from its records *)

Lemma resolved_in_ops k vals v seg :
  In (EvResolved k vals v) seg -> In (resolve_op k vals) (ops seg).
Proof.
  intros H. unfold ops. apply in_flat_map.
  exists (EvResolved k vals v). split; [exact H | now left].
Qed.

Lemma in_names_ops f names o :
  In o (names_ops f names) ->
  (exists n, In n names /\
             o = OpName (multi_kind f) (name_key (multi_kind f) n)) \/
  o = OpAssoc (multi_table f).
Proof.
  unfold names_ops. intros H. apply in_flat_map in H.
  destruct H as (n & Hn & [E | [E | []]]); [left | right]; eauto.
Qed.

Lemma resolve_op_names f names k vals :
  In (resolve_op k vals) (names_ops f names) ->
  k = multi_kind f /\ exists n, In n names /\ vals = name_key k n.
Proof.
  intros H. apply in_names_ops in H.
  destruct H as [(n & Hn & E) | E].
  - destruct k; cbn in E; inversion E; subst; eauto.
  - destruct k; discriminate E.
Qed.

Lemma resolve_op_record prefix k vals r :
  In (resolve_op k vals) (record_ops prefix r) -> key_of_record prefix k vals r.
Proof.
  unfold record_ops.
  destruct (get_datetime (time_start r)) as [s|] eqn:G1; [| intros []].
  destruct (get_datetime (time_end r)) as [e|] eqn:G2; [| intros []].
  intros [E | [E | H]].
  - destruct k; inversion E; subst. cbn. eauto.
  - destruct k; discriminate E.
  - apply in_app_or in H. destruct H as [H | H];
      [| apply in_app_or in H; destruct H as [H | H]];
      apply resolve_op_names in H; destruct H as (-> & n & Hn & ->);
      cbn; eauto.
Qed.

Lemma prefix_of_in {A} (a b : list A) x : prefix_of a b -> In x a -> In x b.
Proof. intros [c ->] H. apply in_or_app. now left. Qed.

Lemma in_firstn {A} n (l : list A) x : In x (firstn n l) -> In x l.
Proof.
  intros H. rewrite <- (firstn_skipn n l). apply in_or_app. now left.
Qed.

(** ** The pieces of a split *)

Module SplitPieces.
Import PyStr SplitProofs.

(** [find] gives the first occurrence *)
Lemma find_first sep s :
  forall j, find sep s = Some j ->
  forall pre post, s = pre ++ sep ++ post -> j <= length pre.
Proof.
  induction s as [|a s IH]; intros j H pre post E; cbn [find] in H.
  - destruct (starts_with sep []); [inversion H; lia | discriminate].
  - destruct (starts_with sep (a :: s)) eqn:St; [inversion H; lia |].
    destruct (find sep s) as [j'|] eqn:F; [| discriminate].
    cbn in H. inversion H; subst j. clear H.
    destruct pre as [|b pre].
    + exfalso. cbn [app] in E.
      assert (X : starts_with sep (a :: s) = true)
        by (apply starts_with_iff; eauto).
      congruence.
    + cbn [app] in E. inversion E; subst. cbn [length].
      apply le_n_S. eapply IH; eauto.
Qed.

Lemma firstn_clean sep s j :
  sep <> [] -> find sep s = Some j -> ~ occurs sep (firstn j s).
Proof.
  intros Hs F (pre & post & E).
  pose proof (find_some _ _ _ F) as [_ Hj].
  assert (E' : s = pre ++ sep ++ (post ++ skipn j s)).
  { rewrite <- (firstn_skipn j s) at 1. rewrite E.
    now rewrite <- !app_assoc. }
  pose proof (find_first _ _ _ F _ _ E') as Hle.
  assert (L : length (firstn j s) = length (pre ++ sep ++ post)) by now rewrite E.
  rewrite length_firstn, !length_app in L.
  destruct sep; [congruence |]. cbn [length] in *. lia.
Qed.

Lemma split_clean sep :
  sep <> [] ->
  forall n s, length s <= n -> Forall (fun p => ~ occurs sep p) (split s sep).
Proof.
  intros Hs. induction n as [|n IH]; intros s Hn;
    rewrite (split_unfold _ _ Hs); destruct (find sep s) as [j|] eqn:F.
  - exfalso. apply find_some in F. destruct F as [_ F].
    destruct sep; [congruence |]. cbn [length] in *. lia.
  - constructor; [now apply find_none | constructor].
  - constructor; [now apply firstn_clean |].
    apply IH. rewrite length_skipn.
    destruct sep; [congruence |]. cbn [length] in *. lia.
  - constructor; [now apply find_none | constructor].
Qed.

End SplitPieces.

(** ** A second import of the same records *)

Lemma key_of_record_keyed prefix k vals r :
  key_of_record prefix k vals r -> well_keyed k vals.
Proof.
  destruct k; cbn.
  - intros (s & e & _ & _ & ->). constructor.
  - intros (n & _ & ->). constructor.
  - intros (n & _ & ->). constructor.
  - intros (n & _ & ->). constructor.
Qed.

Lemma lookup_tables_same_refl db : lookup_tables_same db db.
Proof. intros k. reflexivity. Qed.

Lemma lookup_tables_same_trans a b c :
  lookup_tables_same a b -> lookup_tables_same b c -> lookup_tables_same a c.
Proof. intros H1 H2 k. now rewrite H2, H1. Qed.

Lemma lookup_pk_same k vals db db' :
  lookup_tables_same db db' -> lookup_pk k vals db' = lookup_pk k vals db.
Proof. intros H. unfold lookup_pk. now rewrite H. Qed.

Lemma lookup_tables_same_store tbl r db :
  fact_table tbl -> lookup_tables_same db (upd tbl (db tbl ++ [r]) db).
Proof. intros F k. apply upd_other. apply F. Qed.

(** a call for a key that a row carries adds no row *)
Lemma resolve_present k vals w res w' :
  well_keyed k vals ->
  (exists v, lookup_pk k vals (current w) = Some v) ->
  resolve k vals w = (res, w') ->
  current w' = current w.
Proof.
  intros W (v0 & L) H. apply resolve_resolved in H.
  unfold lookup_pk in L. rewrite (wk_bind _ _ W) in L.
  assert (Hs : forall r w1, searched (searcher_of k) vals w r w1 ->
                            current w1 = current w).
  { intros r w1 Hs.
    inversion Hs as [B | conds r0 B F | conds B F A | conds B F A]; subst;
      try reflexivity;
      rewrite (wk_bind _ _ W) in B; inversion B; subst conds;
      rewrite F in L; discriminate L. }
  inversion H as [v G | v w1 G S1 | e w1 G S1]; subst; cbn;
    [reflexivity | now apply Hs in S1 | now apply Hs in S1].
Qed.

Lemma store_lookup_tables tbl r w res w' :
  fact_table tbl -> store tbl r w = (res, w') ->
  lookup_tables_same (current w) (current w').
Proof.
  intros F H. apply store_inv in H.
  destruct H as [(_ & _ & ->) | (_ & _ & ->)]; cbn.
  - now apply lookup_tables_same_store.
  - apply lookup_tables_same_refl.
Qed.

Lemma insert_returning_lookup_tables tbl cols pk w res w' :
  fact_table tbl -> insert_returning tbl cols pk w = (res, w') ->
  lookup_tables_same (current w) (current w').
Proof.
  intros F H. apply insert_returning_inv in H.
  destruct H as [(_ & _ & ->) | (_ & _ & ->)]; cbn.
  - now apply lookup_tables_same_store.
  - apply lookup_tables_same_refl.
Qed.

Lemma assoc_loop_present f gid names :
  forall w res w',
    (forall n, In n names ->
       exists v, lookup_pk (multi_kind f) (name_key (multi_kind f) n) (current w)
                 = Some v) ->
    assoc_loop f gid names w = (res, w') ->
    lookup_tables_same (current w) (current w').
Proof.
  unfold assoc_loop. induction names as [|n names IH]; intros w res w' P H;
    cbn [for_each] in H.
  - inversion H; subst. apply lookup_tables_same_refl.
  - assert (Step : forall r1 w1,
               bind (resolve (multi_kind f) (name_key (multi_kind f) n))
                 (fun id => insert (multi_table f) (assoc_row f gid id)) w
               = (r1, w1) ->
               lookup_tables_same (current w) (current w1)).
    { intros r1 w1 H1. apply bind_inv in H1.
      destruct H1 as [(id & w0 & H1 & H2) | (e & H1 & _)].
      - rewrite <- (resolve_present _ _ _ _ _ (multi_kind_keyed f n)
                      (P n (or_introl eq_refl)) H1).
        eapply store_lookup_tables; [apply multi_table_fact | exact H2].
      - rewrite (resolve_present _ _ _ _ _ (multi_kind_keyed f n)
                   (P n (or_introl eq_refl)) H1).
        apply lookup_tables_same_refl. }
    apply bind_inv in H. destruct H as [(u & w1 & H1 & H2) | (e & H1 & _)].
    + pose proof (Step _ _ H1) as S1.
      eapply lookup_tables_same_trans; [exact S1 |].
      eapply IH; [| exact H2].
      intros m Hm. destruct (P m (or_intror Hm)) as (v & L).
      exists v. now rewrite (lookup_pk_same _ _ _ _ S1).
    + exact (Step _ _ H1).
Qed.

(** a record all of whose keys are carried by rows adds no row to the
    tables the searchers read *)
Lemma process_row_present prefix r w res w' :
  (forall k vals, key_of_record prefix k vals r ->
     exists v, lookup_pk k vals (current w) = Some v) ->
  process_row prefix r w = (res, w') ->
  lookup_tables_same (current w) (current w').
Proof.
  intros P. rewrite process_row_unfold. intros H.
  apply bind_inv in H. destruct H as [(s & w0 & H1 & H) | (e' & H1 & _)].
  2:{ inversion H1; subst. apply lookup_tables_same_refl. }
  inversion H1 as [[G1 G2]]. subst w0.
  apply bind_inv in H. destruct H as [(e & w0 & H2 & H) | (e' & H2 & _)].
  2:{ inversion H2; subst. apply lookup_tables_same_refl. }
  inversion H2 as [[G3 G4]]. subst w0.
  assert (PA : exists v,
             lookup_pk Attack (attack_key s e (prefix ++ source r)) (current w)
             = Some v).
  { apply P. cbn. eauto. }
  assert (PN : forall f w1,
             lookup_tables_same (current w) (current w1) ->
             forall n, In n (PyStr.split (multi_field f r) sep_and) ->
               exists v, lookup_pk (multi_kind f) (name_key (multi_kind f) n)
                           (current w1) = Some v).
  { intros f w1 S1 n Hn.
    destruct (P (multi_kind f) (name_key (multi_kind f) n)) as (v & L).
    - destruct f; cbn; exists n; split; auto.
    - exists v. now rewrite (lookup_pk_same _ _ _ _ S1). }
  apply bind_inv in H. destruct H as [(aid & w1 & H3 & H) | (e' & H3 & _)].
  2:{ rewrite (resolve_present _ _ _ _ _ (wk_attack _ _ _) PA H3).
      apply lookup_tables_same_refl. }
  pose proof (resolve_present _ _ _ _ _ (wk_attack _ _ _) PA H3) as C1.
  apply bind_inv in H. destruct H as [(gid & w2 & H4 & H) | (e' & H4 & _)].
  2:{ rewrite <- C1.
      eapply insert_returning_lookup_tables; [apply fact_table_groups | exact H4]. }
  assert (S2 : lookup_tables_same (current w) (current w2)).
  { rewrite <- C1.
    eapply insert_returning_lookup_tables; [apply fact_table_groups | exact H4]. }
  apply bind_inv in H. destruct H as [(u1 & w3 & H5 & H) | (e' & H5 & _)].
  2:{ eapply lookup_tables_same_trans; [exact S2 |].
      eapply assoc_loop_present; [apply (PN MPlaces _ S2) | exact H5]. }
  assert (S3 : lookup_tables_same (current w) (current w3)).
  { eapply lookup_tables_same_trans; [exact S2 |].
    eapply assoc_loop_present; [apply (PN MPlaces _ S2) | exact H5]. }
  apply bind_inv in H. destruct H as [(u2 & w4 & H6 & H) | (e' & H6 & _)].
  2:{ eapply lookup_tables_same_trans; [exact S3 |].
      eapply assoc_loop_present; [apply (PN MTargets _ S3) | exact H6]. }
  assert (S4 : lookup_tables_same (current w) (current w4)).
  { eapply lookup_tables_same_trans; [exact S3 |].
    eapply assoc_loop_present; [apply (PN MTargets _ S3) | exact H6]. }
  eapply lookup_tables_same_trans; [exact S4 |].
  eapply assoc_loop_present; [apply (PN MMissiles _ S4) | exact H].
Qed.

Lemma present_same prefix rows db db' :
  lookup_tables_same db db' -> present prefix rows db -> present prefix rows db'.
Proof.
  intros S P r k vals Hin K. destruct (P r k vals Hin K) as (v & L).
  exists v. now rewrite (lookup_pk_same _ _ _ _ S).
Qed.

Lemma present_grows prefix rows db db' :
  grows db db' -> present prefix rows db -> present prefix rows db'.
Proof.
  intros G P r k vals Hin K. destruct (P r k vals Hin K) as (v & L).
  exists v. eapply lookup_pk_grows; eauto.
Qed.

Lemma process_all_present prefix rows :
  forall w res w',
    present prefix rows (current w) ->
    process_all prefix rows w = (res, w') ->
    lookup_tables_same (current w) (current w').
Proof.
  induction rows as [|x rows IH]; intros w res w' P H.
  - inversion H; subst. apply lookup_tables_same_refl.
  - rewrite process_all_cons in H.
    assert (Px : forall r1 w1, process_row prefix x w = (r1, w1) ->
                               lookup_tables_same (current w) (current w1)).
    { intros r1 w1 H1. eapply process_row_present; [| exact H1].
      intros k vals K. apply (P x k vals); [now left | exact K]. }
    apply bind_inv in H. destruct H as [(u & w1 & H1 & H2) | (e & H1 & _)].
    + pose proof (Px _ _ H1) as S1.
      eapply lookup_tables_same_trans; [exact S1 |].
      eapply IH; [| exact H2].
      apply (present_same _ _ _ _ S1).
      intros r k vals Hin K. apply (P r k vals); [now right | exact K].
    + exact (Px _ _ H1).
Qed.

Lemma step_grows w w' seg : step w w' seg -> grows (current w) (current w').
Proof. intros St t. exists (inserted t seg). apply (step_current _ _ _ St). Qed.

Lemma names_resolved_in f db names ids n :
  names_resolved f db names ids -> In n names ->
  exists id, lookup_pk (multi_kind f) (name_key (multi_kind f) n) db = Some id.
Proof.
  unfold names_resolved. induction 1 as [|a id names ids Ha _ IH]; intros Hin.
  - destruct Hin.
  - destruct Hin as [<- | Hin]; eauto.
Qed.

(** after its records were processed from a state of a run, their keys
    are carried by rows *)
Lemma process_all_makes_present prefix rows :
  forall w w',
    run_inv w -> process_all prefix rows w = (Ok tt, w') ->
    run_inv w' /\ grows (current w) (current w') /\
    present prefix rows (current w').
Proof.
  induction rows as [|x rows IH]; intros w w' I H.
  - inversion H; subst. split; [exact I |]. split; [apply grows_refl |].
    intros r k vals [].
  - rewrite process_all_cons in H. apply bind_ok_inv in H.
    destruct H as (u & w1 & H1 & H2). destruct u.
    destruct (process_row_ok _ _ _ _ I H1)
      as (I1 & s & e & aid & gid & G1 & G2 & LA & _ & LN).
    destruct (txn_process_row _ _ _ _ _ H1) as [_ [seg St]].
    destruct (IH _ _ I1 H2) as (I2 & Gr & P2).
    split; [exact I2 |].
    split; [eapply grows_trans; [apply (step_grows _ _ _ St) | exact Gr] |].
    intros r k vals [<- | Hin] K; [| now apply (P2 r k vals)].
    assert (L1 : exists v, lookup_pk k vals (current w1) = Some v).
    { destruct k; cbn in K.
      - destruct K as (s' & e' & G1' & G2' & ->).
        rewrite G1 in G1'. rewrite G2 in G2'.
        inversion G1'; inversion G2'; subst. eauto.
      - destruct K as (n & Hn & ->).
        destruct (LN MTargets) as (ids & R & _).
        exact (names_resolved_in _ _ _ _ _ R Hn).
      - destruct K as (n & Hn & ->).
        destruct (LN MPlaces) as (ids & R & _).
        exact (names_resolved_in _ _ _ _ _ R Hn).
      - destruct K as (n & Hn & ->).
        destruct (LN MMissiles) as (ids & R & _).
        exact (names_resolved_in _ _ _ _ _ R Hn). }
    destruct L1 as (v & L1). exists v. eapply lookup_pk_grows; eauto.
Qed.

(** ** The references of the rows a run adds *)

Lemma has_key_grows db db' tbl col v :
  grows db db' -> has_key db tbl col v -> has_key db' tbl col v.
Proof.
  intros G (r & Hin & E). exists r. split; [| exact E].
  eapply grows_in; eauto.
Qed.

Lemma group_row_linked_grows db db' g :
  grows db db' -> group_row_linked db g -> group_row_linked db' g.
Proof. intros G. apply has_key_grows. exact G. Qed.

Lemma assoc_row_linked_grows f db db' a :
  grows db db' -> assoc_row_linked f db a -> assoc_row_linked f db' a.
Proof.
  intros G [H1 H2]. split; eapply has_key_grows; eauto.
Qed.

Lemma lookup_pk_has_key k vals db id :
  well_keyed k vals -> lookup_pk k vals db = Some id ->
  has_key db (table (searcher_of k)) (pk_col (searcher_of k)) id.
Proof.
  intros W L. destruct (lookup_pk_row _ _ _ _ W L) as (r & Hin & _ & E).
  exists r. auto.
Qed.

Lemma assoc_row_ids f gid id :
  row_get "group_id" (assoc_row f gid id) = gid /\
  row_get (multi_id f) (assoc_row f gid id) = id.
Proof. destruct f; split; reflexivity. Qed.

Lemma names_resolved_linked f db gid names ids :
  has_key db "attack_groups" "group_id" gid ->
  names_resolved f db names ids ->
  Forall (assoc_row_linked f db) (map (assoc_row f gid) ids).
Proof.
  intros Hg. unfold names_resolved.
  induction 1 as [|n id names ids Hn _ IH]; cbn [map]; constructor;
    [| exact IH].
  destruct (assoc_row_ids f gid id) as [E1 E2].
  split; [now rewrite E1 |]. rewrite E2.
  eapply lookup_pk_has_key; [apply multi_kind_keyed | exact Hn].
Qed.

(** The records in sequence, from a state of a run: every fact-group row
    added refers to a period that is there, every association row to a
    group and an entity that are there. *)
Lemma process_all_linked prefix rows :
  forall w w',
    run_inv w -> process_all prefix rows w = (Ok tt, w') ->
    run_inv w' /\ grows (current w) (current w') /\
    (exists added,
       current w' "attack_groups"%string
       = current w "attack_groups"%string ++ added /\
       Forall (group_row_linked (current w')) added) /\
    (forall f, exists added,
       current w' (multi_table f) = current w (multi_table f) ++ added /\
       Forall (assoc_row_linked f (current w')) added).
Proof.
  induction rows as [|x rows IH]; intros w w' I H.
  - inversion H; subst. split; [exact I |]. split; [apply grows_refl |].
    split; [| intros f]; exists []; rewrite app_nil_r; auto.
  - rewrite process_all_cons in H. apply bind_ok_inv in H.
    destruct H as (u & w1 & H1 & H2). destruct u.
    destruct (process_row_ok _ _ _ _ I H1)
      as (I1 & s & e & aid & gid & _ & _ & LA & TG & LN).
    destruct (txn_process_row _ _ _ _ _ H1) as [_ [seg St]].
    destruct (IH _ _ I1 H2) as (I2 & Gr & (ag & TG2 & FG2) & FA2).
    split; [exact I2 |].
    split; [eapply grows_trans; [apply (step_grows _ _ _ St) | exact Gr] |].
    split.
    + exists ((("group_id"%string, gid) :: group_cols aid x) :: ag).
      split; [rewrite TG2, TG, <- app_assoc; reflexivity |].
      constructor; [| exact FG2].
      apply (group_row_linked_grows _ _ _ Gr).
      unfold group_row_linked.
      change (row_get "attack_id" (("group_id"%string, gid) :: group_cols aid x))
        with aid.
      exact (lookup_pk_has_key Attack _ _ _ (wk_attack _ _ _) LA).
    + intros f. destruct (LN f) as (ids & R & TA).
      destruct (FA2 f) as (aa & TA2 & FA).
      exists (map (assoc_row f gid) ids ++ aa).
      split; [rewrite TA2, TA, <- app_assoc; reflexivity |].
      apply Forall_app. split; [| exact FA].
      eapply Forall_impl; [intros a; apply (assoc_row_linked_grows _ _ _ _ Gr) |].
      eapply names_resolved_linked; [| exact R].
      exists (("group_id"%string, gid) :: group_cols aid x).
      split; [rewrite TG; apply in_or_app; right; now left | reflexivity].
Qed.

(** ** The statement behind a [DatabaseError] *)














(** * The claims *)

(** C1. For each of the four entity kinds and every mapping that gives all
    the required fields a (non-NULL) value, [db_searcher] returns the key
    of a row of the table whose listed columns all equal the given values
    when there is one, leaving every table as it is; when there is none
    and the storage layer takes the row, it appends one new row holding
    the generated key and exactly the given values (every other column
    NULL) and returns that key.  In no case is an existing row changed:
    the table afterwards is the old table followed by at most that row. *)
Theorem db_searcher_find_or_create (k : kind) (vals conds : params) (w : world)
    (Hall : bind_placeholders (kw_cols (searcher_of k)) vals = Some conds)
    (Hval : Forall (fun cv => snd cv <> VNull) conds) :
  let sp := searcher_of k in
  let out := db_searcher sp vals w in
  let r_new := new_row (table sp) (pk_col sp) conds w in
  ((exists r, In r (current w (table sp)) /\ columns_equal conds r) ->
   exists r, In r (current w (table sp)) /\ columns_equal conds r /\
             fst out = Ok (row_get (pk_col sp) r) /\
             current (snd out) = current w)
  /\
  ((forall r, In r (current w (table sp)) -> ~ columns_equal conds r) ->
   accepts w (table sp) (current w (table sp)) r_new = true ->
   fst out = Ok (VInt (sequences w (table sp))) /\
   current (snd out) (table sp) = current w (table sp) ++ [r_new] /\
   columns_equal conds r_new /\
   row_get (pk_col sp) r_new = VInt (sequences w (table sp)) /\
   (forall c, c <> pk_col sp -> ~ In c (map fst conds) -> row_get c r_new = VNull))
  /\
  (exists added,
     current (snd out) (table sp) = current w (table sp) ++ added /\
     length added <= 1 /\
     (forall t, t <> table sp -> current (snd out) t = current w t) /\
     committed (snd out) = committed w).
Proof.
  cbv zeta. set (sp := searcher_of k).
  destruct (db_searcher sp vals w) as [res w'] eqn:E.
  apply db_searcher_searched in E. cbn [fst snd]. subst sp.
  assert (Hfind : forall r0,
             List.find (row_matches conds) (current w (table (searcher_of k))) = Some r0 ->
             In r0 (current w (table (searcher_of k))) /\ columns_equal conds r0).
  { intros r0 F. apply find_some in F. destruct F as [F1 F2].
    split; [exact F1 |]. now apply row_matches_iff. }
  assert (Hnone :
             List.find (row_matches conds) (current w (table (searcher_of k))) = None ->
             forall r, In r (current w (table (searcher_of k))) -> ~ columns_equal conds r).
  { intros F r Hin Hr. apply (row_matches_iff _ _ Hval) in Hr.
    pose proof (find_none _ _ F _ Hin) as N. congruence. }
  split; [| split].
  - intros (r & Hin & Hr).
    destruct E as [B | c r0 B F | c B F A | c B F A];
      try (exfalso; congruence);
      rewrite Hall in B; inversion B; subst c;
      try (exfalso; exact (Hnone F r Hin Hr)).
    destruct (Hfind _ F) as [H1 H2].
    exists r0. auto.
  - intros Hno Hacc.
    destruct E as [B | c r0 B F | c B F A | c B F A];
      try (exfalso; congruence);
      rewrite Hall in B; inversion B; subst c.
    + exfalso. destruct (Hfind _ F) as [H1 H2]. exact (Hno _ H1 H2).
    + split; [reflexivity |]. split.
      * cbn. now rewrite upd_same.
      * exact (new_row_columns k vals conds w Hall).
  - destruct E as [B | c r0 B F | c B F A | c B F A].
    + exists []. rewrite app_nil_r. cbn. auto.
    + exists []. rewrite app_nil_r. cbn. auto.
    + exists [new_row (table (searcher_of k)) (pk_col (searcher_of k)) c w]. cbn.
      split; [now rewrite upd_same |]. split; [lia |].
      split; [| reflexivity]. intros t Ht. now apply upd_other.
    + exists []. rewrite app_nil_r. cbn. auto.
Qed.

(** C2. A run started with no open transaction leaves in the store exactly
    the rows of the blocks it committed: the log is the committed blocks
    (each followed by its commit and its report) and then, when the run
    raised inside a block, that block's statements and a rollback; the
    committed tables are the old tables followed by the rows the committed
    blocks inserted, none of the failed block's rows, and the connection
    sees the same. *)
Theorem import_dataset_block_atomicity (data_rows : list record) (block_size : Z)
    (src_url_prefix : str) (w : world) (res : result unit) (w' : world)
    (Hidle : current w = committed w)
    (Hrun : import_dataset data_rows block_size src_url_prefix w = Some (res, w')) :
  exists blocks tail,
    log w' = log w ++ closed 0 blocks ++ tail /\
    Forall (fun b => Forall inner (fst b)) blocks /\
    (forall t, committed w' t =
               committed w t ++ flat_map (fun b => inserted t (fst b)) blocks) /\
    current w' = committed w' /\
    match res with
    | Ok _ => tail = []
    | Raise _ => tail = [] \/
                 exists seg, Forall inner seg /\ tail = seg ++ [EvRollback]
    end.
Proof.
  unfold import_dataset in Hrun.
  apply import_loop_atomic in Hrun; [exact Hrun | exact Hidle].
Qed.


(** C4, as the code has it.  [get_datetime] returns a value exactly for
    the texts [strptime] takes: without a colon, a four-digit year, [-], a
    month 1..12 and [-], a day 1..31, month and day written with one or
    two digits (the day also with a blank and one digit), forming a date
    of the calendar in the years 1..9999, which gives midnight of that
    date; with a colon, such a date, then white space, then the hour 0..23,
    [:] and the minute 0..59, each with one or two digits, which gives that
    date and time.  Every other text raises [ValueError]. *)
Theorem get_datetime_spec (raw_str : str) :
  (forall dt, get_datetime raw_str = Ok dt <-> DateFormat.accepted raw_str dt)
  /\
  ((forall dt, ~ DateFormat.accepted raw_str dt) ->
   get_datetime raw_str = Raise ValueError).
Proof.
  split.
  - intros dt. apply DateProofs.get_datetime_iff.
  - intros H. destruct (get_datetime raw_str) as [dt|e] eqn:E.
    + exfalso. apply (H dt). now apply DateProofs.get_datetime_iff.
    + unfold get_datetime in E.
      destruct (if PyStr.contains ":" raw_str
                then Strptime.strptime_datetime raw_str
                else Strptime.strptime_date raw_str); congruence.
Qed.

(** C4 as stated fails: a date with one-digit month and day is in neither
    of the formats YYYY-MM-DD and YYYY-MM-DD HH:MM, and it is parsed. *)
Lemma get_datetime_unpadded :
  get_datetime (txt "2022-3-1") = Ok (mkDatetime 2022 3 1 0 0) /\
  ~ DateFormat.strict_date (txt "2022-3-1") /\
  ~ DateFormat.strict_datetime (txt "2022-3-1").
Proof.
  split; [reflexivity |]. split.
  - intros (y1 & y2 & y3 & y4 & m1 & m2 & d1 & d2 & E & _). discriminate E.
  - intros (sd & h1 & h2 & n1 & n2 & E & (y1 & y2 & y3 & y4 & m1 & m2 & d1 & d2 & -> & _) & _).
    discriminate E.
Qed.

(** C9. With a block size of 0 the run ends at once, with a negative one
    it raises [ValueError] at once; either way nothing was logged (no
    statement, no report), no table, sequence or cache changed and the
    iterator still holds every row. *)
Theorem import_dataset_degenerate_block_size (data_rows : list record)
    (block_size : Z) (src_url_prefix : str) (w : world)
    (HB : (block_size <= 0)%Z) :
  exists w',
    import_dataset data_rows block_size src_url_prefix w
    = Some ((if (block_size =? 0)%Z then Ok tt else Raise ValueError), w') /\
    log w' = log w /\ current w' = current w /\ committed w' = committed w /\
    sequences w' = sequences w /\ caches w' = caches w /\
    data_iter w' = data_rows.
Proof.
  exists (with_data_iter data_rows w).
  split; [| cbn; auto 10].
  unfold import_dataset. cbn [length import_loop].
  unfold import_block, islice.
  destruct (Z.eqb_spec block_size 0) as [-> | N].
  - reflexivity.
  - destruct (block_size <? 0)%Z eqn:B; [reflexivity |].
    apply Z.ltb_ge in B. lia.
Qed.

(** C5, as the code has it.  The cache of the event-period searcher holds
    at most 1 entry and the caches of the place, target and missile
    searchers at most 500 each, all through a run.  A call that returns
    puts its key in front of the cache, keeps the other entries behind it
    in their order and cuts the cache to its capacity.  A key that is not
    cached (never seen, or dropped) is searched in its table again, which
    gives the identity the tables hold, the one every earlier call for the
    key in the run returned.  In a run started with empty caches each
    cache holds, after the run, the keys its searcher returned last, one
    entry per key, the most recently used first, as many as its capacity:
    the keys dropped are the least recently used ones. *)
Theorem lru_caches_bounded :
  (forall data_rows block_size src_url_prefix w res w',
     sizes_ok w ->
     import_dataset data_rows block_size src_url_prefix w = Some (res, w') ->
     forall k, length (caches w' k) <= match k with Attack => 1 | _ => 500 end)
  /\
  (forall k vals w res w',
     sizes_ok w -> resolve k vals w = (res, w') ->
     sizes_ok w' /\
     forall v, res = Ok v ->
       caches w' k = firstn (maxsize k) ((vals, v) :: cache_remove vals (caches w k)) /\
       forall k', k' <> k -> caches w' k' = caches w k')
  /\
  (forall k vals w v w',
     run_inv w -> well_keyed k vals ->
     cache_get vals (caches w k) = None ->
     resolve k vals w = (Ok v, w') ->
     (exists seg, log w' = log w ++ seg /\
                  In (EvSelect (table (searcher_of k)) vals) seg) /\
     lookup_pk k vals (current w') = Some v /\
     forall v0, In (EvResolved k vals v0) (log w) -> v = v0)
  /\
  (forall data_rows block_size src_url_prefix w res w',
     (forall k, caches w k = []) -> log w = [] ->
     import_dataset data_rows block_size src_url_prefix w = Some (res, w') ->
     forall k,
       caches w' k
       = firstn (maxsize k) (by_last_use (rev (calls k (log w'))))).
Proof.
  split; [| split; [| split]].
  - intros data_rows block_size prefix w res w' Hs Hrun k.
    unfold import_dataset in Hrun.
    apply import_loop_sizes in Hrun; [| exact Hs].
    specialize (Hrun k). destruct k; exact Hrun.
  - intros k vals w res w' Hs H. apply resolve_resolved in H. split.
    + eapply resolved_sizes; eauto.
    + intros v ->. now apply resolved_cache.
  - intros k vals w v w' HI W G H.
    destruct (resolve_requery _ _ _ _ _ HI W G H) as [Hq Hl].
    split; [exact Hq |]. split; [exact Hl |].
    intros v0 H0. destruct (resolve_again _ _ _ _ HI H0) as (w'' & E & _).
    congruence.
  - intros data_rows block_size prefix w res w' Hc Hl Hrun.
    unfold import_dataset in Hrun.
    apply import_loop_lru in Hrun; [exact Hrun |].
    now apply lru_inv_fresh.
Qed.

(** C5 as stated fails for the event periods: after a run that resolved
    two periods the cache of [get_attack_id] holds one entry, and the
    period resolved first is no longer in it. *)
Lemma attack_cache_holds_one_period :
  exists w',
    import_dataset [rec1; rec2] 100 (txt "fb/") empty_world = Some (Ok tt, w') /\
    In (EvResolved Attack
          (attack_key (mkDatetime 2022 3 1 0 0) (mkDatetime 2022 3 1 14 30)
             (txt "fb/src1")) (VInt 1)) (log w') /\
    In (EvResolved Attack
          (attack_key (mkDatetime 2022 3 2 0 0) (mkDatetime 2022 3 2 0 0)
             (txt "fb/src2")) (VInt 2)) (log w') /\
    length (caches w' Attack) = 1 /\
    cache_get (attack_key (mkDatetime 2022 3 1 0 0) (mkDatetime 2022 3 1 14 30)
                 (txt "fb/src1")) (caches w' Attack) = None.
Proof.
  destruct (import_dataset [rec1; rec2] 100 (txt "fb/") empty_world)
    as [[[[]|e] w']|] eqn:E; try (vm_compute in E; discriminate).
  exists w'. split; [reflexivity |].
  vm_compute in E. inversion E; subst w'. clear E.
  split; [cbn; tauto |]. split; [cbn; tauto |].
  split; reflexivity.
Qed.

(** C6. In a run started with empty caches, any two returns of a memoised
    searcher for the same kind and key give the same identity, and the run
    inserted at most one row with that key into the kind's table.  At every
    state of a run a key that was resolved before resolves again to the
    same identity without any insert, whether it is still cached or not. *)
Theorem resolve_twice_same_identity :
  (forall data_rows block_size src_url_prefix w res w',
     (forall k, caches w k = []) -> log w = [] ->
     import_dataset data_rows block_size src_url_prefix w = Some (res, w') ->
     forall k vals v1 v2,
       In (EvResolved k vals v1) (log w') ->
       In (EvResolved k vals v2) (log w') ->
       v1 = v2 /\ inserts_for k vals (log w') <= 1)
  /\
  (forall w k vals v0,
     run_inv w -> In (EvResolved k vals v0) (log w) ->
     exists w',
       resolve k vals w = (Ok v0, w') /\
       current w' = current w /\
       exists seg, log w' = log w ++ seg /\
                   forall tbl r, ~ In (EvInsert tbl r) seg).
Proof.
  split.
  - intros data_rows block_size prefix w res w' Hc Hl Hrun k vals v1 v2 H1 H2.
    unfold import_dataset in Hrun.
    apply import_loop_run_inv in Hrun.
    + destruct Hrun as [(C1 & C2 & C3) _]. split.
      * eapply C1; eauto.
      * apply C3. eapply C2; eauto.
    + apply run_inv_fresh; assumption.
  - intros w k vals v0 HI H. now apply resolve_again.
Qed.


(** C8. The operations a run logs are the operations of its records in
    the order of the source, and for each record in the order: resolve
    the period, insert the fact-group row, then for the places, then for
    the targets, then for the missiles, name by name, resolve the name and
    insert its association row.  A run that raises logs a start of that
    sequence, a run with a block size of at least 1 that ends normally
    logs all of it.  Every association row carries the key of the
    fact-group row inserted last before it. *)
Theorem import_dataset_order (data_rows : list record) (block_size : Z)
    (src_url_prefix : str) (w : world) (res : result unit) (w' : world)
    (Hrun : import_dataset data_rows block_size src_url_prefix w = Some (res, w')) :
  exists seg,
    log w' = log w ++ seg /\
    prefix_of (ops seg) (flat_map (record_ops src_url_prefix) data_rows) /\
    ((0 < block_size)%Z -> res = Ok tt ->
     ops seg = flat_map (record_ops src_url_prefix) data_rows) /\
    linked None seg.
Proof.
  unfold import_dataset in Hrun.
  apply import_loop_trace in Hrun.
  destruct Hrun as (k & seg & L & D & T & K & F).
  cbn [data_iter with_data_iter log] in *.
  exists seg. split; [exact L |]. split; [| split; [| apply K]].
  - apply traced_prefix in T.
    rewrite <- (firstn_skipn k data_rows) at 1. rewrite flat_map_app.
    now apply prefix_of_app_r.
  - intros HB ->. specialize (F eq_refl HB). rewrite F in D.
    cbn in T. rewrite T. f_equal.
    apply firstn_all2.
    assert (length (skipn k data_rows) = 0) by (now rewrite <- D).
    rewrite length_skipn in H. lia.
Qed.

(** C10. When a record whose launch_place, target or model is the empty
    text is processed without an exception from a state of a run, the
    field is not skipped: its split is the one name [""], the table of the
    entity has a row with the empty name, and the association table of the
    field gets exactly one row, with the key of the record's fact-group row
    and the key of that entity. *)
Theorem process_row_empty_field (src_url_prefix : str) (data_row : record)
    (w w' : world) (f : multi)
    (Hinv : run_inv w)
    (Hrun : process_row src_url_prefix data_row w = (Ok tt, w'))
    (Hempty : multi_field f data_row = []) :
  PyStr.split (multi_field f data_row) sep_and = [[]] /\
  exists gid group_row id entity,
    current w' "attack_groups"%string = current w "attack_groups"%string ++ [group_row] /\
    row_get "group_id" group_row = gid /\
    In entity (current w' (table (searcher_of (multi_kind f)))) /\
    columns_equal (name_key (multi_kind f) []) entity /\
    row_get (pk_col (searcher_of (multi_kind f))) entity = id /\
    current w' (multi_table f) = current w (multi_table f) ++ [assoc_row f gid id].
Proof.
  destruct (process_row_ok _ _ _ _ Hinv Hrun)
    as (_ & s & e & aid & gid & _ & _ & _ & Hg & Hf).
  destruct (Hf f) as (ids & Hr & Ht).
  rewrite Hempty in *. change (PyStr.split [] sep_and) with [@nil ascii] in *.
  split; [reflexivity |].
  inversion Hr as [| n id ns ids' Hid Hrest]; subst.
  inversion Hrest; subst.
  destruct (lookup_pk_row _ _ _ _ (multi_kind_keyed f []) Hid) as (entity & H1 & H2 & H3).
  exists gid, (("group_id"%string, gid) :: group_cols aid data_row), id, entity.
  auto 10.
Qed.

(** * Further properties of the importer *)

(** X1. [import_dataset] ends on every finite input, for every block size:
    the [while True] loop reaches its [break] or raises.  The rows it read
    are a front part of the input, none is read twice or skipped, and when
    it ends normally with a block size of at least 1 it has read them
    all. *)
Theorem import_dataset_terminates (data_rows : list record) (block_size : Z)
    (src_url_prefix : str) (w : world) :
  exists res w',
    import_dataset data_rows block_size src_url_prefix w = Some (res, w') /\
    (exists k, data_iter w' = skipn k data_rows) /\
    (res = Ok tt -> (0 < block_size)%Z -> data_iter w' = []).
Proof.
  destruct (import_dataset_total data_rows block_size src_url_prefix w)
    as [[res w'] H].
  exists res, w'. split; [exact H |].
  unfold import_dataset in H. apply import_loop_trace in H.
  destruct H as (k & seg & _ & D & _ & _ & F). cbn in D.
  split; [exists k; exact D | exact F].
Qed.



(** X4. The reports tell what is in the store.  After a run from an idle
    connection, normal or not, with [n] the sum of the row counts of its
    reports: the first [n] input records are the ones committed, the
    fact-group table holds one more row for each of them, in their order
    and with their counts, and each association table holds one more row
    for every name of its field in these records.  A run that ends
    normally with a block size of at least 1 reports every record. *)
Theorem import_dataset_reported_rows (data_rows : list record) (block_size : Z)
    (src_url_prefix : str) (w : world) (res : result unit) (w' : world)
    (Hidle : current w = committed w)
    (Hrun : import_dataset data_rows block_size src_url_prefix w
            = Some (res, w')) :
  exists seg added,
    log w' = log w ++ seg /\
    reported seg <= length data_rows /\
    Forall (fun r => parses r = true) (firstn (reported seg) data_rows) /\
    committed w' "attack_groups"%string
    = committed w "attack_groups"%string ++ added /\
    map group_units added = map record_units (firstn (reported seg) data_rows) /\
    (forall f,
       length (committed w' (multi_table f))
       = length (committed w (multi_table f))
         + names_count f (firstn (reported seg) data_rows)) /\
    (res = Ok tt -> (0 < block_size)%Z -> reported seg = length data_rows).
Proof.
  unfold import_dataset in Hrun.
  destruct (import_loop_committed _ _ _ _ (with_data_iter data_rows w) w _ _
              Hidle (same_db_data_iter data_rows w) Hrun)
    as (n & seg & w2 & L & N & Le & P & C & _ & F).
  cbn [data_iter with_data_iter log] in *. subst n.
  destruct (process_all_rows _ _ _ _ P) as (s2 & St & G & A).
  exists seg, (inserted "attack_groups" s2).
  split; [exact L |]. split; [exact Le |].
  split; [exact (process_all_parses _ _ _ _ P) |].
  split; [| split; [exact G | split; [| exact F]]].
  - rewrite C, (step_current _ _ _ St), Hidle. reflexivity.
  - intros f. rewrite C, (step_current _ _ _ St), Hidle, length_app, A.
    reflexivity.
Qed.

(** X5. The importer adds no second row for a key.  If, before a run, no
    key that a searcher can be called with (a period, a place, target or
    missile name) is carried by two rows of its table, in the committed
    tables and in those of the connection, then the same holds after the
    run, however it ends and whatever the caches held. *)
Theorem import_dataset_keys_stay_unique (data_rows : list record)
    (block_size : Z) (src_url_prefix : str) (w : world) (res : result unit)
    (w' : world)
    (Hcur : keys_unique (current w))
    (Hcom : keys_unique (committed w))
    (Hrun : import_dataset data_rows block_size src_url_prefix w
            = Some (res, w')) :
  keys_unique (current w') /\ keys_unique (committed w').
Proof.
  unfold import_dataset in Hrun.
  apply import_loop_unique in Hrun; [exact Hrun |].
  split; assumption.
Qed.

(** X6. What [db_searcher] returned it finds again.  After a call for a
    key of the importer returned an identity, found or newly inserted, a
    call for the same key in any later state of the tables (rows may have
    been added) returns the same identity after its SELECT alone: no row
    is inserted and no sequence value is taken. *)
Theorem db_searcher_round_trip (k : kind) (vals : params) (w : world)
    (v : value) (w1 w2 : world)
    (Hkey : well_keyed k vals)
    (Hcall : db_searcher (searcher_of k) vals w = (Ok v, w1))
    (Hlater : grows (current w1) (current w2)) :
  db_searcher (searcher_of k) vals w2
  = (Ok v, with_log (log w2 ++ [EvSelect (table (searcher_of k)) vals]) w2).
Proof.
  apply db_searcher_searched in Hcall.
  destruct (searched_lookup _ _ _ _ _ Hkey Hcall) as [L _].
  apply (lookup_pk_grows _ _ _ _ _ Hlater) in L.
  exact (db_searcher_found _ _ _ _ Hkey L).
Qed.

(** X7. A NULL value defeats the search.  When one of the values passed
    to [db_searcher] is [None], its SELECT matches no row, whatever the
    table holds, so the call always goes on to the INSERT: it returns the
    key of a new row when the storage layer takes it and raises otherwise,
    and it never returns the key of an existing row. *)
Theorem db_searcher_null_value (sp : searcher) (vals conds : params) (w : world)
    (Hall : bind_placeholders (kw_cols sp) vals = Some conds)
    (Hnull : In VNull (map snd conds)) :
  let r_new := new_row (table sp) (pk_col sp) conds w in
  let out := db_searcher sp vals w in
  if accepts w (table sp) (current w (table sp)) r_new
  then fst out = Ok (VInt (sequences w (table sp))) /\
       current (snd out) (table sp) = current w (table sp) ++ [r_new]
  else fst out = Raise DatabaseError /\ current (snd out) = current w.
Proof.
  cbv zeta. destruct (db_searcher sp vals w) as [res w'] eqn:E.
  apply db_searcher_searched in E. cbn [fst snd].
  assert (F0 : List.find (row_matches conds) (current w (table sp)) = None).
  { apply find_all_false. intros r. now apply row_matches_null. }
  inversion E as [B | c r B F | c B F A | c B F A]; subst;
    rewrite Hall in B; try discriminate; inversion B; subst c.
  - congruence.
  - rewrite A. split; [reflexivity |]. cbn. now rewrite upd_same.
  - rewrite A. split; reflexivity.
Qed.

(** X8. [db_searcher] raises [KeyError] exactly when one of the keywords
    of its decorator was not passed, and then before any statement: the
    state is as it was.  Its only other exception is [DatabaseError],
    raised when the storage layer refuses the row of the INSERT. *)
Theorem db_searcher_missing_keyword (sp : searcher) (vals : params) (w : world) :
  (fst (db_searcher sp vals w) = Raise KeyError <->
   exists col_kw col_name,
     In (col_kw, col_name) (kw_cols sp) /\ lookup col_kw vals = None) /\
  (fst (db_searcher sp vals w) = Raise KeyError ->
   snd (db_searcher sp vals w) = w) /\
  (forall e, fst (db_searcher sp vals w) = Raise e ->
             e = KeyError \/ (e = DatabaseError /\ refuses w)).
Proof.
  destruct (db_searcher sp vals w) as [res w'] eqn:E.
  apply db_searcher_searched in E. cbn [fst snd].
  inversion E as [B | c r B F | c B F A | c B F A]; subst.
  - split; [| split].
    + split; [intros _; now apply bind_placeholders_none | reflexivity].
    + reflexivity.
    + intros e H. inversion H. now left.
  - split; [| split]; try discriminate.
    split; [discriminate |]. intros H. apply bind_placeholders_none in H.
    congruence.
  - split; [| split]; try discriminate.
    split; [discriminate |]. intros H. apply bind_placeholders_none in H.
    congruence.
  - split; [| split]; try discriminate.
    + split; [discriminate |]. intros H. apply bind_placeholders_none in H.
      congruence.
    + intros e H. inversion H. right. split; [reflexivity |].
      now exists (table sp), (current w (table sp)),
        (new_row (table sp) (pk_col sp) c w).
Qed.

(** X9. The caches are not part of the transaction.  When a memoised
    searcher returned an identity for a key that no committed row carries
    and the transaction is then rolled back, the row is gone but the cache
    still holds the key: the next call returns the same identity without
    any statement, while no row of the table carries the key. *)
Theorem cache_survives_rollback (k : kind) (vals : params) (w : world)
    (v : value) (w1 : world)
    (Hnew : lookup_pk k vals (committed w) = None)
    (Hcall : resolve k vals w = (Ok v, w1)) :
  let wr := snd (rollback w1) in
  current wr = committed w /\
  lookup_pk k vals (current wr) = None /\
  exists w2,
    resolve k vals wr = (Ok v, w2) /\
    log w2 = log wr ++ [EvResolved k vals v] /\
    current w2 = current wr /\
    lookup_pk k vals (current w2) = None.
Proof.
  cbv zeta. apply resolve_resolved in Hcall.
  destruct (resolved_front _ _ _ _ _ Hcall) as (rest & Hc).
  pose proof (resolved_committed _ _ _ _ _ Hcall) as Hm.
  unfold rollback, emit. cbn [snd].
  set (wr := with_log (log (with_current (committed w1) w1) ++ [EvRollback])
               (with_current (committed w1) w1)).
  assert (Hcur : current wr = committed w) by (cbn; exact Hm).
  split; [exact Hcur |]. split; [now rewrite Hcur |].
  assert (G : cache_get vals (caches wr k) = Some v).
  { cbn. rewrite Hc. apply cache_get_front. }
  eexists. split; [exact (resolve_hit _ _ _ _ G) |].
  split; [reflexivity |]. split; [reflexivity |].
  cbn [current logged cached with_log with_caches]. now rewrite Hcur.
Qed.

(** X10. The two formats of the dataset are read as written: ten
    characters YYYY-MM-DD with all fields zero-padded and a date of the
    calendar give midnight of that date, and the same followed by one
    blank and HH:MM with an hour up to 23 and a minute up to 59 gives that
    date and time. *)
Theorem get_datetime_zero_padded (y1 y2 y3 y4 m1 m2 d1 d2 : ascii)
    (Hdigits : Forall DateFormat.digit [y1; y2; y3; y4; m1; m2; d1; d2])
    (Hvalid : Strptime.valid_date
                (1000 * Strptime.digit_val y1 + 100 * Strptime.digit_val y2
                 + 10 * Strptime.digit_val y3 + Strptime.digit_val y4)
                (10 * Strptime.digit_val m1 + Strptime.digit_val m2)
                (10 * Strptime.digit_val d1 + Strptime.digit_val d2) = true) :
  let y := 1000 * Strptime.digit_val y1 + 100 * Strptime.digit_val y2
           + 10 * Strptime.digit_val y3 + Strptime.digit_val y4 in
  let m := 10 * Strptime.digit_val m1 + Strptime.digit_val m2 in
  let d := 10 * Strptime.digit_val d1 + Strptime.digit_val d2 in
  get_datetime [y1; y2; y3; y4; "-"; m1; m2; "-"; d1; d2]%char
  = Ok (mkDatetime y m d 0 0) /\
  forall h1 h2 n1 n2 : ascii,
    Forall DateFormat.digit [h1; h2; n1; n2] ->
    10 * Strptime.digit_val h1 + Strptime.digit_val h2 <= 23 ->
    10 * Strptime.digit_val n1 + Strptime.digit_val n2 <= 59 ->
    get_datetime [y1; y2; y3; y4; "-"; m1; m2; "-"; d1; d2;
                  " "; h1; h2; ":"; n1; n2]%char
    = Ok (mkDatetime y m d
            (10 * Strptime.digit_val h1 + Strptime.digit_val h2)
            (10 * Strptime.digit_val n1 + Strptime.digit_val n2)).
Proof.
  cbv zeta.
  pose proof (Padded.padded_date_text _ _ _ _ _ _ _ _ Hdigits Hvalid) as T.
  repeat match goal with
         | H : Forall _ (_ :: _) |- _ => inversion H; subst; clear H
         end.
  split.
  - apply DateProofs.get_datetime_iff. left. cbn [year month day hour minute].
    split; [| auto].
    unfold PyStr.contains. cbn [existsb].
    rewrite (Padded.digit_not_colon y1), (Padded.digit_not_colon y2),
      (Padded.digit_not_colon y3), (Padded.digit_not_colon y4),
      (Padded.digit_not_colon m1), (Padded.digit_not_colon m2),
      (Padded.digit_not_colon d1), (Padded.digit_not_colon d2) by assumption.
    reflexivity.
  - intros h1 h2 n1 n2 Ht Hh Hn.
    repeat match goal with
           | H : Forall _ (_ :: _) |- _ => inversion H; subst; clear H
           end.
    apply DateProofs.get_datetime_iff. right.
    cbn [year month day hour minute].
    split; [| split; [| exact Hvalid]].
    + unfold PyStr.contains. cbn [existsb].
      rewrite (Padded.digit_not_colon y1), (Padded.digit_not_colon y2),
        (Padded.digit_not_colon y3), (Padded.digit_not_colon y4),
        (Padded.digit_not_colon m1), (Padded.digit_not_colon m2),
        (Padded.digit_not_colon d1), (Padded.digit_not_colon d2),
        (Padded.digit_not_colon h1), (Padded.digit_not_colon h2) by assumption.
      reflexivity.
    + exists [y1; y2; y3; y4; "-"; m1; m2; "-"; d1; d2]%char,
        [" "%char], [h1; h2], [n1; n2].
      split; [reflexivity |]. split; [exact T |].
      split; [split; [discriminate | repeat constructor] |].
      split; constructor; try assumption; lia.
Qed.



(** X13. A run looks up and creates nothing but what its input names.
    Every key a memoised searcher returned for during the run was passed
    for one of the input records: for the periods, the two parsed
    boundaries of the record with the URL prefix put before its source; for
    the places, targets and missiles, one of the names of the record's
    field. *)
Theorem import_dataset_keys_from_input (data_rows : list record)
    (block_size : Z) (src_url_prefix : str) (w : world) (res : result unit)
    (w' : world)
    (Hrun : import_dataset data_rows block_size src_url_prefix w
            = Some (res, w')) :
  exists seg,
    log w' = log w ++ seg /\
    forall k vals v,
      In (EvResolved k vals v) seg ->
      exists r, In r data_rows /\ key_of_record src_url_prefix k vals r.
Proof.
  unfold import_dataset in Hrun. apply import_loop_trace in Hrun.
  destruct Hrun as (n & seg & L & _ & T & _).
  cbn [data_iter with_data_iter log] in *.
  exists seg. split; [exact L |].
  intros k vals v Hin. apply resolved_in_ops in Hin.
  apply traced_prefix in T. apply (prefix_of_in _ _ _ T) in Hin.
  apply in_flat_map in Hin. destruct Hin as (r & Hr & Ho).
  exists r. split; [now apply in_firstn in Hr |].
  now apply resolve_op_record.
Qed.

(** X14. The names the importer takes from a multi-valued field are never
    empty as a list and none of them contains the separator [" and "]:
    what is looked up and stored as a place, target or missile name is a
    piece between two separators, never a text with a separator inside. *)
Theorem names_free_of_separator (f : multi) (data_row : record) :
  names_of f data_row <> [] /\
  Forall (fun name => ~ PyStr.occurs sep_and name) (names_of f data_row).
Proof.
  unfold names_of. split; [apply SplitProofs.split_nonempty |].
  apply (SplitPieces.split_clean sep_and ltac:(discriminate)
           (length (multi_field f data_row))).
  apply Nat.le_refl.
Qed.

(** X15. Importing the same records again adds no period, place, target
    or missile.  When a run from a state of a run (a new process with
    empty caches is one) over an idle connection ended normally, a second
    run over the same records that starts from the store as the first left
    it, with whatever caches, sequences and block size, and however it
    ends, leaves the four tables the searchers read exactly as they were:
    every key is found, none is inserted. *)
Theorem import_dataset_again (data_rows : list record) (size1 size2 : Z)
    (src_url_prefix : str) (w w1 wn : world) (res : result unit) (w2 : world)
    (H1 : (0 < size1)%Z)
    (Hinv : run_inv w)
    (Hidle : current w = committed w)
    (Hrun1 : import_dataset data_rows size1 src_url_prefix w = Some (Ok tt, w1))
    (Hcur : current wn = committed w1)
    (Hcom : committed wn = committed w1)
    (Hrun2 : import_dataset data_rows size2 src_url_prefix wn = Some (res, w2)) :
  lookup_tables_same (committed w1) (committed w2) /\
  current w2 = committed w2.
Proof.
  unfold import_dataset in *.
  destruct (import_loop_seq _ _ _ H1 _ _ w _ _
              (same_db_data_iter data_rows w) Hrun1) as (u1 & P1 & S1).
  specialize (S1 eq_refl). cbn [data_iter with_data_iter] in P1.
  destruct (process_all_makes_present _ _ _ _ Hinv P1) as (_ & _ & Pr).
  destruct (import_loop_committed _ _ _ _ (with_data_iter data_rows w) w _ _
              Hidle (same_db_data_iter data_rows w) Hrun1)
    as (? & ? & ? & _ & _ & _ & _ & _ & I1 & _).
  assert (E1 : current u1 = committed w1).
  { rewrite <- I1. symmetry. apply S1. }
  rewrite E1 in Pr.
  assert (Hidle2 : current (with_data_iter data_rows wn)
                   = committed (with_data_iter data_rows wn)).
  { cbn. congruence. }
  destruct (import_loop_committed _ _ _ _ (with_data_iter data_rows wn) wn _ _
              Hidle2 (same_db_data_iter data_rows wn) Hrun2)
    as (n & seg & u2 & _ & _ & _ & P2 & C2 & I2 & _).
  cbn [data_iter with_data_iter] in P2.
  split; [| exact I2].
  rewrite C2, <- Hcur.
  eapply process_all_present; [| exact P2].
  rewrite Hcur. intros r k vals Hin K.
  apply (Pr r k vals); [now apply in_firstn in Hin | exact K].
Qed.

(** X16. A run writes no dangling reference.  After a run from a state of
    a run (a new process with empty caches is one) over an idle
    connection, however it ends: every fact-group row it committed carries
    the key of a committed row of [attacks], and every association row it
    committed carries the key of a committed fact-group row and the key of
    a committed row of the table of its entity. *)
Theorem import_dataset_references (data_rows : list record) (block_size : Z)
    (src_url_prefix : str) (w : world) (res : result unit) (w' : world)
    (Hinv : run_inv w)
    (Hidle : current w = committed w)
    (Hrun : import_dataset data_rows block_size src_url_prefix w
            = Some (res, w')) :
  (exists added,
     committed w' "attack_groups"%string
     = committed w "attack_groups"%string ++ added /\
     Forall (group_row_linked (committed w')) added) /\
  (forall f, exists added,
     committed w' (multi_table f) = committed w (multi_table f) ++ added /\
     Forall (assoc_row_linked f (committed w')) added).
Proof.
  unfold import_dataset in Hrun.
  destruct (import_loop_committed _ _ _ _ (with_data_iter data_rows w) w _ _
              Hidle (same_db_data_iter data_rows w) Hrun)
    as (n & seg & w2 & _ & _ & _ & P & C & _ & _).
  destruct (process_all_linked _ _ _ _ Hinv P) as (_ & _ & G & A).
  rewrite C, <- Hidle. split; [exact G | exact A].
Qed.

(** X17. After a normal end the caches are true.  When a run from a state
    of a run over an idle connection ends without an exception, every
    entry of every cache is the key and the identity of a committed row of
    the searcher's table: the row has the values of the key in its columns
    and the cached identity as its key. *)
Theorem import_dataset_caches_committed (data_rows : list record)
    (block_size : Z) (src_url_prefix : str) (w w' : world)
    (Hinv : run_inv w)
    (Hidle : current w = committed w)
    (Hrun : import_dataset data_rows block_size src_url_prefix w
            = Some (Ok tt, w')) :
  forall k vals v,
    In (vals, v) (caches w' k) ->
    exists r,
      In r (committed w' (table (searcher_of k))) /\
      columns_equal vals r /\
      row_get (pk_col (searcher_of k)) r = v.
Proof.
  intros k vals v Hin. unfold import_dataset in Hrun.
  assert (I0 : run_inv (with_data_iter data_rows w)).
  { eapply run_inv_same; [| | | exact Hinv]; reflexivity. }
  destruct (import_loop_run_inv _ _ _ _ _ _ _ I0 Hrun) as [_ I1].
  specialize (I1 eq_refl).
  destruct (import_loop_committed _ _ _ _ (with_data_iter data_rows w) w _ _
              Hidle (same_db_data_iter data_rows w) Hrun)
    as (? & ? & ? & _ & _ & _ & _ & _ & U & _).
  destruct (inv_cache _ I1 _ _ _ Hin) as [W L].
  rewrite <- U. exact (lookup_pk_row _ _ _ _ W L).
Qed.

(** * The theorems at concrete inputs *)

Lemma db_searcher_find_or_create_witness :
  bind_placeholders (kw_cols (searcher_of Place)) (name_key Place (txt "Crimea"))
  = Some [("general_name"%string, VText (txt "Crimea"))] /\
  fst (db_searcher (searcher_of Place) (name_key Place (txt "Crimea")) empty_world)
  = Ok (VInt 1) /\
  current (snd (db_searcher (searcher_of Place) (name_key Place (txt "Crimea"))
                  empty_world)) "launch_places"%string
  = [[("place_id"%string, VInt 1); ("general_name"%string, VText (txt "Crimea"))]].
Proof.
  split; [reflexivity |].
  assert (Hval : Forall (fun cv : string * value => snd cv <> VNull)
                   [("general_name"%string, VText (txt "Crimea"))]).
  { constructor; [discriminate | constructor]. }
  destruct (db_searcher_find_or_create Place (name_key Place (txt "Crimea"))
              [("general_name"%string, VText (txt "Crimea"))] empty_world
              eq_refl Hval) as (_ & H & _).
  destruct H as (H1 & H2 & _).
  - intros r [].
  - reflexivity.
  - split; [exact H1 | exact H2].
Defined.

Lemma import_dataset_block_atomicity_witness :
  current empty_world = committed empty_world /\
  exists w',
    import_dataset [rec1; rec_bad; rec2] 1 (txt "fb/") empty_world
    = Some (Raise ValueError, w') /\
    exists blocks tail,
      log w' = log empty_world ++ closed 0 blocks ++ tail /\
      Forall (fun b => Forall inner (fst b)) blocks /\
      (forall t, committed w' t =
                 committed empty_world t ++
                 flat_map (fun b => inserted t (fst b)) blocks) /\
      current w' = committed w' /\
      (tail = [] \/ exists seg, Forall inner seg /\ tail = seg ++ [EvRollback]).
Proof.
  split; [reflexivity |].
  destruct (import_dataset [rec1; rec_bad; rec2] 1 (txt "fb/") empty_world)
    as [[[[]|e] w']|] eqn:E; try (vm_compute in E; discriminate).
  assert (He : e = ValueError).
  { vm_compute in E. inversion E. reflexivity. }
  subst e. exists w'. split; [reflexivity |].
  exact (import_dataset_block_atomicity [rec1; rec_bad; rec2] 1 (txt "fb/")
           empty_world (Raise ValueError) w' eq_refl E).
Defined.


Lemma import_dataset_degenerate_block_size_witness :
  (-1 <= 0)%Z /\
  exists w',
    import_dataset [rec1; rec2] (-1) (txt "fb/") empty_world
    = Some (Raise ValueError, w') /\
    log w' = [] /\ data_iter w' = [rec1; rec2].
Proof.
  split; [lia |].
  destruct (import_dataset_degenerate_block_size [rec1; rec2] (-1) (txt "fb/")
              empty_world ltac:(lia))
    as (w' & E & L & _ & _ & _ & _ & D).
  exists w'. auto.
Defined.

Lemma resolve_twice_same_identity_witness :
  exists w',
    import_dataset [rec1; rec2; rec1] 1 (txt "fb/") empty_world = Some (Ok tt, w') /\
    In (EvResolved Attack
          (attack_key (mkDatetime 2022 3 1 0 0) (mkDatetime 2022 3 1 14 30)
             (txt "fb/src1")) (VInt 1)) (log w') /\
    forall v,
      In (EvResolved Attack
            (attack_key (mkDatetime 2022 3 1 0 0) (mkDatetime 2022 3 1 14 30)
               (txt "fb/src1")) v) (log w') ->
      v = VInt 1 /\
      inserts_for Attack
        (attack_key (mkDatetime 2022 3 1 0 0) (mkDatetime 2022 3 1 14 30)
           (txt "fb/src1")) (log w') <= 1.
Proof.
  destruct (import_dataset [rec1; rec2; rec1] 1 (txt "fb/") empty_world)
    as [[[[]|e] w']|] eqn:E; try (vm_compute in E; discriminate).
  exists w'. split; [reflexivity |].
  assert (Hin : In (EvResolved Attack
          (attack_key (mkDatetime 2022 3 1 0 0) (mkDatetime 2022 3 1 14 30)
             (txt "fb/src1")) (VInt 1)) (log w')).
  { vm_compute in E. inversion E. cbn. tauto. }
  split; [exact Hin |].
  intros v Hv.
  exact (proj1 resolve_twice_same_identity
           [rec1; rec2; rec1] 1%Z (txt "fb/") empty_world (Ok tt) w'
           (fun _ => eq_refl) eq_refl E Attack _ v (VInt 1) Hv Hin).
Defined.

Lemma lru_caches_bounded_witness :
  exists w',
    import_dataset [rec1; rec2; rec1] 1 (txt "fb/") empty_world = Some (Ok tt, w') /\
    forall k, length (caches w' k) <= match k with Attack => 1 | _ => 500 end.
Proof.
  destruct (import_dataset [rec1; rec2; rec1] 1 (txt "fb/") empty_world)
    as [[[[]|e] w']|] eqn:E; try (vm_compute in E; discriminate).
  exists w'. split; [reflexivity |].
  apply (proj1 lru_caches_bounded
           [rec1; rec2; rec1] 1%Z (txt "fb/") empty_world (Ok tt) w');
    [| exact E].
  intros k. cbn. destruct k; cbn; lia.
Defined.


Lemma import_dataset_order_witness :
  exists w',
    import_dataset [rec1] 1 (txt "fb/") empty_world = Some (Ok tt, w') /\
    exists seg,
      log w' = seg /\
      ops seg =
      [OpPeriod (attack_key (mkDatetime 2022 3 1 0 0) (mkDatetime 2022 3 1 14 30)
                   (txt "fb/src1"));
       OpGroup (VText (txt "3")) (VText (txt "2"));
       OpName Place (name_key Place (txt "Crimea"));
       OpAssoc "group_launch_places";
       OpName Place (name_key Place (txt "Kherson Oblast"));
       OpAssoc "group_launch_places";
       OpName Target (name_key Target (txt "south"));
       OpAssoc "group_targets";
       OpName Missile (name_key Missile (txt "Kalibr"));
       OpAssoc "group_missiles"] /\
      linked None seg.
Proof.
  destruct (import_dataset [rec1] 1 (txt "fb/") empty_world)
    as [[[[]|e] w']|] eqn:E; try (vm_compute in E; discriminate).
  exists w'. split; [reflexivity |].
  destruct (import_dataset_order [rec1] 1 (txt "fb/") empty_world (Ok tt) w' E)
    as (seg & L & _ & O & K).
  exists seg. split; [exact L |]. split; [| exact K].
  rewrite (O ltac:(lia) eq_refl). reflexivity.
Defined.

Lemma process_row_empty_field_witness :
  exists w',
    process_row (txt "fb/") rec2 empty_world = (Ok tt, w') /\
    target rec2 = [] /\
    exists gid id,
      current w' "group_targets"%string = [assoc_row MTargets gid id].
Proof.
  destruct (process_row (txt "fb/") rec2 empty_world) as [[[]|e] w'] eqn:E;
    try (vm_compute in E; discriminate).
  exists w'. split; [reflexivity |]. split; [reflexivity |].
  destruct (process_row_empty_field (txt "fb/") rec2 empty_world w' MTargets
              (run_inv_fresh empty_world (fun _ => eq_refl) eq_refl) E eq_refl)
    as (_ & gid & grow & id & entity & _ & _ & _ & _ & _ & Ht).
  exists gid, id. exact Ht.
Defined.

(** * The further properties at concrete inputs *)



Lemma import_dataset_reported_rows_witness :
  current empty_world = committed empty_world /\
  import_dataset [rec1; rec_bad; rec2] 1 (txt "fb/") empty_world
  = Some (Raise ValueError, world_after [rec1; rec_bad; rec2] 1 empty_world) /\
  exists seg added,
    log (world_after [rec1; rec_bad; rec2] 1 empty_world) = seg /\
    reported seg <= 3 /\
    committed (world_after [rec1; rec_bad; rec2] 1 empty_world)
      "attack_groups"%string = added /\
    map group_units added
    = map record_units (firstn (reported seg) [rec1; rec_bad; rec2]).
Proof.
  split; [reflexivity |].
  assert (E : import_dataset [rec1; rec_bad; rec2] 1 (txt "fb/") empty_world
              = Some (Raise ValueError,
                      world_after [rec1; rec_bad; rec2] 1 empty_world))
    by (vm_compute; reflexivity).
  split; [exact E |].
  destruct (import_dataset_reported_rows _ _ _ empty_world _ _ eq_refl E)
    as (seg & added & L & Le & _ & C & G & _).
  exists seg, added. auto.
Defined.

Lemma import_dataset_keys_stay_unique_witness :
  keys_unique (current empty_world) /\
  keys_unique (committed empty_world) /\
  import_dataset [rec1; rec2; rec1] 1 (txt "fb/") empty_world
  = Some (Ok tt, world_after [rec1; rec2; rec1] 1 empty_world) /\
  keys_unique (current (world_after [rec1; rec2; rec1] 1 empty_world)) /\
  keys_unique (committed (world_after [rec1; rec2; rec1] 1 empty_world)).
Proof.
  assert (U : keys_unique (fun _ => [])).
  { intros k vals _. cbn. lia. }
  split; [exact U |]. split; [exact U |].
  assert (E : import_dataset [rec1; rec2; rec1] 1 (txt "fb/") empty_world
              = Some (Ok tt, world_after [rec1; rec2; rec1] 1 empty_world))
    by (vm_compute; reflexivity).
  split; [exact E |].
  exact (import_dataset_keys_stay_unique _ _ _ empty_world _ _ U U E).
Defined.

Lemma db_searcher_round_trip_witness :
  let key := name_key Place (txt "Crimea") in
  let w1 := snd (db_searcher (searcher_of Place) key empty_world) in
  db_searcher (searcher_of Place) key empty_world = (Ok (VInt 1), w1) /\
  db_searcher (searcher_of Place) key w1
  = (Ok (VInt 1), with_log (log w1 ++ [EvSelect "launch_places" key]) w1).
Proof.
  cbv zeta. split; [reflexivity |].
  exact (db_searcher_round_trip Place (name_key Place (txt "Crimea")) empty_world
           (VInt 1) _ _ (wk_place _) eq_refl (grows_refl _)).
Defined.

Lemma db_searcher_null_value_witness :
  let vals := [("general_name"%string, VNull)] in
  let w1 := snd (db_searcher (searcher_of Place) vals empty_world) in
  length (current w1 "launch_places"%string) = 1 /\
  fst (db_searcher (searcher_of Place) vals w1) = Ok (VInt 2) /\
  length (current (snd (db_searcher (searcher_of Place) vals w1))
            "launch_places"%string) = 2.
Proof.
  cbv zeta. split; [reflexivity |].
  pose proof (db_searcher_null_value (searcher_of Place)
                [("general_name"%string, VNull)]
                [("general_name"%string, VNull)]
                (snd (db_searcher (searcher_of Place)
                        [("general_name"%string, VNull)] empty_world))
                eq_refl (or_introl eq_refl)) as T.
  cbv zeta in T.
  change (accepts _ _ _ _) with true in T. cbv iota in T.
  destruct T as [T1 T2]. split; [exact T1 |].
  cbn [table searcher_of] in T2 |- *. rewrite T2. reflexivity.
Defined.

Lemma cache_survives_rollback_witness :
  let key := name_key Place (txt "Crimea") in
  let w1 := snd (resolve Place key empty_world) in
  let wr := snd (rollback w1) in
  resolve Place key empty_world = (Ok (VInt 1), w1) /\
  current wr "launch_places"%string = [] /\
  exists w2,
    resolve Place key wr = (Ok (VInt 1), w2) /\
    log w2 = log wr ++ [EvResolved Place key (VInt 1)] /\
    current w2 "launch_places"%string = [].
Proof.
  cbv zeta. split; [reflexivity |]. split; [reflexivity |].
  destruct (cache_survives_rollback Place (name_key Place (txt "Crimea"))
              empty_world (VInt 1) _ eq_refl eq_refl)
    as (_ & _ & w2 & R & L & C & _).
  exists w2. split; [exact R |]. split; [exact L |]. now rewrite C.
Defined.

Lemma get_datetime_zero_padded_witness :
  get_datetime (txt "2022-03-01") = Ok (mkDatetime 2022 3 1 0 0) /\
  get_datetime (txt "2022-03-01 14:30") = Ok (mkDatetime 2022 3 1 14 30).
Proof.
  assert (D : Forall DateFormat.digit ["2"; "0"; "2"; "2"; "0"; "3"; "0"; "1"]%char)
    by (repeat constructor).
  destruct (get_datetime_zero_padded "2"%char "0"%char "2"%char "2"%char
              "0"%char "3"%char "0"%char "1"%char D eq_refl)
    as [A B].
  split; [exact A |].
  assert (T : Forall DateFormat.digit ["1"; "4"; "3"; "0"]%char)
    by (repeat constructor).
  exact (B "1"%char "4"%char "3"%char "0"%char T
           ltac:(cbn; lia) ltac:(cbn; lia)).
Defined.



Lemma import_dataset_keys_from_input_witness :
  import_dataset [rec1] 1 (txt "fb/") empty_world
  = Some (Ok tt, world_after [rec1] 1 empty_world) /\
  forall k vals v,
    In (EvResolved k vals v) (log (world_after [rec1] 1 empty_world)) ->
    key_of_record (txt "fb/") k vals rec1.
Proof.
  assert (E : import_dataset [rec1] 1 (txt "fb/") empty_world
              = Some (Ok tt, world_after [rec1] 1 empty_world))
    by (vm_compute; reflexivity).
  split; [exact E |].
  destruct (import_dataset_keys_from_input _ _ _ _ _ _ E) as (seg & L & H).
  intros k vals v Hin. cbn [log empty_world app] in L. rewrite L in Hin.
  destruct (H k vals v Hin) as (r & [<- | []] & K). exact K.
Defined.

Lemma import_dataset_again_witness :
  let w1 := world_after [rec1; rec2] 1 empty_world in
  let w2 := world_after [rec1; rec2] 2 w1 in
  import_dataset [rec1; rec2] 1 (txt "fb/") empty_world = Some (Ok tt, w1) /\
  import_dataset [rec1; rec2] 2 (txt "fb/") w1 = Some (Ok tt, w2) /\
  lookup_tables_same (committed w1) (committed w2) /\
  length (committed w1 "attack_groups"%string) = 2 /\
  length (committed w2 "attack_groups"%string) = 4.
Proof.
  cbv zeta.
  assert (E1 : import_dataset [rec1; rec2] 1 (txt "fb/") empty_world
               = Some (Ok tt, world_after [rec1; rec2] 1 empty_world))
    by (vm_compute; reflexivity).
  assert (E2 : import_dataset [rec1; rec2] 2 (txt "fb/")
                 (world_after [rec1; rec2] 1 empty_world)
               = Some (Ok tt, world_after [rec1; rec2] 2
                                (world_after [rec1; rec2] 1 empty_world)))
    by (vm_compute; reflexivity).
  split; [exact E1 |]. split; [exact E2 |].
  split; [| split; vm_compute; reflexivity].
  refine (proj1 (import_dataset_again [rec1; rec2] 1 2 (txt "fb/") empty_world
                   _ _ (Ok tt) _ ltac:(lia)
                   (run_inv_fresh empty_world (fun _ => eq_refl) eq_refl)
                   eq_refl E1 _ eq_refl E2)).
  vm_compute. reflexivity.
Defined.

Lemma import_dataset_references_witness :
  import_dataset [rec1; rec2] 1 (txt "fb/") empty_world
  = Some (Ok tt, world_after [rec1; rec2] 1 empty_world) /\
  Forall (group_row_linked (committed (world_after [rec1; rec2] 1 empty_world)))
    (committed (world_after [rec1; rec2] 1 empty_world) "attack_groups"%string) /\
  forall f,
    Forall (assoc_row_linked f (committed (world_after [rec1; rec2] 1 empty_world)))
      (committed (world_after [rec1; rec2] 1 empty_world) (multi_table f)).
Proof.
  assert (E : import_dataset [rec1; rec2] 1 (txt "fb/") empty_world
              = Some (Ok tt, world_after [rec1; rec2] 1 empty_world))
    by (vm_compute; reflexivity).
  split; [exact E |].
  destruct (import_dataset_references _ _ _ _ _ _
              (run_inv_fresh empty_world (fun _ => eq_refl) eq_refl) eq_refl E)
    as [(ag & TG & FG) FA].
  split.
  - cbn [committed empty_world app] in TG. now rewrite TG.
  - intros f. destruct (FA f) as (aa & TA & F).
    cbn [committed empty_world app] in TA. now rewrite TA.
Defined.

Lemma import_dataset_caches_committed_witness :
  import_dataset [rec1; rec2] 1 (txt "fb/") empty_world
  = Some (Ok tt, world_after [rec1; rec2] 1 empty_world) /\
  forall k vals v,
    In (vals, v) (caches (world_after [rec1; rec2] 1 empty_world) k) ->
    exists r,
      In r (committed (world_after [rec1; rec2] 1 empty_world)
              (table (searcher_of k))) /\
      columns_equal vals r /\
      row_get (pk_col (searcher_of k)) r = v.
Proof.
  assert (E : import_dataset [rec1; rec2] 1 (txt "fb/") empty_world
              = Some (Ok tt, world_after [rec1; rec2] 1 empty_world))
    by (vm_compute; reflexivity).
  split; [exact E |].
  exact (import_dataset_caches_committed _ _ _ _ _
           (run_inv_fresh empty_world (fun _ => eq_refl) eq_refl) eq_refl E).
Defined.
